(** * MusicalRaaga: the pitch and tempo estimators of [utils/audioUtils.ts]

    A shallow embedding of [detectPitch], [estimateTempo] and
    [calculateDynamicThreshold].  JavaScript numbers are IEEE 754 binary64
    values, which is exactly Rocq's primitive [float]: [+], [*], [/], [sqrt]
    and the comparisons are the kernel's operations, specified by the
    Standard Library against [SpecFloat].  Array indices, lengths and loop
    counters are integers in the source and are kept as [nat] / [Z] here;
    they are converted to [float] at the places where the source feeds them
    to floating-point arithmetic. *)

From Stdlib Require Import ZArith List Bool Lia Floats Sorted PeanoNat.
From Stdlib Require Uint63.
Import ListNotations.

Set Warnings "-inexact-float,-abstract-large-number".

Open Scope float_scope.

(** ** JavaScript numbers *)

Module JS.

(** An integer as a JavaScript number.  Exact for [|z| < 2^53]; every
    integer of the source (indices, lengths, sample rates) is in that range. *)
Definition Z2F (z : Z) : float :=
  if (z <? 0)%Z then - of_uint63 (Uint63.of_Z (- z))
  else of_uint63 (Uint63.of_Z z).

Definition of_nat (n : nat) : float := Z2F (Z.of_nat n).

(** The integer part [floor x] of a binary64 value, read off its mantissa
    and exponent: [(-1)^s * m * 2^e].  NaN and the infinities have none
    and give 0. *)
Definition SFfloorZ (x : spec_float) : Z :=
  match x with
  | S754_finite s m e =>
      if (0 <=? e)%Z then cond_Zopp s (Z.shiftl (Zpos m) e)
      else Z.shiftr (cond_Zopp s (Zpos m)) (- e)
  | _ => 0%Z
  end.

Definition floorZ (x : float) : Z := SFfloorZ (Prim2SF x).

(** [Math.floor]: the largest integral number not above [x]; NaN, the
    infinities and the zeros are returned unchanged. *)
Definition Math_floor (x : float) : float :=
  match Prim2SF x with
  | S754_finite s m e =>
      if (0 <=? e)%Z then x
      else
        let n := Z.shiftr (cond_Zopp s (Zpos m)) (- e) in
        if (n =? 0)%Z then zero else Z2F n
  | _ => x
  end.

(** [Math.round]: the integral number closest to [x], ties going towards
    +Infinity, that is [floor (x + 1/2)] computed exactly; a result of zero
    keeps the sign of [x]; NaN, the infinities and the zeros are returned
    unchanged. *)
Definition Math_round (x : float) : float :=
  match Prim2SF x with
  | S754_finite s m e =>
      if (0 <=? e)%Z then x
      else
        let n := Z.shiftr (2 * cond_Zopp s (Zpos m) + 2 ^ (- e)) (- e + 1) in
        if (n =? 0)%Z then (if s then neg_zero else zero) else Z2F n
  | _ => x
  end.

(** The number of iterations of [for (let k = 0; k < bound; k++)] for an
    integral [bound]: none when the bound is zero, negative or NaN. *)
Definition count (bound : float) : nat := Z.to_nat (floorZ bound).

(** An array read [a[i]]: out of range it is [undefined], which every
    arithmetic operation and comparison of the source turns into NaN. *)
Definition get (a : list float) (i : nat) : float := nth i a nan.

(** [x ** 2] *)
Definition sq (x : float) : float := x * x.

Definition is_finite (x : float) : bool :=
  match Prim2SF x with
  | S754_zero _ | S754_finite _ _ _ => true
  | _ => false
  end.

End JS.

Import JS.

(** ** The decoded audio buffer

    [sampleRate] is the whole number of samples per second of the buffer;
    [channelData] is [getChannelData(0)], and [audioBuffer.length] is its
    length. *)
Record AudioBuffer := {
  sampleRate : Z;
  channelData : list float
}.

Definition bufferLength (audioBuffer : AudioBuffer) : nat :=
  length (channelData audioBuffer).

(** ** [detectPitch] *)

(** The inner loop: [correlation] for one [lag]. *)
Definition correlation_at (data : list float) (lag : nat) : float :=
  let comparisonSamples := (length data / 3)%nat in
  fold_left
    (fun correlation i =>
       if (i + lag <? length data)%nat
       then correlation + get data i * get data (i + lag)
       else correlation)
    (seq 0 comparisonSamples) 0.

Definition maxLag (audioBuffer : AudioBuffer) : nat :=
  count (Math_floor (Z2F (sampleRate audioBuffer) / 60)).

Definition correlations (audioBuffer : AudioBuffer) : list float :=
  map (correlation_at (channelData audioBuffer)) (seq 0 (maxLag audioBuffer)).

(** The [while] loop.  Every iteration increases [firstDropIndex], which
    stays below the length, so [length corr] iterations are enough
    ([first_drop_loop_exit] below). *)
Fixpoint first_drop_loop (fuel : nat) (corr : list float) (firstDropIndex : nat)
  : nat :=
  match fuel with
  | O => firstDropIndex
  | S fuel' =>
      if (firstDropIndex + 1 <? length corr)%nat
         && (get corr firstDropIndex <=? get corr (firstDropIndex + 1))
      then first_drop_loop fuel' corr (firstDropIndex + 1)
      else firstDropIndex
  end.

Definition firstDropIndex_of (corr : list float) : nat :=
  first_drop_loop (length corr) corr 0.

(** One iteration of the peak search. *)
Definition peak_step (corr : list float) (peakIndex i : nat) : nat :=
  if get corr peakIndex <? get corr i then i else peakIndex.

(** [for (let i = firstDropIndex + 1; i < correlations.length - 1; i++)] *)
Definition peakIndex_of (corr : list float) : nat :=
  let firstDropIndex := firstDropIndex_of corr in
  fold_left (peak_step corr)
    (seq (firstDropIndex + 1) (length corr - 1 - (firstDropIndex + 1)))
    (firstDropIndex + 1)%nat.

(** The last two statements: the frequency of a peak lag, to 0.1 Hz. *)
Definition frequency_of (sampleRate : Z) (peakIndex : nat) : float :=
  let fundamentalFrequency := Z2F sampleRate / of_nat peakIndex in
  Math_round (fundamentalFrequency * 10) / 10.

Definition detectPitch (audioBuffer : AudioBuffer) : float :=
  frequency_of (sampleRate audioBuffer) (peakIndex_of (correlations audioBuffer)).

(** ** [calculateDynamicThreshold] *)

Definition calculateDynamicThreshold (energyProfile : list float) : float :=
  let sum := fold_left (fun acc val => acc + val) energyProfile 0 in
  let mean := sum / of_nat (length energyProfile) in
  let squaredDiffs := map (fun val => sq (val - mean)) energyProfile in
  let variance :=
    fold_left (fun acc val => acc + val) squaredDiffs 0
    / of_nat (length energyProfile) in
  let stdDev := PrimFloat.sqrt variance in
  mean + 1.5 * stdDev.

(** ** [estimateTempo] *)

Definition windowSize (sampleRate : Z) : float :=
  Math_floor (Z2F sampleRate * 0.02).

(** The RMS of the window [i, limit). *)
Definition window_rms (data : list float) (i limit : nat) : float :=
  let sum :=
    fold_left (fun sum j => sum + get data j * get data j)
      (seq i (limit - i)) 0 in
  PrimFloat.sqrt (sum / of_nat (limit - i)).

(** [for (let i = 0; i < channelData.length; i += windowSize)].  The loop
    advances by [step], the integer value of [windowSize]; when that is not
    positive the source never leaves the loop, and the fuel runs out. *)
Fixpoint energy_loop (fuel : nat) (data : list float) (step i : nat)
  (energyProfile : list float) : option (list float) :=
  if (i <? length data)%nat then
    match fuel with
    | O => None
    | S fuel' =>
        let limit := Nat.min (i + step) (length data) in
        let rms := window_rms data i limit in
        energy_loop fuel' data step (i + step) (energyProfile ++ [rms])
    end
  else Some energyProfile.

Definition energyProfile_of (audioBuffer : AudioBuffer) : option (list float) :=
  let data := channelData audioBuffer in
  energy_loop (length data) data
    (count (windowSize (sampleRate audioBuffer))) 0 [].

Definition is_onset (energyProfile : list float) (threshold : float) (i : nat)
  : bool :=
  (threshold <? get energyProfile i)
  && (get energyProfile (i - 1) <? get energyProfile i)
  && (get energyProfile (i + 1) <=? get energyProfile i).

(** [for (let i = 1; i < energyProfile.length - 1; i++)] *)
Definition onsets_of (energyProfile : list float) : list nat :=
  let threshold := calculateDynamicThreshold energyProfile in
  filter (is_onset energyProfile threshold)
    (seq 1 (length energyProfile - 2)).

(** [for (let i = 1; i < onsets.length; i++)] *)
Definition intervals_of (onsets : list nat) : list Z :=
  map (fun i => (Z.of_nat (nth i onsets O) - Z.of_nat (nth (i - 1) onsets O))%Z)
    (seq 1 (length onsets - 1)).

(** [Math.round(interval / 2) * 2] on an integer: halves round towards
    +Infinity. *)
Definition normalizedInterval (interval : Z) : Z := ((interval + 1) / 2 * 2)%Z.

(** [histogramBins]: an object whose keys are non-negative integers.
    [Object.entries] lists such keys in ascending numeric order, whatever the
    order of insertion, so the object is kept as its list of entries in
    that order. *)
Definition bins := list (Z * nat).

(** [histogramBins[key] = (histogramBins[key] || 0) + 1] *)
Fixpoint bump (key : Z) (h : bins) : bins :=
  match h with
  | [] => [(key, 1%nat)]
  | (k, c) :: rest =>
      if (key <? k)%Z then (key, 1%nat) :: h
      else if (key =? k)%Z then (k, S c) :: rest
      else (k, c) :: bump key rest
  end.

Definition histogramBins_of (intervals : list Z) : bins :=
  fold_left (fun h interval => bump (normalizedInterval interval) h) intervals [].

(** The body of [Object.entries(histogramBins).forEach]; the state is
    [(mostCommonInterval, maxCount)]. *)
Definition leader_step (st : Z * nat) (entry : Z * nat) : Z * nat :=
  let '(interval, count) := entry in
  if (snd st <? count)%nat then (interval, count) else st.

Definition mostCommon (h : bins) : Z * nat := fold_left leader_step h (0%Z, O).

Definition mostCommonInterval_of (h : bins) : Z := fst (mostCommon h).

(** The two conditional statements and the final rounding. *)
Definition adjust_bpm (bpm : float) : float :=
  let bpm := if 240 <? bpm then bpm / 2 else bpm in
  let bpm := if bpm <? 60 then bpm * 2 else bpm in
  Math_round bpm.

Definition raw_bpm (sampleRate : Z) (mostCommonInterval : Z) : float :=
  let secondsPerWindow := windowSize sampleRate / Z2F sampleRate in
  let secondsPerBeat := Z2F mostCommonInterval * secondsPerWindow in
  60 / secondsPerBeat.

Definition tempo_of_profile (sampleRate : Z) (energyProfile : list float)
  : float :=
  let onsets := onsets_of energyProfile in
  let intervals := intervals_of onsets in
  let histogramBins := histogramBins_of intervals in
  adjust_bpm (raw_bpm sampleRate (mostCommonInterval_of histogramBins)).

(** [None]: the energy loop does not terminate. *)
Definition estimateTempo (audioBuffer : AudioBuffer) : option float :=
  match energyProfile_of audioBuffer with
  | Some energyProfile =>
      Some (tempo_of_profile (sampleRate audioBuffer) energyProfile)
  | None => None
  end.

(** ** Sample buffers used in the examples *)

Definition silence (n : nat) : list float := repeat 0 n.

(** [levels] held for [w] samples each. *)
Definition steps (w : nat) (levels : list float) : list float :=
  concat (map (fun v => repeat v w) levels).

(** * Properties *)

(** ** The order of binary64 values

    [SFcompare] is a lexicographic comparison of (class and sign, exponent,
    mantissa); [SFkey] makes that explicit, so that the order facts below
    reduce to linear integer arithmetic. *)

Definition SFkey (x : spec_float) : option (Z * Z * Z) :=
  match x with
  | S754_nan => None
  | S754_infinity false => Some (2, 0, 0)%Z
  | S754_infinity true => Some (-2, 0, 0)%Z
  | S754_zero _ => Some (0, 0, 0)%Z
  | S754_finite false m e => Some (1, e, Zpos m)%Z
  | S754_finite true m e => Some (-1, - e, Zneg m)%Z
  end.

Definition lex3 (a b : Z * Z * Z) : comparison :=
  let '(a1, a2, a3) := a in
  let '(b1, b2, b3) := b in
  match (a1 ?= b1)%Z with
  | Eq => match (a2 ?= b2)%Z with Eq => (a3 ?= b3)%Z | c => c end
  | c => c
  end.

Definition lex3_lt (a b : Z * Z * Z) : Prop :=
  let '(a1, a2, a3) := a in
  let '(b1, b2, b3) := b in
  (a1 < b1 \/ (a1 = b1 /\ (a2 < b2 \/ (a2 = b2 /\ a3 < b3))))%Z.

Definition lex3_le (a b : Z * Z * Z) : Prop := lex3_lt a b \/ a = b.

Lemma lex3_Lt a b : lex3 a b = Lt <-> lex3_lt a b.
Proof.
  destruct a as [[a1 a2] a3], b as [[b1 b2] b3]; unfold lex3, lex3_lt.
  destruct (Z.compare_spec a1 b1), (Z.compare_spec a2 b2),
    (Z.compare_spec a3 b3); split; intros HH; try discriminate; try lia;
    reflexivity.
Qed.

Lemma lex3_Eq a b : lex3 a b = Eq <-> a = b.
Proof.
  destruct a as [[a1 a2] a3], b as [[b1 b2] b3]; unfold lex3.
  destruct (Z.compare_spec a1 b1), (Z.compare_spec a2 b2),
    (Z.compare_spec a3 b3); split; intros HH; try discriminate;
    try (inversion HH; lia); subst; reflexivity.
Qed.

Lemma lex3_Gt a b : lex3 a b = Gt <-> lex3_lt b a.
Proof.
  destruct a as [[a1 a2] a3], b as [[b1 b2] b3]; unfold lex3, lex3_lt.
  destruct (Z.compare_spec a1 b1), (Z.compare_spec a2 b2),
    (Z.compare_spec a3 b3); split; intros HH; try discriminate; try lia;
    reflexivity.
Qed.

Lemma SFcompare_key x y :
  SFcompare x y =
  match SFkey x, SFkey y with
  | Some a, Some b => Some (lex3 a b)
  | _, _ => None
  end.
Proof.
  destruct x as [sx|sx| |sx mx ex], y as [sy|sy| |sy my ey];
    try destruct sx; try destruct sy; try reflexivity; cbn -[Z.compare];
    rewrite ?Z.compare_opp, ?(Z.compare_antisym ex ey);
    destruct (ex ?= ey)%Z; reflexivity.
Qed.

(** The comparisons of two numbers, by their keys. *)
Lemma ltb_key x y :
  (x <? y) = true <->
  exists a b, SFkey (Prim2SF x) = Some a /\ SFkey (Prim2SF y) = Some b
              /\ lex3_lt a b.
Proof.
  rewrite ltb_spec; unfold SFltb; rewrite SFcompare_key.
  destruct (SFkey (Prim2SF x)) as [a|], (SFkey (Prim2SF y)) as [b|].
  - split.
    + intros H. exists a, b. repeat split. apply lex3_Lt.
      destruct (lex3 a b); congruence.
    + intros (a' & b' & Ha & Hb & H). inversion Ha; inversion Hb; subst.
      apply lex3_Lt in H. rewrite H. reflexivity.
  - split; [discriminate|]. intros (a' & b' & _ & Hb & _). discriminate.
  - split; [discriminate|]. intros (a' & b' & Ha & _). discriminate.
  - split; [discriminate|]. intros (a' & b' & Ha & _). discriminate.
Qed.

Lemma leb_key x y :
  (x <=? y) = true <->
  exists a b, SFkey (Prim2SF x) = Some a /\ SFkey (Prim2SF y) = Some b
              /\ lex3_le a b.
Proof.
  rewrite leb_spec; unfold SFleb; rewrite SFcompare_key.
  destruct (SFkey (Prim2SF x)) as [a|], (SFkey (Prim2SF y)) as [b|].
  - split.
    + intros H. exists a, b. repeat split.
      destruct (lex3 a b) eqn:E; try discriminate.
      * right. apply lex3_Eq. exact E.
      * left. apply lex3_Lt. exact E.
    + intros (a' & b' & Ha & Hb & [H|H]); inversion Ha; inversion Hb; subst.
      * apply lex3_Lt in H. rewrite H. reflexivity.
      * assert (E : lex3 b' b' = Eq) by (apply lex3_Eq; reflexivity).
        rewrite E. reflexivity.
  - split; [discriminate|]. intros (a' & b' & _ & Hb & _). discriminate.
  - split; [discriminate|]. intros (a' & b' & Ha & _). discriminate.
  - split; [discriminate|]. intros (a' & b' & Ha & _). discriminate.
Qed.

Lemma lex3_lt_trans a b c : lex3_lt a b -> lex3_lt b c -> lex3_lt a c.
Proof.
  destruct a as [[a1 a2] a3], b as [[b1 b2] b3], c as [[c1 c2] c3].
  unfold lex3_lt. lia.
Qed.

Lemma lex3_lt_irrefl a : ~ lex3_lt a a.
Proof. destruct a as [[a1 a2] a3]. unfold lex3_lt. lia. Qed.

Lemma lex3_total a b : lex3_lt a b \/ a = b \/ lex3_lt b a.
Proof.
  destruct a as [[a1 a2] a3], b as [[b1 b2] b3]. unfold lex3_lt.
  destruct (Z.lt_total a1 b1) as [?|[?|?]]; [lia| |lia].
  destruct (Z.lt_total a2 b2) as [?|[?|?]]; [lia| |lia].
  destruct (Z.lt_total a3 b3) as [?|[?|?]]; [lia| |lia].
  right; left; subst; reflexivity.
Qed.

Definition not_nan (x : float) : Prop := (x =? x) = true.

Lemma not_nan_key x : not_nan x <-> exists a, SFkey (Prim2SF x) = Some a.
Proof.
  unfold not_nan. rewrite eqb_spec. unfold SFeqb. rewrite SFcompare_key.
  destruct (SFkey (Prim2SF x)) as [a|].
  - assert (E : lex3 a a = Eq) by (apply lex3_Eq; reflexivity).
    rewrite E. split; eauto.
  - split; [discriminate|]. intros [a H]. discriminate.
Qed.

Lemma ltb_trans x y z : (x <? y) = true -> (y <? z) = true -> (x <? z) = true.
Proof.
  rewrite !ltb_key.
  intros (a & b & Ha & Hb & Hab) (b' & c & Hb' & Hc & Hbc).
  rewrite Hb in Hb'. inversion Hb'; subst b'.
  exists a, c. repeat split; trivial. eapply lex3_lt_trans; eauto.
Qed.

Lemma leb_ltb_trans x y z :
  (x <=? y) = true -> (y <? z) = true -> (x <? z) = true.
Proof.
  rewrite leb_key, !ltb_key.
  intros (a & b & Ha & Hb & Hab) (b' & c & Hb' & Hc & Hbc).
  rewrite Hb in Hb'. inversion Hb'; subst b'.
  exists a, c. repeat split; trivial.
  destruct Hab as [Hab|Hab]; [eapply lex3_lt_trans; eauto | subst; trivial].
Qed.

Lemma ltb_leb_trans x y z :
  (x <? y) = true -> (y <=? z) = true -> (x <? z) = true.
Proof.
  rewrite leb_key, !ltb_key.
  intros (a & b & Ha & Hb & Hab) (b' & c & Hb' & Hc & Hbc).
  rewrite Hb in Hb'. inversion Hb'; subst b'.
  exists a, c. repeat split; trivial.
  destruct Hbc as [Hbc|Hbc]; [eapply lex3_lt_trans; eauto | subst; trivial].
Qed.

Lemma leb_trans x y z :
  (x <=? y) = true -> (y <=? z) = true -> (x <=? z) = true.
Proof.
  rewrite !leb_key.
  intros (a & b & Ha & Hb & Hab) (b' & c & Hb' & Hc & Hbc).
  rewrite Hb in Hb'. inversion Hb'; subst b'.
  exists a, c. repeat split; trivial.
  destruct Hab as [Hab|Hab], Hbc as [Hbc|Hbc]; subst;
    try (left; trivial; eapply lex3_lt_trans; eauto; fail).
  right; reflexivity.
Qed.

Lemma ltb_leb x y : (x <? y) = true -> (x <=? y) = true.
Proof.
  rewrite ltb_key, leb_key. intros (a & b & Ha & Hb & H).
  exists a, b. repeat split; trivial. left; trivial.
Qed.

Lemma ltb_irrefl x : (x <? x) = false.
Proof.
  destruct (x <? x) eqn:E; trivial. apply ltb_key in E.
  destruct E as (a & b & Ha & Hb & H). rewrite Ha in Hb. inversion Hb; subst.
  destruct (lex3_lt_irrefl _ H).
Qed.

(** A strict comparison excludes the converse one. *)
Lemma ltb_not_leb x y : (x <? y) = true -> (y <=? x) = false.
Proof.
  intros H. destruct (y <=? x) eqn:E; trivial.
  pose proof (leb_ltb_trans _ _ _ E H) as F. rewrite ltb_irrefl in F.
  discriminate.
Qed.

(** Numbers other than NaN are totally ordered. *)
Lemma not_ltb_leb x y :
  not_nan x -> not_nan y -> (x <? y) = false -> (y <=? x) = true.
Proof.
  intros Hx Hy H. apply not_nan_key in Hx, Hy.
  destruct Hx as [a Ha], Hy as [b Hb].
  apply leb_key. exists b, a. repeat split; trivial.
  destruct (lex3_total a b) as [L|[L|L]].
  - assert (F : (x <? y) = true) by (apply ltb_key; eauto 6). congruence.
  - right; congruence.
  - left; trivial.
Qed.

Lemma ltb_not_nan_l x y : (x <? y) = true -> not_nan x.
Proof.
  rewrite ltb_key. intros (a & b & Ha & _). apply not_nan_key; eauto.
Qed.

Lemma ltb_not_nan_r x y : (x <? y) = true -> not_nan y.
Proof.
  rewrite ltb_key. intros (a & b & _ & Hb & _). apply not_nan_key; eauto.
Qed.

Lemma leb_not_nan_l x y : (x <=? y) = true -> not_nan x.
Proof.
  rewrite leb_key. intros (a & b & Ha & _). apply not_nan_key; eauto.
Qed.



Lemma ltb_asym x y : (x <? y) = true -> (y <? x) = false.
Proof.
  intros H. destruct (y <? x) eqn:E; trivial.
  pose proof (ltb_trans _ _ _ H E) as F. rewrite ltb_irrefl in F.
  discriminate.
Qed.

(** ** [detectPitch]: the walk to the first drop *)

Section FirstDrop.

Variable corr : list float.

(** With enough fuel the loop stops by its own condition: it starts at [i],
    moves only forward over pairs that do not drop, and ends at the last
    index or just before the first drop. *)
Lemma first_drop_loop_exit fuel i :
  (length corr <= fuel + i)%nat ->
  let r := first_drop_loop fuel corr i in
  (i <= r)%nat
  /\ (r = i \/ r < length corr)%nat
  /\ (forall j, (i <= j < r)%nat -> (get corr j <=? get corr (j + 1)) = true)
  /\ ((r + 1 < length corr)%nat -> (get corr r <=? get corr (r + 1)) = false).
Proof.
  revert i. induction fuel as [|fuel IH]; intros i Hf; cbn [first_drop_loop].
  - repeat split; intros; lia.
  - destruct (Nat.ltb_spec (i + 1) (length corr)) as [Hlt|Hge]; cbn [andb].
    + destruct (get corr i <=? get corr (i + 1)) eqn:E.
      * specialize (IH (i + 1)%nat ltac:(lia)). cbv zeta in IH.
        destruct IH as (H1 & H2 & H3 & H4).
        split; [lia|]. split; [lia|]. split; [|exact H4].
        intros j Hj. destruct (Nat.eq_dec j i) as [->|Hne]; trivial.
        apply H3. lia.
      * split; [lia|]. split; [lia|]. split; [intros; lia|]. intros _. exact E.
    + repeat split; intros; lia.
Qed.

Lemma firstDropIndex_spec :
  let d := firstDropIndex_of corr in
  (d <= length corr - 1)%nat
  /\ (forall j, (j < d)%nat -> (get corr j <=? get corr (j + 1)) = true)
  /\ ((d + 1 < length corr)%nat -> (get corr d <=? get corr (d + 1)) = false).
Proof.
  pose proof (first_drop_loop_exit (length corr) 0 ltac:(lia)) as H.
  cbv zeta in *. fold (firstDropIndex_of corr) in H.
  destruct H as (H1 & H2 & H3 & H4).
  repeat split; trivial; [lia|]. intros j Hj. apply H3. lia.
Qed.

(** More iterations than the length change nothing. *)
Lemma first_drop_loop_fuel fuel i :
  (length corr <= fuel + i)%nat ->
  first_drop_loop (S fuel) corr i = first_drop_loop fuel corr i.
Proof.
  revert i. induction fuel as [|fuel IH]; intros i Hf.
  - cbn [first_drop_loop].
    destruct (Nat.ltb_spec (i + 1) (length corr)); [lia|reflexivity].
  - cbn [first_drop_loop].
    destruct ((i + 1 <? length corr)%nat && (get corr i <=? get corr (i + 1)));
      trivial.
    rewrite <- (IH (i + 1)%nat) by lia. reflexivity.
Qed.

End FirstDrop.

(** ** [detectPitch]: the peak search *)

Section PeakScan.

Variable corr : list float.

Definition scan (p : nat) (l : list nat) : nat := fold_left (peak_step corr) l p.

(** The scan of the lags [a, a + n) from a leader [p]: the result is [p] or
    a scanned lag, it is strictly better than [p] when it differs from it, and
    no scanned lag is strictly better than the result. *)
Lemma scan_spec n : forall a p,
  let r := scan p (seq a n) in
  (r = p \/ a <= r < a + n)%nat
  /\ (r <> p -> (get corr p <? get corr r) = true)
  /\ (forall i, (a <= i < a + n)%nat -> (get corr r <? get corr i) = false).
Proof.
  induction n as [|n IH]; intros a p; cbn [seq scan fold_left].
  - repeat split; intros; try tauto; try congruence; lia.
  - fold (scan (peak_step corr p a) (seq (S a) n)).
    specialize (IH (S a) (peak_step corr p a)). cbv zeta in IH.
    set (r := scan (peak_step corr p a) (seq (S a) n)) in *.
    destruct IH as (H1 & H2 & H3).
    unfold peak_step in *.
    destruct (get corr p <? get corr a) eqn:E.
    + (* the leader moves to [a] *)
      assert (Hpr : r <> p -> (get corr p <? get corr r) = true).
      { intros Hne. destruct (Nat.eq_dec r a) as [->|Hra]; trivial.
        eapply ltb_trans; eauto. }
      repeat split; trivial.
      * destruct H1 as [->|H1]; [right; lia|right; lia].
      * intros i Hi. destruct (Nat.eq_dec i a) as [->|Hia].
        -- destruct (Nat.eq_dec r a) as [->|Hra]; [apply ltb_irrefl|].
           apply ltb_asym. auto.
        -- apply H3. lia.
    + (* the leader stays *)
      repeat split; trivial.
      * destruct H1 as [->|H1]; [left; trivial|right; lia].
      * intros i Hi. destruct (Nat.eq_dec i a) as [->|Hia].
        -- destruct (Nat.eq_dec r p) as [->|Hrp]; trivial.
           destruct (get corr r <? get corr a) eqn:F; trivial.
           pose proof (ltb_trans _ _ _ (H2 Hrp) F). congruence.
        -- apply H3. lia.
Qed.

(** Among numbers, the result is the first of the best lags: every scanned
    lag before it is strictly worse. *)
Lemma scan_first n : forall a p,
  (p <= a)%nat ->
  (forall i, (p <= i < a + n)%nat -> not_nan (get corr i)) ->
  let r := scan p (seq a n) in
  (forall i, (a <= i < r)%nat -> (get corr i <? get corr r) = true).
Proof.
  induction n as [|n IH]; intros a p Hpa Hnn; cbn [seq scan fold_left].
  - intros i Hi. pose proof (scan_spec 0 a p) as (H1 & _). cbn in H1. lia.
  - fold (scan (peak_step corr p a) (seq (S a) n)).
    pose proof (scan_spec n (S a) (peak_step corr p a)) as (H1 & H2 & H3).
    assert (Hle : (peak_step corr p a <= S a)%nat).
    { unfold peak_step. destruct (get corr p <? get corr a); lia. }
    assert (Hge : (p <= peak_step corr p a)%nat).
    { unfold peak_step. destruct (get corr p <? get corr a); lia. }
    specialize (IH (S a) (peak_step corr p a) Hle
                  ltac:(intros i Hi; apply Hnn; lia)).
    cbv zeta in IH.
    set (r := scan (peak_step corr p a) (seq (S a) n)) in *.
    intros i Hi. destruct (Nat.eq_dec i a) as [->|Hia]; [|apply IH; lia].
    assert (Hne : r <> peak_step corr p a).
    { unfold peak_step in *. destruct (get corr p <? get corr a); lia. }
    specialize (H2 Hne). unfold peak_step in H2.
    destruct (get corr p <? get corr a) eqn:E; trivial.
    eapply leb_ltb_trans; [|exact H2].
    apply not_ltb_leb; trivial; apply Hnn; lia.
Qed.

(** The selected lag: it starts one past the first drop and is never
    smaller; it moves only to a lag below the last one. *)
Lemma peakIndex_spec :
  let d := firstDropIndex_of corr in
  let p := peakIndex_of corr in
  (d + 1 <= p)%nat
  /\ (p = d + 1 \/ p < length corr - 1)%nat
  /\ (forall i, (d + 1 <= i < length corr - 1)%nat ->
        (get corr p <? get corr i) = false).
Proof.
  cbv zeta. unfold peakIndex_of.
  set (d := firstDropIndex_of corr).
  pose proof (scan_spec (length corr - 1 - (d + 1)) (d + 1) (d + 1))
    as (H1 & H2 & H3).
  unfold scan in *.
  set (p := fold_left _ _ _) in *.
  repeat split.
  - lia.
  - lia.
  - intros i Hi. apply H3. lia.
Qed.

Lemma peakIndex_first :
  Forall not_nan corr ->
  let d := firstDropIndex_of corr in
  let p := peakIndex_of corr in
  (forall i, (d + 1 <= i < p)%nat -> (get corr i <? get corr p) = true).
Proof.
  intros Hnn. cbv zeta. unfold peakIndex_of.
  set (d := firstDropIndex_of corr).
  pose proof (scan_spec (length corr - 1 - (d + 1)) (d + 1) (d + 1))
    as (H1 & _).
  pose proof (scan_first (length corr - 1 - (d + 1)) (d + 1) (d + 1)
                ltac:(lia)) as H.
  unfold scan in *.
  set (p := fold_left _ _ _) in *.
  intros i Hi. apply H; [|lia].
  intros j Hj. unfold get. rewrite Forall_forall in Hnn.
  apply Hnn. apply nth_In. lia.
Qed.

(** The selected lag is at least 1 and at most the number of lags (or 1
    when there is none). *)
Lemma peakIndex_bounds :
  (1 <= peakIndex_of corr <= Nat.max 1 (length corr))%nat.
Proof.
  pose proof peakIndex_spec as (H1 & H2 & _).
  pose proof (firstDropIndex_spec corr) as (H3 & _).
  cbv zeta in *. lia.
Qed.

End PeakScan.

Lemma correlations_length b : length (correlations b) = maxLag b.
Proof. unfold correlations. rewrite length_map, length_seq. reflexivity. Qed.

Lemma correlations_nth b lag :
  (lag < maxLag b)%nat ->
  get (correlations b) lag = correlation_at (channelData b) lag.
Proof.
  intros H. unfold get, correlations.
  rewrite (nth_indep _ nan (correlation_at (channelData b) 0))
    by (rewrite length_map, length_seq; trivial).
  rewrite map_nth. rewrite seq_nth by trivial. reflexivity.
Qed.

(** When the window and the lag stay inside the buffer the guard of the
    inner loop never fires. *)
Lemma correlation_at_unguarded data lag :
  (length data / 3 + lag <= length data)%nat ->
  correlation_at data lag =
  fold_left (fun correlation i => correlation + get data i * get data (i + lag))
    (seq 0 (length data / 3)) 0.
Proof.
  intros H. unfold correlation_at.
  assert (G : forall l acc,
    (forall i, In i l -> i + lag < length data)%nat ->
    fold_left
      (fun correlation i =>
         if (i + lag <? length data)%nat
         then correlation + get data i * get data (i + lag)
         else correlation) l acc =
    fold_left
      (fun correlation i => correlation + get data i * get data (i + lag))
      l acc).
  { induction l as [|x l IH]; intros acc Hl; cbn [fold_left]; trivial.
    destruct (Nat.ltb_spec (x + lag) (length data)) as [_|Hge].
    - apply IH. intros i Hi. apply Hl. right; trivial.
    - specialize (Hl x (or_introl eq_refl)). lia. }
  apply G. intros i Hi. apply in_seq in Hi. lia.
Qed.

(** ** [estimateTempo]: the energy profile *)

(** The number of windows of [step] samples needed to cover [n] samples:
    [ceil (n / step)]. *)
Definition ceil_div (n step : nat) : nat := ((n + step - 1) / step)%nat.

Lemma ceil_div_succ n step :
  (1 <= step)%nat -> (1 <= n)%nat ->
  ceil_div n step = S (ceil_div (n - step) step).
Proof.
  intros Hs Hn. unfold ceil_div.
  destruct (Nat.le_gt_cases step n) as [Hle|Hlt].
  - replace (n + step - 1)%nat with ((n - step + step - 1) + 1 * step)%nat by lia.
    rewrite Nat.div_add by lia. lia.
  - replace (n - step)%nat with 0%nat by lia.
    rewrite (Nat.div_small (0 + step - 1)) by lia.
    symmetry. apply (Nat.div_unique _ _ 1 (n - 1)); lia.
Qed.

Lemma ceil_div_0 step : (1 <= step)%nat -> ceil_div 0 step = 0%nat.
Proof. intros H. unfold ceil_div. apply Nat.div_small. lia. Qed.

(** The [k]-th window of the profile. *)
Definition window_at (data : list float) (step k : nat) : float :=
  window_rms data (k * step) (Nat.min (k * step + step) (length data)).

Lemma energy_loop_spec data step (Hs : (1 <= step)%nat) :
  forall fuel k acc,
    (length data <= fuel + k * step)%nat ->
    energy_loop fuel data step (k * step) acc =
    Some (acc ++ map (window_at data step)
                   (seq k (ceil_div (length data - k * step) step))).
Proof.
  induction fuel as [|fuel IH]; intros k acc Hf; cbn [energy_loop].
  - destruct (Nat.ltb_spec (k * step) (length data)) as [Hlt|Hge]; [lia|].
    replace (length data - k * step)%nat with 0%nat by lia.
    rewrite ceil_div_0 by trivial. cbn. rewrite app_nil_r. reflexivity.
  - destruct (Nat.ltb_spec (k * step) (length data)) as [Hlt|Hge].
    + replace (k * step + step)%nat with (S k * step)%nat by lia.
      rewrite IH by lia.
      rewrite (ceil_div_succ (length data - k * step)) by lia.
      cbn [seq map]. rewrite <- app_assoc. cbn [app].
      unfold window_at at 2.
      replace (k * step + step)%nat with (S k * step)%nat by lia.
      replace (length data - k * step - step)%nat
        with (length data - S k * step)%nat by lia.
      reflexivity.
    + replace (length data - k * step)%nat with 0%nat by lia.
      rewrite ceil_div_0 by trivial. cbn. rewrite app_nil_r. reflexivity.
Qed.

(** With a window of at least one sample the loop terminates, with one
    entry per window. *)
Lemma energyProfile_of_windows b :
  let step := count (windowSize (sampleRate b)) in
  (1 <= step)%nat ->
  energyProfile_of b =
  Some (map (window_at (channelData b) step)
          (seq 0 (ceil_div (bufferLength b) step))).
Proof.
  intros step Hs. unfold energyProfile_of. fold step.
  change 0%nat with (0 * step)%nat at 1.
  rewrite energy_loop_spec by (trivial; lia).
  unfold bufferLength. cbn [app]. rewrite Nat.sub_0_r. reflexivity.
Qed.

(** With a window of no sample the loop never advances: a non-empty buffer
    exhausts any fuel. *)
Lemma energy_loop_stuck data fuel i acc :
  (i < length data)%nat -> energy_loop fuel data 0 i acc = None.
Proof.
  revert acc. induction fuel as [|fuel IH]; intros acc Hi; cbn [energy_loop];
    destruct (Nat.ltb_spec i (length data)); try lia; trivial.
  rewrite Nat.add_0_r. apply IH. trivial.
Qed.

(** ** [estimateTempo]: onsets and intervals *)

Lemma onsets_of_In p i :
  In i (onsets_of p) <->
  (1 <= i <= length p - 2)%nat
  /\ (calculateDynamicThreshold p <? get p i) = true
  /\ (get p (i - 1) <? get p i) = true
  /\ (get p (i + 1) <=? get p i) = true.
Proof.
  unfold onsets_of. rewrite filter_In, in_seq. unfold is_onset.
  rewrite !andb_true_iff. split.
  - intros (H & (H1 & H2) & H3). repeat split; trivial; lia.
  - intros (H & H1 & H2 & H3). repeat split; trivial; lia.
Qed.

Lemma filter_seq_sorted (f : nat -> bool) n : forall a,
  StronglySorted lt (filter f (seq a n)).
Proof.
  induction n as [|n IH]; intros a; cbn [seq filter]; [constructor|].
  destruct (f a); [|apply IH]. constructor; [apply IH|].
  apply Forall_forall. intros x Hx. apply filter_In in Hx.
  destruct Hx as [Hx _]. apply in_seq in Hx. lia.
Qed.

Lemma onsets_of_sorted p : StronglySorted lt (onsets_of p).
Proof. apply filter_seq_sorted. Qed.

Lemma onsets_of_NoDup p : NoDup (onsets_of p).
Proof. apply NoDup_filter, seq_NoDup. Qed.

Lemma sorted_nth_lt (l : list nat) :
  StronglySorted lt l ->
  forall i j, (i < j < length l)%nat -> (nth i l O < nth j l O)%nat.
Proof.
  induction 1 as [|a l Hs IH Ha]; intros i j Hij; cbn [length] in *; [lia|].
  destruct j as [|j]; [lia|]. destruct i as [|i]; cbn [nth].
  - rewrite Forall_forall in Ha. apply Ha. apply nth_In. lia.
  - apply IH. lia.
Qed.

Lemma intervals_of_In onsets d :
  In d (intervals_of onsets) <->
  exists i, (1 <= i < length onsets)%nat
            /\ d = (Z.of_nat (nth i onsets O) - Z.of_nat (nth (i - 1) onsets O))%Z.
Proof.
  unfold intervals_of. rewrite in_map_iff. split.
  - intros (i & <- & Hi). apply in_seq in Hi. exists i. split; [lia|trivial].
  - intros (i & Hi & ->). exists i. split; trivial. apply in_seq. lia.
Qed.

Lemma intervals_of_length onsets :
  length (intervals_of onsets) = (length onsets - 1)%nat.
Proof. unfold intervals_of. rewrite length_map, length_seq. reflexivity. Qed.

(** ** [estimateTempo]: the histogram *)

(** [histogramBins[key] || 0] *)
Fixpoint lookup (key : Z) (h : bins) : nat :=
  match h with
  | [] => O
  | (k, c) :: rest => if (key =? k)%Z then c else lookup key rest
  end.

Definition keys (h : bins) : list Z := map fst h.

Lemma bump_keys_in key h x : In x (keys (bump key h)) <-> x = key \/ In x (keys h).
Proof.
  induction h as [|[k c] h IH]; cbn [bump keys map In fst] in *.
  - intuition congruence.
  - destruct (Z.ltb_spec key k); cbn [map In fst].
    + intuition congruence.
    + destruct (Z.eqb_spec key k); cbn [map In fst].
      * subst. intuition congruence.
      * fold (keys (bump key h)). rewrite IH. intuition congruence.
Qed.

Lemma bump_sorted key h :
  StronglySorted Z.lt (keys h) -> StronglySorted Z.lt (keys (bump key h)).
Proof.
  induction h as [|[k c] h IH]; intros Hs; cbn [bump keys map fst] in *.
  - repeat constructor.
  - inversion Hs as [|? ? Hs' Hall]; subst.
    destruct (Z.ltb_spec key k); cbn [map fst].
    + constructor; trivial. constructor; trivial.
      rewrite Forall_forall in *. intros x Hx. specialize (Hall x Hx). lia.
    + destruct (Z.eqb_spec key k); cbn [map fst].
      * constructor; trivial.
      * constructor; [apply IH; trivial|].
        rewrite Forall_forall in *. intros x Hx.
        apply bump_keys_in in Hx. destruct Hx as [->|Hx]; [lia|auto].
Qed.

Lemma lookup_absent key h :
  Forall (fun k => key < k)%Z (keys h) -> lookup key h = O.
Proof.
  induction h as [|[k c] h IH]; intros Hall; cbn [lookup]; trivial.
  inversion Hall; subst. cbn [fst] in *.
  destruct (Z.eqb_spec key k); [lia|]. apply IH. trivial.
Qed.

Lemma lookup_bump_same key h :
  StronglySorted Z.lt (keys h) -> lookup key (bump key h) = S (lookup key h).
Proof.
  induction h as [|[k c] h IH]; intros Hs; cbn [bump lookup].
  - rewrite Z.eqb_refl. reflexivity.
  - inversion Hs as [|? ? Hs' Hall]; subst. cbn [fst] in *.
    destruct (Z.ltb_spec key k); cbn [lookup].
    + rewrite Z.eqb_refl. destruct (Z.eqb_spec key k); [lia|].
      rewrite lookup_absent; trivial.
      rewrite Forall_forall in *. intros x Hx. specialize (Hall x Hx). lia.
    + destruct (Z.eqb_spec key k) as [->|Hne]; cbn [lookup].
      * rewrite Z.eqb_refl. reflexivity.
      * destruct (Z.eqb_spec key k); [lia|]. apply IH. trivial.
Qed.

Lemma lookup_bump_other key key' h :
  key' <> key -> lookup key' (bump key h) = lookup key' h.
Proof.
  intros Hne. induction h as [|[k c] h IH]; cbn [bump lookup].
  - destruct (Z.eqb_spec key' key); [lia|reflexivity].
  - destruct (Z.ltb_spec key k); cbn [lookup].
    + destruct (Z.eqb_spec key' key); [lia|reflexivity].
    + destruct (Z.eqb_spec key k) as [->|Hk]; cbn [lookup].
      * destruct (Z.eqb_spec key' k); [lia|reflexivity].
      * rewrite IH. reflexivity.
Qed.

Lemma bump_counts_pos key h :
  Forall (fun e => 1 <= snd e)%nat h ->
  Forall (fun e => 1 <= snd e)%nat (bump key h).
Proof.
  induction h as [|[k c] h IH]; intros Hall; cbn [bump].
  - repeat constructor.
  - inversion Hall; subst. cbn [snd] in *.
    destruct (Z.ltb_spec key k).
    + constructor; cbn [snd]; trivial; lia.
    + destruct (Z.eqb_spec key k).
      * constructor; cbn [snd]; trivial; lia.
      * constructor; auto.
Qed.

Definition fill (keys : list Z) (h : bins) : bins :=
  fold_left (fun h key => bump key h) keys h.

Lemma histogramBins_of_fill intervals :
  histogramBins_of intervals = fill (map normalizedInterval intervals) [].
Proof.
  unfold histogramBins_of, fill. generalize (@nil (Z * nat)).
  induction intervals as [|x l IH]; intros h; cbn; trivial.
Qed.

Lemma fill_spec ks : forall h,
  StronglySorted Z.lt (keys h) ->
  Forall (fun e => 1 <= snd e)%nat h ->
  let h' := fill ks h in
  StronglySorted Z.lt (keys h')
  /\ Forall (fun e => 1 <= snd e)%nat h'
  /\ (forall key, lookup key h' = (count_occ Z.eq_dec ks key + lookup key h)%nat)
  /\ (forall key, In key (keys h') <-> In key ks \/ In key (keys h)).
Proof.
  induction ks as [|k ks IH]; intros h Hs Hp; cbn [fill fold_left].
  - repeat split; trivial; cbn; tauto.
  - fold (fill ks (bump k h)).
    destruct (IH (bump k h) (bump_sorted _ _ Hs) (bump_counts_pos _ _ Hp))
      as (H1 & H2 & H3 & H4).
    repeat split; trivial.
    + intros key. rewrite H3. cbn [count_occ].
      destruct (Z.eq_dec k key) as [->|Hne].
      * rewrite lookup_bump_same by trivial. lia.
      * rewrite lookup_bump_other by congruence. reflexivity.
    + rewrite H4, bump_keys_in. cbn [In]. intuition congruence.
    + rewrite H4, bump_keys_in. cbn [In]. intuition congruence.
Qed.

(** ** [estimateTempo]: the most common interval *)

Lemma leader_spec h : forall st,
  let r := fold_left leader_step h st in
  (r = st /\ Forall (fun e => snd e <= snd st)%nat h)
  \/ (exists pre post,
        h = pre ++ r :: post
        /\ (snd st < snd r)%nat
        /\ Forall (fun e => snd e < snd r)%nat pre
        /\ Forall (fun e => snd e <= snd r)%nat post).
Proof.
  induction h as [|e h IH]; intros st; cbn [fold_left].
  - left. split; trivial.
  - specialize (IH (leader_step st e)). cbv zeta in IH.
    set (r := fold_left leader_step h (leader_step st e)) in *.
    unfold leader_step in IH. destruct e as [k c].
    destruct (Nat.ltb_spec (snd st) c) as [Hlt|Hge]; cbn [snd] in IH.
    + destruct IH as [[Hr Hall]|(pre & post & Hh & Hsr & Hpre & Hpost)].
      * right. exists [], h. rewrite Hr. cbn [app snd]. repeat split; trivial.
      * right. exists ((k, c) :: pre), post. rewrite Hh.
        repeat split; trivial; [lia|]. constructor; trivial.
    + destruct IH as [[Hr Hall]|(pre & post & Hh & Hsr & Hpre & Hpost)].
      * left. split; trivial. constructor; trivial.
      * right. exists ((k, c) :: pre), post. rewrite Hh.
        repeat split; trivial. constructor; trivial. cbn [snd]. lia.
Qed.

(** The winner over a histogram whose counts are positive. *)
Lemma mostCommon_spec h :
  Forall (fun e => 1 <= snd e)%nat h ->
  (h = [] /\ mostCommon h = (0%Z, O))
  \/ (exists pre post,
        h = pre ++ mostCommon h :: post
        /\ Forall (fun e => snd e < snd (mostCommon h))%nat pre
        /\ Forall (fun e => snd e <= snd (mostCommon h))%nat post).
Proof.
  intros Hp. unfold mostCommon.
  destruct (leader_spec h (0%Z, O)) as [[Hr Hall]|(pre & post & Hh & _ & H)].
  - left. split; trivial. destruct h as [|e h]; trivial.
    inversion Hp; inversion Hall; subst. cbn [snd] in *. lia.
  - right. exists pre, post. tauto.
Qed.

(** ** Special values *)

(** A number is rebuilt from its specification. *)
Lemma mul_SF x y : x * y = SF2Prim (SF64mul (Prim2SF x) (Prim2SF y)).
Proof. rewrite <- mul_spec. symmetry. apply SF2Prim_Prim2SF. Qed.

Lemma div_SF x y : x / y = SF2Prim (SF64div (Prim2SF x) (Prim2SF y)).
Proof. rewrite <- div_spec. symmetry. apply SF2Prim_Prim2SF. Qed.

Lemma add_SF x y : x + y = SF2Prim (SF64add (Prim2SF x) (Prim2SF y)).
Proof. rewrite <- add_spec. symmetry. apply SF2Prim_Prim2SF. Qed.

Lemma sqrt_SF x : PrimFloat.sqrt x = SF2Prim (SF64sqrt (Prim2SF x)).
Proof. rewrite <- sqrt_spec. symmetry. apply SF2Prim_Prim2SF. Qed.

(** Zero of either sign, or NaN: what arithmetic on zero can produce. *)
Definition zero_or_nan (x : float) : Prop := x = 0 \/ x = -0 \/ x = nan.

Definition is_zero (x : float) : Prop := x = 0 \/ x = -0.

Lemma zero_mul x : zero_or_nan (0 * x).
Proof.
  rewrite mul_SF. change (Prim2SF 0) with (S754_zero false).
  unfold zero_or_nan.
  destruct (Prim2SF x) as [s|s| |s m e]; try destruct s; cbn; auto.
Qed.

Lemma zero_div x y : is_zero x -> zero_or_nan (x / y).
Proof.
  intros [->| ->]; rewrite div_SF; unfold zero_or_nan.
  - change (Prim2SF 0) with (S754_zero false).
    destruct (Prim2SF y) as [s|s| |s m e]; try destruct s; cbn; auto.
  - change (Prim2SF (-0)) with (S754_zero true).
    destruct (Prim2SF y) as [s|s| |s m e]; try destruct s; cbn; auto.
Qed.

Lemma zero_or_nan_sqrt x : zero_or_nan x -> zero_or_nan (PrimFloat.sqrt x).
Proof. intros [->|[->| ->]]; unfold zero_or_nan; vm_compute; auto. Qed.

(** No two of these values compare as strictly smaller. *)
Lemma zero_or_nan_ltb x y : zero_or_nan x -> zero_or_nan y -> (x <? y) = false.
Proof. intros [->|[->| ->]] [->|[->| ->]]; reflexivity. Qed.

Lemma nan_ltb_r x : (x <? nan) = false.
Proof.
  rewrite ltb_spec. change (Prim2SF nan) with S754_nan.
  unfold SFltb. destruct (Prim2SF x) as [s|s| |s m e]; reflexivity.
Qed.

Lemma nan_ltb_l x : (nan <? x) = false.
Proof.
  rewrite ltb_spec. change (Prim2SF nan) with S754_nan. reflexivity.
Qed.

(** ** Fewer than two onsets *)

Lemma intervals_of_short onsets :
  (length onsets < 2)%nat -> intervals_of onsets = [].
Proof.
  intros H. unfold intervals_of.
  replace (length onsets - 1)%nat with 0%nat by lia. reflexivity.
Qed.

(** Without an interval the histogram is empty and [mostCommonInterval]
    keeps its initial value 0. *)
Lemma tempo_of_profile_short sr p :
  (length (onsets_of p) < 2)%nat ->
  tempo_of_profile sr p = adjust_bpm (raw_bpm sr 0).
Proof.
  intros H. unfold tempo_of_profile. rewrite intervals_of_short by trivial.
  reflexivity.
Qed.

(** Then [secondsPerBeat] is [0 * secondsPerWindow] and the division
    [60 / secondsPerBeat] is a division by zero (or by NaN). *)
Lemma adjust_raw_bpm_0 sr :
  let r := adjust_bpm (raw_bpm sr 0) in
  r = infinity \/ r = neg_infinity \/ r = nan.
Proof.
  unfold raw_bpm. change (Z2F 0) with 0.
  destruct (zero_mul (windowSize sr / Z2F sr)) as [->|[->| ->]];
    vm_compute; auto.
Qed.

Lemma adjust_raw_bpm_0_not_finite sr :
  is_finite (adjust_bpm (raw_bpm sr 0)) = false.
Proof.
  destruct (adjust_raw_bpm_0 sr) as [->|[->| ->]]; reflexivity.
Qed.

(** ** Silent buffers *)

Definition silent (data : list float) : Prop := Forall is_zero data.

Lemma silent_get data i : silent data -> (i < length data)%nat -> is_zero (get data i).
Proof.
  intros Hs Hi. unfold silent in Hs. rewrite Forall_forall in Hs.
  apply Hs. apply nth_In. trivial.
Qed.

Lemma zero_acc x y : is_zero x -> is_zero y -> 0 + x * y = 0.
Proof. intros [->| ->] [->| ->]; reflexivity. Qed.

Lemma silent_correlation_at data lag :
  silent data -> correlation_at data lag = 0.
Proof.
  intros Hs. unfold correlation_at.
  assert (G : forall l,
    fold_left
      (fun correlation i =>
         if (i + lag <? length data)%nat
         then correlation + get data i * get data (i + lag)
         else correlation) l 0 = 0).
  { induction l as [|x l IH]; cbn [fold_left]; trivial.
    destruct (Nat.ltb_spec (x + lag) (length data)) as [Hlt|Hge]; trivial.
    rewrite zero_acc; trivial; apply silent_get; trivial; lia. }
  apply G.
Qed.

Lemma silent_window_rms data i limit :
  silent data -> (limit <= length data)%nat ->
  zero_or_nan (window_rms data i limit).
Proof.
  intros Hs Hl. unfold window_rms.
  assert (G : forall n a, (a + n <= length data)%nat ->
    fold_left (fun sum j => sum + get data j * get data j) (seq a n) 0 = 0).
  { induction n as [|n IH]; intros a Ha; cbn [seq fold_left]; trivial.
    rewrite zero_acc by (apply silent_get; trivial; lia).
    apply IH. lia. }
  assert (E : fold_left (fun sum j => sum + get data j * get data j)
                (seq i (limit - i)) 0 = 0).
  { destruct (Nat.le_gt_cases limit i) as [Hle|Hgt].
    - replace (limit - i)%nat with 0%nat by lia. reflexivity.
    - apply G. lia. }
  rewrite E. apply zero_or_nan_sqrt, zero_div. left; reflexivity.
Qed.

(** A profile without a strict rise has no onset. *)
Lemma onsets_of_flat p :
  (forall i, (1 <= i)%nat -> (get p (i - 1) <? get p i) = false) ->
  onsets_of p = [].
Proof.
  intros H. unfold onsets_of.
  generalize (calculateDynamicThreshold p). intros t.
  assert (G : forall n a, (1 <= a)%nat -> filter (is_onset p t) (seq a n) = []).
  { induction n as [|n IH]; intros a Ha; cbn [seq filter]; trivial.
    unfold is_onset at 1. rewrite (H a Ha), andb_false_r. cbn [andb].
    apply IH. lia. }
  apply G. lia.
Qed.

Lemma zero_or_nan_get p i :
  Forall zero_or_nan p -> zero_or_nan (get p i).
Proof.
  intros H. unfold get. destruct (Nat.lt_ge_cases i (length p)) as [Hi|Hi].
  - rewrite Forall_forall in H. apply H, nth_In. trivial.
  - rewrite nth_overflow by trivial. right; right; reflexivity.
Qed.

Lemma silent_profile b p :
  silent (channelData b) -> energyProfile_of b = Some p ->
  Forall zero_or_nan p.
Proof.
  intros Hs. unfold energyProfile_of.
  set (data := channelData b) in *.
  assert (G : forall fuel i acc p,
    Forall zero_or_nan acc ->
    energy_loop fuel data (count (windowSize (sampleRate b))) i acc = Some p ->
    Forall zero_or_nan p).
  { induction fuel as [|fuel IH]; intros i acc q Hacc; cbn [energy_loop];
      destruct (Nat.ltb_spec i (length data)); try discriminate;
      try (intros E; inversion E; subst; trivial; fail).
    apply IH. apply Forall_app. split; trivial.
    constructor; [|constructor].
    apply silent_window_rms; trivial. apply Nat.le_min_r. }
  apply G. constructor.
Qed.

Lemma silent_onsets b p :
  silent (channelData b) -> energyProfile_of b = Some p -> onsets_of p = [].
Proof.
  intros Hs Hp. apply onsets_of_flat. intros i _.
  pose proof (silent_profile b p Hs Hp) as H.
  apply zero_or_nan_ltb; apply zero_or_nan_get; trivial.
Qed.

(** All correlations of a silent buffer are [+0]: the walk runs to the last
    lag and the peak search has nothing left to scan. *)
Lemma flat_peakIndex corr :
  (forall i, (i < length corr)%nat -> get corr i = 0) ->
  peakIndex_of corr = Nat.max 1 (length corr).
Proof.
  intros H.
  pose proof (peakIndex_spec corr) as (H1 & H2 & _).
  pose proof (firstDropIndex_spec corr) as (H3 & _ & H4).
  cbv zeta in *.
  set (d := firstDropIndex_of corr) in *.
  destruct (Nat.lt_ge_cases (d + 1) (length corr)) as [Hlt|Hge].
  - specialize (H4 Hlt). rewrite !H in H4 by lia. discriminate.
  - lia.
Qed.

Lemma silent_detectPitch b :
  silent (channelData b) ->
  detectPitch b = frequency_of (sampleRate b) (Nat.max 1 (maxLag b)).
Proof.
  intros Hs. unfold detectPitch. rewrite flat_peakIndex.
  - rewrite correlations_length. reflexivity.
  - intros i Hi. rewrite correlations_length in Hi.
    rewrite correlations_nth by trivial. apply silent_correlation_at. trivial.
Qed.


(** * Binary64 arithmetic on normal numbers *)

Section Rounding.

Local Open Scope Z_scope.

(** ** Rounding to binary64 *)

Lemma digits2_size p : digits2_pos p = Pos.size p.
Proof. induction p; cbn; congruence. Qed.

Lemma digits_bounds p :
  2 ^ (Zpos (digits2_pos p) - 1) <= Zpos p < 2 ^ Zpos (digits2_pos p).
Proof.
  rewrite digits2_size. split.
  - pose proof (Pos.size_le p) as H.
    apply Pos2Z.pos_le_pos in H. rewrite Pos2Z.inj_pow in H.
    change (Z.pos p~0) with (2 * Z.pos p) in H.
    assert (E : 2 ^ Zpos (Pos.size p) = 2 * 2 ^ (Zpos (Pos.size p) - 1)).
    { rewrite <- Z.pow_succ_r by lia. f_equal. lia. }
    lia.
  - pose proof (Pos.size_gt p) as H.
    apply Pos2Z.pos_lt_pos in H. rewrite Pos2Z.inj_pow in H. exact H.
Qed.

Lemma digits_unique p k :
  2 ^ (k - 1) <= Zpos p < 2 ^ k -> Zpos (digits2_pos p) = k.
Proof.
  intros [Hl Hu]. pose proof (digits_bounds p) as [Hl' Hu'].
  assert (0 < k).
  { destruct (Z.lt_trichotomy k 0) as [?|[?|?]]; trivial.
    - rewrite Z.pow_neg_r in Hu by trivial. lia.
    - subst. cbn in Hu. lia. }
  assert (Zpos (digits2_pos p) - 1 < k).
  { apply (Z.pow_lt_mono_r_iff 2); lia. }
  assert (k - 1 < Zpos (digits2_pos p)).
  { apply (Z.pow_lt_mono_r_iff 2); lia. }
  lia.
Qed.

Lemma shr_1_m r : 0 <= shr_m r -> shr_m (shr_1 r) = shr_m r / 2.
Proof.
  destruct r as [m r s]. cbn [shr_m]. intros H.
  rewrite <- Z.div2_div.
  destruct m as [|[p|p|]|p]; try reflexivity; lia.
Qed.

Lemma pow2_xO p : 2 ^ Zpos p~0 = 2 ^ Zpos p * 2 ^ Zpos p.
Proof.
  replace (Zpos p~0) with (Zpos p + Zpos p) by lia.
  apply Z.pow_add_r; lia.
Qed.

Lemma pow2_xI p : 2 ^ Zpos p~1 = 2 * (2 ^ Zpos p * 2 ^ Zpos p).
Proof.
  replace (Zpos p~1) with (1 + (Zpos p + Zpos p)) by lia.
  rewrite !Z.pow_add_r by lia. reflexivity.
Qed.

Lemma shr_iter_m p : forall r,
  0 <= shr_m r -> shr_m (iter_pos shr_1 p r) = shr_m r / 2 ^ Zpos p.
Proof.
  induction p as [p IH|p IH|]; intros r Hr; cbn [iter_pos].
  - assert (H1 : 0 <= shr_m (shr_1 r))
      by (rewrite shr_1_m by trivial; apply Z.div_pos; lia).
    assert (H2 : 0 <= shr_m (iter_pos shr_1 p (shr_1 r)))
      by (rewrite IH by trivial; apply Z.div_pos; lia).
    rewrite IH, IH, shr_1_m by trivial.
    rewrite !Z.div_div by lia. rewrite pow2_xI. f_equal. 
  - assert (H1 : 0 <= shr_m (iter_pos shr_1 p r))
      by (rewrite IH by trivial; apply Z.div_pos; lia).
    rewrite IH, IH by trivial.
    rewrite Z.div_div by lia. rewrite pow2_xO. reflexivity.
  - rewrite shr_1_m by trivial. reflexivity.
Qed.

Lemma shr_m_spec r e n :
  0 <= shr_m r -> 0 <= n ->
  shr_m (fst (shr r e n)) = shr_m r / 2 ^ n /\ snd (shr r e n) = e + n.
Proof.
  intros Hr Hn. destruct n as [|p|p]; cbn [shr fst snd]; try lia.
  - rewrite Z.div_1_r. lia.
  - rewrite shr_iter_m by trivial. lia.
Qed.

Lemma shr_record_of_loc_m m l : shr_m (shr_record_of_loc m l) = m.
Proof. destruct l as [|[]]; reflexivity. Qed.

Lemma round_nearest_even_bounds m l :
  m <= round_nearest_even m l <= m + 1.
Proof.
  destruct l as [|[]]; cbn; try lia. destruct (Z.even m); lia.
Qed.

Lemma shr_nonneg r e n : 0 <= shr_m r -> 0 <= shr_m (fst (shr r e n)).
Proof.
  intros H. destruct n as [|p|p]; cbn [shr fst]; trivial.
  rewrite shr_iter_m by trivial. apply Z.div_pos; lia.
Qed.

(** Rounding a non-negative mantissa never gives NaN and keeps the sign. *)
Lemma binary_round_aux_cases s m e l :
  0 <= m ->
  let r := binary_round_aux prec emax s m e l in
  r = S754_zero s \/ r = S754_infinity s \/ exists M E, r = S754_finite s M E.
Proof.
  intros Hm. cbv zeta. unfold binary_round_aux, shr_fexp.
  set (n1 := fexp prec emax (Zdigits2 m + e) - e).
  pose proof (shr_nonneg (shr_record_of_loc m l) e n1) as H1.
  rewrite shr_record_of_loc_m in H1. specialize (H1 Hm).
  destruct (shr (shr_record_of_loc m l) e n1) as [mrs' e'].
  cbn [fst] in H1.
  set (m2 := round_nearest_even (shr_m mrs') (loc_of_shr_record mrs')).
  assert (H2 : 0 <= m2).
  { pose proof (round_nearest_even_bounds (shr_m mrs') (loc_of_shr_record mrs')).
    unfold m2. lia. }
  set (n2 := fexp prec emax (Zdigits2 m2 + e') - e').
  pose proof (shr_nonneg (shr_record_of_loc m2 loc_Exact) e' n2) as H3.
  rewrite shr_record_of_loc_m in H3. specialize (H3 H2).
  destruct (shr (shr_record_of_loc m2 loc_Exact) e' n2) as [mrs'' e''].
  cbn [fst] in H3.
  destruct (shr_m mrs'') as [|M|M]; [auto| |lia].
  destruct (e'' <=? emax - prec); eauto.
Qed.

Lemma pow2_split a b : 0 <= a -> 0 <= b -> 2 ^ (a + b) = 2 ^ a * 2 ^ b.
Proof. intros. apply Z.pow_add_r; trivial. Qed.

(** Rounding a mantissa of at least 53 bits, away from underflow and
    overflow: the result is a normal number whose mantissa is the truncated
    one or its successor. *)
Lemma binary_round_aux_normal s m e l :
  let d := Zpos (digits2_pos m) in
  53 <= d -> -1074 <= d + e - 53 -> d + e <= 1023 ->
  let m1 := Zpos m / 2 ^ (d - 53) in
  exists M E,
    binary_round_aux prec emax s (Zpos m) e l = S754_finite s M E
    /\ Zpos (digits2_pos M) = 53
    /\ ((E = e + (d - 53) /\ m1 <= Zpos M <= m1 + 1)
        \/ (E = e + (d - 53) + 1 /\ Zpos M = 2 ^ 52 /\ m1 = 2 ^ 53 - 1)).
Proof.
  intros d Hd Hlo Hhi m1.
  pose proof (digits_bounds m) as [Hl Hu]. fold d in Hl, Hu.
  assert (Hm1 : 2 ^ 52 <= m1 < 2 ^ 53).
  { unfold m1. split.
    - apply Z.div_le_lower_bound; [lia|].
      rewrite <- pow2_split by lia. replace (d - 53 + 52) with (d - 1) by lia.
      trivial.
    - apply Z.div_lt_upper_bound; [lia|].
      rewrite <- pow2_split by lia. replace (d - 53 + 53) with d by lia.
      trivial. }
  unfold binary_round_aux, shr_fexp. cbn [Zdigits2]. fold d.
  replace (fexp prec emax (d + e) - e) with (d - 53)
    by (unfold fexp, SpecFloat.emin, prec, emax; lia).
  pose proof (shr_m_spec (shr_record_of_loc (Zpos m) l) e (d - 53)) as H1.
  rewrite shr_record_of_loc_m in H1.
  specialize (H1 ltac:(lia) ltac:(lia)).
  destruct (shr (shr_record_of_loc (Zpos m) l) e (d - 53)) as [mrs' e'].
  cbn [fst snd] in H1. destruct H1 as [H1 He']. fold m1 in H1.
  pose proof (round_nearest_even_bounds (shr_m mrs') (loc_of_shr_record mrs'))
    as Hr.
  set (m2 := round_nearest_even (shr_m mrs') (loc_of_shr_record mrs')) in *.
  rewrite H1 in Hr. clearbody m2 m1 d.
  destruct (Z.eq_dec m2 (2 ^ 53)) as [E2|N2].
  - rewrite E2.
    replace (fexp prec emax (Zdigits2 (2 ^ 53) + e') - e') with 1
      by (change (Zdigits2 (2 ^ 53)) with 54;
          unfold fexp, SpecFloat.emin, prec, emax; lia).
    cbn -[Z.leb emax prec].
    assert (E : (e' + 1 <=? emax - prec) = true)
      by (apply Z.leb_le; unfold emax, prec; lia).
    rewrite E. exists 4503599627370496%positive, (e' + 1).
    split; [reflexivity|]. split; [reflexivity|].
    right. split; [lia|]. split; [reflexivity|lia].
  - destruct m2 as [|M|M] eqn:EM; try lia.
    assert (HM : Zpos (digits2_pos M) = 53).
    { apply digits_unique. change (53 - 1) with 52. lia. }
    cbn [Zdigits2]. rewrite HM.
    replace (fexp prec emax (53 + e') - e') with 0
      by (unfold fexp, SpecFloat.emin, prec, emax; lia).
    cbn -[Z.leb emax prec].
    assert (E : (e' <=? emax - prec) = true)
      by (apply Z.leb_le; unfold emax, prec; lia).
    rewrite E. exists M, e'.
    split; [reflexivity|]. split; [trivial|].
    left. split; lia.
Qed.

(** Shifting out zero bits is exact. *)
Lemma shr_1_exact m :
  0 <= m -> (2 | m) ->
  shr_1 (Build_shr_record m false false) = Build_shr_record (m / 2) false false.
Proof.
  intros Hm [k Hk]. rewrite <- Z.div2_div.
  destruct m as [|[p|p|]|p]; try reflexivity; lia.
Qed.

Lemma shr_iter_exact p : forall m,
  0 <= m -> (2 ^ Zpos p | m) ->
  iter_pos shr_1 p (Build_shr_record m false false)
  = Build_shr_record (m / 2 ^ Zpos p) false false.
Proof.
  induction p as [p IH|p IH|]; intros m Hm [k Hk]; cbn [iter_pos].
  - rewrite pow2_xI in Hk.
    rewrite shr_1_exact; trivial; [|exists (k * (2 ^ Zpos p * 2 ^ Zpos p)); lia].
    assert (E1 : m / 2 = k * 2 ^ Zpos p * 2 ^ Zpos p).
    { subst m. replace (k * (2 * (2 ^ Zpos p * 2 ^ Zpos p)))
        with (k * 2 ^ Zpos p * 2 ^ Zpos p * 2) by lia.
      apply Z.div_mul. lia. }
    assert (P : 0 < 2 ^ Zpos p) by lia.
    assert (K : 0 <= k) by nia.
    rewrite IH; [|nia|exists (k * 2 ^ Zpos p); lia].
    assert (E2 : m / 2 / 2 ^ Zpos p = k * 2 ^ Zpos p).
    { rewrite E1. apply Z.div_mul. lia. }
    rewrite IH; [|nia|exists k; lia].
    f_equal. rewrite E2, Z.div_mul by lia.
    rewrite pow2_xI. subst m. symmetry.
    replace (k * (2 * (2 ^ Zpos p * 2 ^ Zpos p)))
      with (k * (2 * (2 ^ Zpos p * 2 ^ Zpos p))) by lia.
    apply Z.div_mul. lia.
  - rewrite pow2_xO in Hk.
    assert (P : 0 < 2 ^ Zpos p) by lia.
    assert (K : 0 <= k) by nia.
    assert (E1 : m / 2 ^ Zpos p = k * 2 ^ Zpos p).
    { subst m. replace (k * (2 ^ Zpos p * 2 ^ Zpos p))
        with (k * 2 ^ Zpos p * 2 ^ Zpos p) by lia.
      apply Z.div_mul. lia. }
    rewrite IH; [|trivial|exists (k * 2 ^ Zpos p); lia].
    rewrite IH; [|nia|exists k; lia].
    f_equal. rewrite E1, Z.div_mul by lia.
    rewrite pow2_xO. subst m. symmetry. apply Z.div_mul. lia.
  - change (2 ^ 1) with 2 in *. apply shr_1_exact; trivial. exists k; trivial.
Qed.

(** A mantissa of 53 bits followed by [n] zero bits rounds to itself. *)
Lemma binary_round_aux_exact s M n e :
  Zpos (digits2_pos M) = 53 -> 0 <= n ->
  -1074 <= e + n -> e + n <= 971 ->
  forall m, Zpos m = Zpos M * 2 ^ n ->
  binary_round_aux prec emax s (Zpos m) e loc_Exact = S754_finite s M (e + n).
Proof.
  intros HM Hn Hlo Hhi m Hm.
  pose proof (digits_bounds M) as [Hl Hu]. rewrite HM in Hl, Hu.
  assert (Hd : Zpos (digits2_pos m) = 53 + n).
  { apply digits_unique. rewrite Hm.
    replace (53 + n - 1) with (52 + n) by lia.
    rewrite !pow2_split by lia. change (53 - 1) with 52 in Hl.
    assert (0 < 2 ^ n) by lia. nia. }
  unfold binary_round_aux, shr_fexp. cbn [Zdigits2]. rewrite Hd.
  replace (fexp prec emax (53 + n + e) - e) with n
    by (unfold fexp, SpecFloat.emin, prec, emax; lia).
  cbn [shr_record_of_loc].
  assert (E1 : shr (Build_shr_record (Zpos m) false false) e n
               = (Build_shr_record (Zpos M) false false, e + n)).
  { destruct n as [|p|p]; cbn [shr]; try lia.
    - rewrite Z.add_0_r. f_equal. f_equal. rewrite Hm. cbn. lia.
    - rewrite shr_iter_exact; [|lia|exists (Zpos M); lia].
      f_equal. f_equal. rewrite Hm. apply Z.div_mul. lia. }
  rewrite E1. cbn [shr_m loc_of_shr_record round_nearest_even Zdigits2].
  rewrite HM.
  replace (fexp prec emax (53 + (e + n)) - (e + n)) with 0
    by (unfold fexp, SpecFloat.emin, prec, emax; lia).
  cbn [shr shr_record_of_loc shr_m].
  assert (E : (e + n <=? emax - prec) = true)
    by (apply Z.leb_le; unfold emax, prec; lia).
  rewrite E. reflexivity.
Qed.

(** ** Normal numbers *)

(** [x] is the positive normal number [M * 2^E]. *)
Definition normal (x : float) (M : positive) (E : Z) : Prop :=
  Prim2SF x = S754_finite false M E /\ Zpos (digits2_pos M) = 53.

Lemma iter_xO p k : Zpos (Pos.iter xO p k) = Zpos p * 2 ^ Zpos k.
Proof.
  induction k as [|k IH] using Pos.peano_ind.
  - cbn. lia.
  - rewrite Pos.iter_succ, Pos2Z.inj_succ, Z.pow_succ_r by lia.
    change (Zpos (Pos.iter xO p k)~0) with (2 * Zpos (Pos.iter xO p k)).
    rewrite IH. lia.
Qed.

(** A positive integer below [2^53] is represented exactly. *)
Lemma Z2F_normal z :
  1 <= z < 2 ^ 53 ->
  let d := Zdigits2 z in
  exists M, normal (Z2F z) M (d - 53) /\ Zpos M = z * 2 ^ (53 - d).
Proof.
  intros Hz d. unfold Z2F.
  destruct (Z.ltb_spec z 0) as [|_]; [lia|].
  destruct z as [|p|p]; try lia. cbn [Zdigits2] in d.
  pose proof (digits_bounds p) as [Hl Hu]. fold d in Hl, Hu.
  assert (Hd : 1 <= d <= 53).
  { split; [unfold d; lia|].
    destruct (Z.le_gt_cases d 53) as [|Hgt]; trivial.
    assert (2 ^ 53 <= 2 ^ (d - 1)) by (apply Z.pow_le_mono_r; lia). lia. }
  unfold normal. rewrite of_uint63_spec.
  rewrite Uint63.of_Z_spec.
  rewrite Z.mod_small.
  2:{ split; [lia|]. apply (Z.lt_trans _ (2 ^ 53)); [apply Hz|reflexivity]. }
  cbn [binary_normalize]. unfold binary_round.
  replace (fexp prec emax (Zpos (digits2_pos p) + 0)) with (d - 53)
    by (unfold fexp, SpecFloat.emin, prec, emax; fold d; lia).
  set (M := Z.to_pos (Zpos p * 2 ^ (53 - d))).
  assert (HMz : Zpos M = Zpos p * 2 ^ (53 - d)).
  { unfold M. rewrite Z2Pos.id; trivial.
    assert (0 < 2 ^ (53 - d)) by (apply Z.pow_pos_nonneg; lia). nia. }
  assert (HM : Zpos (digits2_pos M) = 53).
  { apply digits_unique. rewrite HMz. change (53 - 1) with 52.
    assert (E52 : 2 ^ 52 = 2 ^ (d - 1) * 2 ^ (53 - d))
      by (rewrite <- pow2_split by lia; f_equal; lia).
    assert (E53 : 2 ^ 53 = 2 ^ d * 2 ^ (53 - d))
      by (rewrite <- pow2_split by lia; f_equal; lia).
    assert (0 < 2 ^ (53 - d)) by (apply Z.pow_pos_nonneg; lia).
    split.
    - rewrite E52. apply Z.mul_le_mono_nonneg_r; lia.
    - rewrite E53. apply Z.mul_lt_mono_pos_r; lia. }
  clearbody M. exists M. split; [|trivial]. split; [|trivial].
  assert (Hal : shl_align p 0 (d - 53) = (M, d - 53) \/
                (d = 53 /\ shl_align p 0 (d - 53) = (p, 0))).
  { unfold shl_align. rewrite Z.sub_0_r.
    destruct (d - 53) as [|q|q] eqn:Eq; try lia.
    - right. split; [lia|reflexivity].
    - left. f_equal. apply Pos2Z.inj. rewrite iter_xO, HMz.
      f_equal. f_equal. lia. }
  destruct Hal as [Hal|[E53 Hal]]; rewrite Hal.
  - pose proof (binary_round_aux_exact false M 0 (d - 53) HM ltac:(lia)
                  ltac:(lia) ltac:(lia) M ltac:(cbn; lia)) as R.
    rewrite Z.add_0_r in R. exact R.
  - assert (M = p).
    { apply Pos2Z.inj. rewrite HMz, E53. cbn. lia. }
    subst p.
    pose proof (binary_round_aux_exact false M 0 0 HM ltac:(lia)
                  ltac:(lia) ltac:(lia) M ltac:(cbn; lia)) as R.
    rewrite E53. exact R.
Qed.

Lemma div_eucl_div_mod a b : Z.div_eucl a b = (a / b, a mod b).
Proof. unfold Z.div, Z.modulo. destruct (Z.div_eucl a b); reflexivity. Qed.

Lemma div_core_normal M1 E1 M2 E2 :
  Zpos (digits2_pos M1) = 53 -> Zpos (digits2_pos M2) = 53 ->
  -1074 <= E1 - E2 - 53 ->
  SFdiv_core_binary prec emax (Zpos M1) E1 (Zpos M2) E2
  = (Zpos M1 * 2 ^ 53 / Zpos M2, E1 - E2 - 53,
     new_location (Zpos M2) (Zpos M1 * 2 ^ 53 mod Zpos M2)).
Proof.
  intros H1 H2 Hlo. unfold SFdiv_core_binary. cbn [Zdigits2].
  rewrite H1, H2.
  replace (Z.min (fexp prec emax (53 + E1 - (53 + E2))) (E1 - E2))
    with (E1 - E2 - 53)
    by (unfold fexp, SpecFloat.emin, prec, emax; lia).
  replace (E1 - E2 - (E1 - E2 - 53)) with 53 by lia.
  cbv iota. rewrite Z.shiftl_mul_pow2 by lia.
  rewrite div_eucl_div_mod. reflexivity.
Qed.

(** The quotient of two positive normal numbers, away from underflow and
    overflow: a normal number within one unit in the last place of the
    truncated quotient. *)
Lemma div_normal x y M1 E1 M2 E2 :
  normal x M1 E1 -> normal y M2 E2 ->
  -1074 <= E1 - E2 - 53 -> E1 - E2 <= 1022 ->
  exists M E n,
    normal (x / y) M E
    /\ 0 <= n <= 1
    /\ E1 - E2 - 53 + n <= E <= E1 - E2 - 53 + n + 1
    /\ let t := Zpos M1 * 2 ^ 53 / Zpos M2 / 2 ^ n in
       t <= Zpos M * 2 ^ (E - (E1 - E2 - 53 + n)) <= t + 1.
Proof.
  intros [Hx H1] [Hy H2] Hlo Hhi.
  pose proof (digits_bounds M1) as [L1 U1]. rewrite H1 in L1, U1.
  pose proof (digits_bounds M2) as [L2 U2]. rewrite H2 in L2, U2.
  change (53 - 1) with 52 in *.
  unfold normal. rewrite div_spec, Hx, Hy. unfold SF64div, SFdiv.
  rewrite div_core_normal by trivial. cbn [xorb].
  set (q := Zpos M1 * 2 ^ 53 / Zpos M2).
  assert (Hq : 2 ^ 52 <= q < 2 ^ 54).
  { unfold q. split.
    - apply Z.div_le_lower_bound; [lia|]. nia.
    - apply Z.div_lt_upper_bound; [lia|]. nia. }
  destruct q as [|Q|Q] eqn:EQ; try lia.
  set (l := new_location _ _). clearbody l.
  assert (Hd : Zpos (digits2_pos Q) = 53 \/ Zpos (digits2_pos Q) = 54).
  { destruct (Z.lt_ge_cases (Zpos Q) (2 ^ 53)).
    - left. apply digits_unique. change (53 - 1) with 52. lia.
    - right. apply digits_unique. change (54 - 1) with 53. lia. }
  destruct (binary_round_aux_normal false Q (E1 - E2 - 53) l)
    as (M & E & HR & HM & Hcases); try lia.
  exists M, E, (Zpos (digits2_pos Q) - 53).
  rewrite HR. split; [split; trivial|]. split; [lia|].
  destruct Hcases as [[HE Hb]|[HE [HMv Hb]]].
  - split; [lia|]. cbv zeta.
    replace (E - (E1 - E2 - 53 + (Zpos (digits2_pos Q) - 53))) with 0 by lia.
    rewrite Z.mul_1_r. exact Hb.
  - split; [lia|]. cbv zeta.
    replace (E - (E1 - E2 - 53 + (Zpos (digits2_pos Q) - 53))) with 1 by lia.
    rewrite HMv, Hb. change (2 ^ 52 * 2 ^ 1) with (2 ^ 53). lia.
Qed.

(** The product of two positive normal numbers. *)
Lemma mul_normal x y M1 E1 M2 E2 :
  normal x M1 E1 -> normal y M2 E2 ->
  -1074 <= E1 + E2 + 52 -> E1 + E2 <= 917 ->
  exists M E n,
    normal (x * y) M E
    /\ 52 <= n <= 53
    /\ E1 + E2 + n <= E <= E1 + E2 + n + 1
    /\ let t := Zpos M1 * Zpos M2 / 2 ^ n in
       t <= Zpos M * 2 ^ (E - (E1 + E2 + n)) <= t + 1.
Proof.
  intros [Hx H1] [Hy H2] Hlo Hhi.
  pose proof (digits_bounds M1) as [L1 U1]. rewrite H1 in L1, U1.
  pose proof (digits_bounds M2) as [L2 U2]. rewrite H2 in L2, U2.
  change (53 - 1) with 52 in *.
  unfold normal. rewrite mul_spec, Hx, Hy. unfold SF64mul, SFmul.
  cbn [xorb].
  assert (Hq : 2 ^ 104 <= Zpos (M1 * M2) < 2 ^ 106).
  { rewrite Pos2Z.inj_mul.
    change (2 ^ 104) with (2 ^ 52 * 2 ^ 52).
    change (2 ^ 106) with (2 ^ 53 * 2 ^ 53). nia. }
  assert (Hd : Zpos (digits2_pos (M1 * M2)) = 105
               \/ Zpos (digits2_pos (M1 * M2)) = 106).
  { destruct (Z.lt_ge_cases (Zpos (M1 * M2)) (2 ^ 105)).
    - left. apply digits_unique. change (105 - 1) with 104. lia.
    - right. apply digits_unique. change (106 - 1) with 105. lia. }
  destruct (binary_round_aux_normal false (M1 * M2) (E1 + E2) loc_Exact)
    as (M & E & HR & HM & Hcases); try lia.
  exists M, E, (Zpos (digits2_pos (M1 * M2)) - 53).
  rewrite HR. split; [split; trivial|]. split; [lia|].
  rewrite Pos2Z.inj_mul in Hcases.
  destruct Hcases as [[HE Hb]|[HE [HMv Hb]]].
  - split; [lia|]. cbv zeta.
    replace (E - (E1 + E2 + (Zpos (digits2_pos (M1 * M2)) - 53))) with 0 by lia.
    rewrite Z.mul_1_r. exact Hb.
  - split; [lia|]. cbv zeta.
    replace (E - (E1 + E2 + (Zpos (digits2_pos (M1 * M2)) - 53))) with 1 by lia.
    rewrite HMv, Hb. change (2 ^ 52 * 2 ^ 1) with (2 ^ 53). lia.
Qed.

Lemma normal_finite x M E : normal x M E -> is_finite x = true.
Proof. intros [H _]. unfold is_finite. rewrite H. reflexivity. Qed.

Lemma normal_pos x M E : normal x M E -> (0 <? x)%float = true.
Proof.
  intros [H _]. rewrite ltb_spec, H. reflexivity.
Qed.

Lemma floorZ_normal x M E :
  normal x M E -> E <= 0 -> floorZ x = Zpos M / 2 ^ (- E).
Proof.
  intros [H _] HE. unfold floorZ. rewrite H. cbn [SFfloorZ cond_Zopp].
  destruct (Z.leb_spec 0 E).
  - replace E with 0 by lia. cbn. rewrite Z.div_1_r. reflexivity.
  - apply Z.shiftr_div_pow2. lia.
Qed.

Lemma digits_le_31 p : Zpos p < 2 ^ 31 -> Zpos (digits2_pos p) <= 31.
Proof.
  intros H. pose proof (digits_bounds p) as [Hl _].
  destruct (Z.le_gt_cases (Zpos (digits2_pos p)) 31) as [|Hgt]; trivial.
  assert (2 ^ 31 <= 2 ^ (Zpos (digits2_pos p) - 1))
    by (apply Z.pow_le_mono_r; lia).
  lia.
Qed.

Lemma digits_le_53 p : Zpos p < 2 ^ 53 -> Zpos (digits2_pos p) <= 53.
Proof.
  intros H. pose proof (digits_bounds p) as [Hl _].
  destruct (Z.le_gt_cases (Zpos (digits2_pos p)) 53) as [|Hgt]; trivial.
  assert (2 ^ 53 <= 2 ^ (Zpos (digits2_pos p) - 1))
    by (apply Z.pow_le_mono_r; lia).
  lia.
Qed.

Lemma floorZ_Z2F n : 1 <= n < 2 ^ 53 -> floorZ (Z2F n) = n.
Proof.
  intros Hn. destruct (Z2F_normal n Hn) as (M & HM & HMv). cbv zeta in *.
  destruct n as [|p|p]; try lia. cbn [Zdigits2] in *.
  pose proof (digits_le_53 p ltac:(lia)).
  rewrite (floorZ_normal _ _ _ HM) by lia.
  rewrite HMv. replace (- (Zpos (digits2_pos p) - 53))
    with (53 - Zpos (digits2_pos p)) by lia.
  apply Z.div_mul. apply Z.pow_nonzero; lia.
Qed.

(** [Math.floor] of a positive normal number and its integer reading. *)
Lemma floorZ_Math_floor x M E :
  normal x M E -> floorZ (Math_floor x) = floorZ x.
Proof.
  intros HN. pose proof HN as [H HM]. unfold Math_floor. rewrite H.
  destruct (Z.leb_spec 0 E) as [|Hneg]; trivial.
  cbn [cond_Zopp]. rewrite Z.shiftr_div_pow2 by lia.
  rewrite (floorZ_normal _ _ _ HN) by lia.
  pose proof (digits_bounds M) as [_ Hu]. rewrite HM in Hu.
  assert (P : 1 <= 2 ^ (- E)) by (apply (Z.pow_le_mono_r 2 0); lia).
  assert (B : 0 <= Zpos M / 2 ^ (- E) < 2 ^ 53).
  { split; [apply Z.div_pos; lia|].
    apply Z.div_lt_upper_bound; [lia|]. nia. }
  destruct (Z.eqb_spec (Zpos M / 2 ^ (- E)) 0) as [->|Hne]; [reflexivity|].
  apply floorZ_Z2F. lia.
Qed.

Lemma normal_60 : normal 60 8444249301319680 (-47).
Proof. split; reflexivity. Qed.

Lemma normal_10 : normal 10 5629499534213120 (-49).
Proof. split; reflexivity. Qed.

Lemma normal_002 : normal 0.02 5764607523034235 (-58).
Proof. split; reflexivity. Qed.

(** The reading of a rounded value lies between those of its bounds. *)
Lemma floor_between t v K P :
  0 < P -> t <= v <= t + 1 -> K * P <= t -> t + 1 < (K + 1) * P ->
  v / P = K.
Proof.
  intros HP Hv Hl Hu.
  symmetry. apply (Z.div_unique_pos v P K (v - K * P)); lia.
Qed.

Lemma carry_div M k : 0 <= k -> (Zpos M * 2 ^ 1) / 2 ^ (k + 1) = Zpos M / 2 ^ k.
Proof.
  intros Hk. rewrite Z.pow_add_r by lia. change (2 ^ 1) with 2.
  rewrite (Z.mul_comm (2 ^ k) 2), (Z.mul_comm (Zpos M) 2).
  apply Z.div_mul_cancel_l; [apply Z.pow_nonzero|]; lia.
Qed.

(** [Math.floor(sampleRate / 60)] is the integer quotient. *)
Lemma maxLag_value sr : 1 <= sr < 2 ^ 31 -> floorZ (Z2F sr / 60) = sr / 60.
Proof.
  intros Hsr.
  destruct (Z2F_normal sr ltac:(lia)) as (Mx & HNx & HMx). cbv zeta in *.
  destruct sr as [|p|p]; try lia. cbn [Zdigits2] in *.
  pose proof (digits_le_31 p ltac:(lia)) as Hd31.
  pose proof (digits_bounds p) as [Hl Hu].
  set (d := Zpos (digits2_pos p)) in *.
  assert (Hd1 : 1 <= d) by (unfold d; lia). clearbody d.
  destruct (div_normal _ _ _ _ _ _ HNx normal_60 ltac:(lia) ltac:(lia))
    as (M & E & n & HN & Hn & HE & Ht).
  cbv zeta in Ht.
  rewrite (floorZ_normal _ _ _ HN) by lia.
  set (A := 2 ^ (57 - d)).
  assert (HA : 2 ^ 26 <= A) by (apply Z.pow_le_mono_r; lia).
  assert (EA : Zpos Mx * 2 ^ 53 = Zpos p * A * 2 ^ 49).
  { rewrite HMx. unfold A. rewrite <- !Z.mul_assoc, <- !pow2_split by lia.
    f_equal. f_equal. lia. }
  change (Zpos 8444249301319680) with (15 * 2 ^ 49) in Ht.
  rewrite EA in Ht. rewrite Z.div_mul_cancel_r in Ht by lia.
  set (B := Zpos p * A) in *.
  set (K := Zpos p / 60).
  assert (HK : 60 * K <= Zpos p <= 60 * K + 59).
  { unfold K. pose proof (Z.div_mod (Zpos p) 60 ltac:(lia)).
    pose proof (Z.mod_pos_bound (Zpos p) 60 ltac:(lia)). lia. }
  assert (HB1 : 60 * K * A <= B) by (unfold B; nia).
  assert (HB2 : B <= (60 * K + 59) * A) by (unfold B; nia).
  assert (Ht15 : 15 * (B / 15) <= B < 15 * (B / 15) + 15).
  { pose proof (Z.div_mod B 15 ltac:(lia)).
    pose proof (Z.mod_pos_bound B 15 ltac:(lia)). lia. }
  set (q := B / 15) in *.
  assert (E2A : 2 ^ (59 - d) = 4 * A).
  { unfold A. replace (59 - d) with (2 + (57 - d)) by lia.
    rewrite pow2_split by lia. reflexivity. }
  assert (Hn01 : n = 0 \/ n = 1) by lia.
  assert (HE01 : E = d - 53 - -47 - 53 + n \/ E = d - 53 - -47 - 53 + n + 1)
    by lia.
  clearbody A B q K.
  destruct Hn01 as [-> | ->].
  - change (2 ^ 0) with 1 in Ht. rewrite Z.div_1_r in Ht.
    destruct HE01 as [-> | ->].
    + replace (d - 53 - -47 - 53 + 0 - (d - 53 - -47 - 53 + 0)) with 0 in Ht by lia.
      rewrite Z.mul_1_r in Ht.
      replace (- (d - 53 - -47 - 53 + 0)) with (59 - d) by lia. rewrite E2A.
      apply (floor_between q); lia.
    + replace (d - 53 - -47 - 53 + 0 + 1 - (d - 53 - -47 - 53 + 0)) with 1 in Ht by lia.
      replace (- (d - 53 - -47 - 53 + 0 + 1)) with (58 - d) by lia.
      rewrite <- carry_div by lia.
      replace (58 - d + 1) with (59 - d) by lia. rewrite E2A.
      apply (floor_between q); lia.
  - change (2 ^ 1) with 2 in Ht.
    assert (Hq2 : 2 * (q / 2) <= q < 2 * (q / 2) + 2).
    { pose proof (Z.div_mod q 2 ltac:(lia)).
      pose proof (Z.mod_pos_bound q 2 ltac:(lia)). lia. }
    set (t := q / 2) in *. clearbody t.
    assert (E2A' : 2 ^ (58 - d) = 2 * A).
    { assert (2 ^ (59 - d) = 2 * 2 ^ (58 - d)).
      { replace (59 - d) with (1 + (58 - d)) by lia.
        rewrite pow2_split by lia. reflexivity. }
      lia. }
    destruct HE01 as [-> | ->].
    + replace (d - 53 - -47 - 53 + 1 - (d - 53 - -47 - 53 + 1)) with 0 in Ht by lia.
      rewrite Z.mul_1_r in Ht.
      replace (- (d - 53 - -47 - 53 + 1)) with (58 - d) by lia. rewrite E2A'.
      apply (floor_between t); lia.
    + replace (d - 53 - -47 - 53 + 1 + 1 - (d - 53 - -47 - 53 + 1)) with 1 in Ht by lia.
      replace (- (d - 53 - -47 - 53 + 1 + 1)) with (57 - d) by lia.
      rewrite <- carry_div by lia.
      replace (57 - d + 1) with (58 - d) by lia. rewrite E2A'.
      apply (floor_between t); lia.
Qed.

Lemma div_bounds a b : 0 < b -> b * (a / b) <= a < b * (a / b) + b.
Proof.
  intros Hb. pose proof (Z.div_mod a b ltac:(lia)).
  pose proof (Z.mod_pos_bound a b Hb). lia.
Qed.

Lemma ws_arith_52 t PA KA A :
  4194304 <= A -> 0 <= KA <= 42949672 * A ->
  50 * KA <= PA <= 50 * KA + 49 * A ->
  4503599627370496 * t <= PA * 5764607523034235 < 4503599627370496 * t + 4503599627370496 ->
  64 * KA <= t /\ t + 1 < 64 * KA + 64 * A.
Proof.
  intros HA HKA HPA Hq.
  assert (H1 : 288230376151711744 * KA <= PA * 5764607523034235) by lia.
  assert (H2 : PA * 5764607523034235
               <= 288230376151711750 * KA + 282465768628677515 * A) by lia.
  assert (H3 : 4503599627370496 <= 1073741824 * A) by lia.
  split.
  - assert (4503599627370496 * (64 * KA) < 4503599627370496 * (t + 1)) by lia.
    apply Z.mul_lt_mono_pos_l in H; lia.
  - assert (4503599627370496 * (t + 1) < 4503599627370496 * (64 * KA + 64 * A)) by lia.
    apply Z.mul_lt_mono_pos_l in H; lia.
Qed.
Lemma ws_arith_53 t PA KA A :
  4194304 <= A -> 0 <= KA <= 42949672 * A ->
  50 * KA <= PA <= 50 * KA + 49 * A ->
  9007199254740992 * t <= PA * 5764607523034235 < 9007199254740992 * t + 9007199254740992 ->
  32 * KA <= t /\ t + 1 < 32 * KA + 32 * A.
Proof.
  intros HA HKA HPA Hq.
  assert (H1 : 288230376151711744 * KA <= PA * 5764607523034235) by lia.
  assert (H2 : PA * 5764607523034235
               <= 288230376151711750 * KA + 282465768628677515 * A) by lia.
  assert (H3 : 9007199254740992 <= 2147483648 * A) by lia.
  split.
  - assert (9007199254740992 * (32 * KA) < 9007199254740992 * (t + 1)) by lia.
    apply Z.mul_lt_mono_pos_l in H; lia.
  - assert (9007199254740992 * (t + 1) < 9007199254740992 * (32 * KA + 32 * A)) by lia.
    apply Z.mul_lt_mono_pos_l in H; lia.
Qed.

(** [Math.floor(sampleRate * 0.02)] is the integer quotient by 50, although
    the constant [0.02] is not exactly one fiftieth. *)
Lemma windowSize_value sr :
  1 <= sr < 2 ^ 31 -> floorZ (Z2F sr * 0.02) = sr / 50.
Proof.
  intros Hsr.
  destruct (Z2F_normal sr ltac:(lia)) as (Mx & HNx & HMx). cbv zeta in *.
  destruct sr as [|p|p]; try lia. cbn [Zdigits2] in *.
  pose proof (digits_le_31 p ltac:(lia)) as Hd31.
  set (d := Zpos (digits2_pos p)) in *.
  assert (Hd1 : 1 <= d) by (unfold d; lia). clearbody d.
  destruct (mul_normal _ _ _ _ _ _ HNx normal_002 ltac:(lia) ltac:(lia))
    as (M & E & n & HN & Hn & HE & Ht).
  cbv zeta in Ht.
  rewrite (floorZ_normal _ _ _ HN) by lia.
  set (A := 2 ^ (53 - d)) in *.
  assert (HA : 2 ^ 22 <= A) by (apply Z.pow_le_mono_r; lia).
  rewrite HMx in Ht.
  set (K := Zpos p / 50).
  pose proof (div_bounds (Zpos p) 50 ltac:(lia)) as HK. fold K in HK.
  assert (HK31 : K <= 42949672).
  { change (2 ^ 31) with 2147483648 in Hsr. lia. }
  assert (HKA1 : 50 * (K * A) <= Zpos p * A) by nia.
  assert (HKA2 : Zpos p * A <= 50 * (K * A) + 49 * A) by nia.
  assert (HKA3 : K * A <= 42949672 * A) by nia.
  assert (HKA4 : 0 <= K * A) by (apply Z.mul_nonneg_nonneg; lia).
  assert (E64 : 2 ^ (59 - d) = 64 * A).
  { unfold A. replace (59 - d) with (6 + (53 - d)) by lia.
    rewrite pow2_split by lia. reflexivity. }
  assert (E32 : 2 ^ (58 - d) = 32 * A).
  { unfold A. replace (58 - d) with (5 + (53 - d)) by lia.
    rewrite pow2_split by lia. reflexivity. }
  assert (E16 : 2 ^ (57 - d) = 16 * A).
  { unfold A. replace (57 - d) with (4 + (53 - d)) by lia.
    rewrite pow2_split by lia. reflexivity. }
  assert (Hn01 : n = 52 \/ n = 53) by lia.
  assert (HE01 : E = d - 53 + -58 + n \/ E = d - 53 + -58 + n + 1) by lia.
  change (2 ^ 22) with 4194304 in HA.
  remember (Zpos p * A) as PA eqn:EPA. remember (K * A) as KA eqn:EKA.
  clearbody A K. clear EPA.
  destruct Hn01 as [-> | ->].
  - pose proof (div_bounds (PA * 5764607523034235) (2 ^ 52) ltac:(lia)) as Hq.
    set (t := PA * 5764607523034235 / 2 ^ 52) in *. clearbody t.
    change (2 ^ 52) with 4503599627370496 in Hq.
    destruct (ws_arith_52 t PA KA A) as [G1 G2]; try lia.
    destruct HE01 as [-> | ->].
    + replace (d - 53 + -58 + 52 - (d - 53 + -58 + 52)) with 0 in Ht by lia.
      rewrite Z.mul_1_r in Ht.
      replace (- (d - 53 + -58 + 52)) with (59 - d) by lia. rewrite E64.
      apply (floor_between t); lia.
    + replace (d - 53 + -58 + 52 + 1 - (d - 53 + -58 + 52)) with 1 in Ht by lia.
      replace (- (d - 53 + -58 + 52 + 1)) with (58 - d) by lia.
      rewrite <- carry_div by lia.
      replace (58 - d + 1) with (59 - d) by lia. rewrite E64.
      apply (floor_between t); lia.
  - pose proof (div_bounds (PA * 5764607523034235) (2 ^ 53) ltac:(lia)) as Hq.
    set (t := PA * 5764607523034235 / 2 ^ 53) in *. clearbody t.
    change (2 ^ 53) with 9007199254740992 in Hq.
    destruct (ws_arith_53 t PA KA A) as [G1 G2]; try lia.
    destruct HE01 as [-> | ->].
    + replace (d - 53 + -58 + 53 - (d - 53 + -58 + 53)) with 0 in Ht by lia.
      rewrite Z.mul_1_r in Ht.
      replace (- (d - 53 + -58 + 53)) with (58 - d) by lia. rewrite E32.
      apply (floor_between t); lia.
    + replace (d - 53 + -58 + 53 + 1 - (d - 53 + -58 + 53)) with 1 in Ht by lia.
      replace (- (d - 53 + -58 + 53 + 1)) with (57 - d) by lia.
      rewrite <- carry_div by lia.
      replace (57 - d + 1) with (58 - d) by lia. rewrite E32.
      apply (floor_between t); lia.
Qed.

Lemma Z2F_normal_range z :
  1 <= z < 2 ^ 53 ->
  exists M E, normal (Z2F z) M E /\ -52 <= E <= 0
              /\ 2 ^ (E + 52) <= z < 2 ^ (E + 53).
Proof.
  intros Hz. destruct (Z2F_normal z Hz) as (M & HM & _). cbv zeta in HM.
  destruct z as [|p|p]; try lia. cbn [Zdigits2] in HM.
  pose proof (digits_le_53 p ltac:(lia)).
  pose proof (digits_bounds p) as [Hl Hu].
  exists M, (Zpos (digits2_pos p) - 53). split; trivial. split; [lia|].
  replace (Zpos (digits2_pos p) - 53 + 52) with (Zpos (digits2_pos p) - 1) by lia.
  replace (Zpos (digits2_pos p) - 53 + 53) with (Zpos (digits2_pos p)) by lia.
  lia.
Qed.

(** The exponents of two integers compare like the integers. *)
Lemma normal_range_mono a b Ea Eb :
  2 ^ (Ea + 52) <= a < 2 ^ (Ea + 53) ->
  2 ^ (Eb + 52) <= b < 2 ^ (Eb + 53) ->
  -52 <= Ea -> a <= b -> Ea <= Eb.
Proof.
  intros Ha Hb H52 Hab.
  destruct (Z.le_gt_cases Ea Eb) as [|Hgt]; trivial.
  assert (2 ^ (Eb + 53) <= 2 ^ (Ea + 52)).
  { destruct (Z.lt_ge_cases (Eb + 53) 0).
    - rewrite (Z.pow_neg_r 2 (Eb + 53)) by trivial. lia.
    - apply Z.pow_le_mono_r; lia. }
  lia.
Qed.

(** [Math.round] of a positive normal number with a fractional part. *)
Lemma Math_round_normal x M E :
  normal x M E -> -53 <= E < 0 ->
  exists n, Math_round x = Z2F n /\ 1 <= n < 2 ^ 53
            /\ n = (2 * Zpos M + 2 ^ (- E)) / 2 ^ (- E + 1).
Proof.
  intros [H HM] HE. unfold Math_round. rewrite H.
  destruct (Z.leb_spec 0 E) as [|_]; [lia|]. cbn [cond_Zopp].
  rewrite Z.shiftr_div_pow2 by lia.
  pose proof (digits_bounds M) as [Hl Hu]. rewrite HM in Hl, Hu.
  change (53 - 1) with 52 in Hl.
  set (k := - E) in *.
  assert (Hk : 1 <= k <= 53) by (unfold k; lia). clearbody k.
  assert (P1 : 2 <= 2 ^ k) by (apply (Z.pow_le_mono_r 2 1); lia).
  assert (P2 : 2 ^ k <= 2 ^ 53) by (apply Z.pow_le_mono_r; lia).
  assert (P3 : 2 ^ (k + 1) = 2 * 2 ^ k)
    by (rewrite Z.pow_add_r by lia; change (2 ^ 1) with 2; lia).
  assert (B : 1 <= (2 * Zpos M + 2 ^ k) / 2 ^ (k + 1) < 2 ^ 53).
  { split.
    - apply Z.div_le_lower_bound; [lia|].
      change (2 ^ 52) with 4503599627370496 in *. lia.
    - apply Z.div_lt_upper_bound; [lia|].
      change (2 ^ 52) with 4503599627370496 in *.
      change (2 ^ 53) with 9007199254740992 in *. nia. }
  destruct (Z.eqb_spec ((2 * Zpos M + 2 ^ k) / 2 ^ (k + 1)) 0) as [E0|_];
    [lia|].
  eexists. split; [reflexivity|]. split; [exact B|reflexivity].
Qed.

(** For a lag between 1 and the sample rate the returned frequency is a
    positive normal number. *)
Lemma frequency_of_normal sr k :
  1 <= Z.of_nat k <= sr -> sr < 2 ^ 31 ->
  exists M E, normal (frequency_of sr k) M E.
Proof.
  intros Hk Hsr. unfold frequency_of, of_nat.
  destruct (Z2F_normal_range sr) as (Mx & Ex & HNx & HEx & HBx).
  { split; [lia|]. apply (Z.lt_trans _ (2 ^ 31)); [lia|reflexivity]. }
  destruct (Z2F_normal_range (Z.of_nat k)) as (My & Ey & HNy & HEy & HBy).
  { split; [lia|]. apply (Z.lt_trans _ (2 ^ 31)); [lia|reflexivity]. }
  pose proof (normal_range_mono _ _ _ _ HBy HBx ltac:(lia) ltac:(lia)) as Hyx.
  assert (Ex <= -22).
  { destruct (Z.le_gt_cases Ex (-22)) as [|Hgt]; trivial.
    assert (2 ^ 31 <= 2 ^ (Ex + 52)) by (apply Z.pow_le_mono_r; lia). lia. }
  destruct (div_normal _ _ _ _ _ _ HNx HNy ltac:(lia) ltac:(lia))
    as (Mq & Eq & n & HNq & Hn & HEq & _).
  destruct (mul_normal _ _ _ _ _ _ HNq normal_10 ltac:(lia) ltac:(lia))
    as (Mp & Ep & n' & HNp & Hn' & HEp & _).
  destruct (Math_round_normal _ _ _ HNp ltac:(lia)) as (r & Hr & HBr & _).
  rewrite Hr.
  destruct (Z2F_normal_range r HBr) as (Mr & Er & HNr & HEr & _).
  destruct (div_normal _ _ _ _ _ _ HNr normal_10 ltac:(lia) ltac:(lia))
    as (Mf & Ef & n'' & HNf & _).
  eauto.
Qed.

(** ** Halving and doubling *)

Lemma normal_2 : normal 2 4503599627370496 (-51).
Proof. split; reflexivity. Qed.

Lemma half_normal x M E :
  normal x M E -> -1072 <= E <= 972 -> normal (x / 2) M (E - 1).
Proof.
  intros [H HM] HE. split; trivial.
  rewrite div_spec, H. destruct normal_2 as [H2 HM2]. rewrite H2.
  unfold SF64div, SFdiv. rewrite div_core_normal by (trivial; lia).
  cbn [xorb].
  assert (Eq : Zpos M * 2 ^ 53 = Zpos M~0 * Zpos 4503599627370496).
  { change (Zpos M~0) with (2 * Zpos M).
    change (Zpos 4503599627370496) with (2 ^ 52).
    change (2 ^ 53) with (2 * 2 ^ 52). lia. }
  rewrite Eq, Z.div_mul, Z.mod_mul by lia.
  change (new_location (Zpos 4503599627370496) 0) with loc_Exact.
  rewrite (binary_round_aux_exact false M 1 (E - -51 - 53)); trivial; try lia.
  f_equal. lia.
Qed.

Lemma double_normal x M E :
  normal x M E -> -1075 <= E <= 970 -> normal (x * 2) M (E + 1).
Proof.
  intros [H HM] HE. split; trivial.
  rewrite mul_spec, H. destruct normal_2 as [H2 HM2]. rewrite H2.
  unfold SF64mul, SFmul. cbn [xorb].
  rewrite (binary_round_aux_exact false M 52 (E + -51)); trivial; try lia.
  f_equal. lia.
Qed.

End Rounding.

(** ** Non-negative numbers *)

(** Zero, a positive finite number or +Infinity. *)
Definition SFnonneg (x : spec_float) : Prop :=
  match x with
  | S754_zero _ | S754_infinity false | S754_finite false _ _ => True
  | _ => False
  end.

Definition nonneg (x : float) : Prop := (0 <=? x) = true.

Lemma nonneg_SF x : nonneg x <-> SFnonneg (Prim2SF x).
Proof.
  unfold nonneg. rewrite leb_spec. change (Prim2SF 0) with (S754_zero false).
  destruct (Prim2SF x) as [s|[]| |[] m e]; cbn; intuition discriminate.
Qed.

Lemma binary_round_aux_nonneg m e l :
  (0 <= m)%Z -> SFnonneg (binary_round_aux prec emax false m e l).
Proof.
  intros H. destruct (binary_round_aux_cases false m e l H)
    as [-> |[-> |(M & E & ->)]]; exact I.
Qed.

Lemma not_nan_SF x : not_nan x <-> Prim2SF x <> S754_nan.
Proof.
  rewrite not_nan_key. destruct (Prim2SF x) as [s|[]| |[] m e]; cbn;
    split; try congruence; eauto; intros [a Ha]; discriminate.
Qed.

(** A square is non-negative. *)
Lemma sq_nonneg x : not_nan x -> nonneg (x * x).
Proof.
  rewrite not_nan_SF, nonneg_SF, mul_spec. unfold SF64mul, SFmul.
  destruct (Prim2SF x) as [s|s| |s m e]; intros H; try congruence.
  - exact I.
  - destruct s; exact I.
  - replace (xorb s s) with false by (destruct s; reflexivity).
    apply binary_round_aux_nonneg. lia.
Qed.

Lemma add_nonneg x y : nonneg x -> nonneg y -> nonneg (x + y).
Proof.
  rewrite !nonneg_SF, add_spec. unfold SF64add, SFadd.
  destruct (Prim2SF x) as [[]|[]| |[] mx ex];
    destruct (Prim2SF y) as [[]|[]| |[] my ey]; cbn [SFnonneg];
    try tauto.
  intros _ _. cbn [cond_Zopp Z.add binary_normalize]. unfold binary_round.
  destruct (shl_align _ _ _) as [mz ez].
  apply binary_round_aux_nonneg. lia.
Qed.

(** A non-negative number divided by a positive finite one. *)
Lemma div_nonneg x y M E :
  nonneg x -> Prim2SF y = S754_finite false M E -> nonneg (x / y).
Proof.
  rewrite !nonneg_SF, div_spec. intros Hx Hy. rewrite Hy.
  unfold SF64div, SFdiv.
  destruct (Prim2SF x) as [[]|[]| |[] mx ex]; cbn [SFnonneg xorb] in *;
    try tauto.
  unfold SFdiv_core_binary.
  set (e' := Z.min _ _).
  set (m' := match (ex - E - e')%Z with
             | Zpos _ => _ | Z0 => _ | Zneg _ => _ end).
  assert (Hm' : (0 <= m')%Z).
  { unfold m'. destruct (ex - E - e')%Z; try lia.
    rewrite Z.shiftl_mul_pow2 by lia. apply Z.mul_nonneg_nonneg; lia. }
  rewrite div_eucl_div_mod. cbv zeta.
  apply binary_round_aux_nonneg. apply Z.div_pos; lia.
Qed.

Lemma sqrt_nonneg x : nonneg x -> nonneg (PrimFloat.sqrt x).
Proof.
  rewrite !nonneg_SF, sqrt_spec. unfold SF64sqrt, SFsqrt.
  destruct (Prim2SF x) as [[]|[]| |[] mx ex]; cbn [SFnonneg]; try tauto.
  intros _. unfold SFsqrt_core_binary.
  set (e' := Z.min _ _).
  set (m' := match (ex - 2 * e')%Z with
             | Zpos _ => _ | Z0 => _ | Zneg _ => _ end).
  pose proof (Z.sqrtrem_sqrt m') as Hs.
  destruct (Z.sqrtrem m') as [q r]. cbn [fst] in Hs.
  apply binary_round_aux_nonneg. rewrite Hs. apply Z.sqrt_nonneg.
Qed.

Lemma sum_sq_nonneg data : forall l acc,
  (forall j, In j l -> not_nan (get data j)) -> nonneg acc ->
  nonneg (fold_left (fun sum j => sum + get data j * get data j) l acc).
Proof.
  induction l as [|j l IH]; intros acc Hl Hacc; cbn [fold_left]; trivial.
  apply IH.
  - intros i Hi. apply Hl. right; trivial.
  - apply add_nonneg; trivial. apply sq_nonneg. apply Hl. left; trivial.
Qed.

(** The RMS of a non-empty window of numbers is non-negative. *)
Lemma window_rms_nonneg data i limit :
  Forall not_nan data ->
  (i < limit <= length data)%nat -> (Z.of_nat (limit - i) < 2 ^ 53)%Z ->
  nonneg (window_rms data i limit).
Proof.
  intros Hd Hil Hk. unfold window_rms.
  destruct (Z2F_normal (Z.of_nat (limit - i)) ltac:(lia)) as (M & [HM _] & _).
  apply sqrt_nonneg. eapply div_nonneg; [|exact HM].
  apply sum_sq_nonneg; [|reflexivity].
  intros j Hj. apply in_seq in Hj. rewrite Forall_forall in Hd.
  apply Hd. apply nth_In. lia.
Qed.

(** ** The range correction *)

(** A finite number above the subnormal range has a 53-bit mantissa. *)
Lemma finite_normal x M E :
  Prim2SF x = S754_finite false M E -> (-1074 < E)%Z ->
  normal x M E /\ (E <= 971)%Z.
Proof.
  intros H HE. pose proof (Prim2SF_valid x) as V. rewrite H in V.
  cbn [SpecFloat.valid_binary] in V. unfold bounded, canonical_mantissa in V.
  apply andb_true_iff in V. destruct V as [V1 V2].
  apply Z.eqb_eq in V1. apply Z.leb_le in V2.
  unfold fexp, SpecFloat.emin, prec, emax in *.
  split; [split; trivial|]; lia.
Qed.

Lemma ltb_false_key x y a b :
  SFkey (Prim2SF x) = Some a -> SFkey (Prim2SF y) = Some b ->
  (x <? y) = false -> ~ lex3_lt a b.
Proof.
  intros Ha Hb H L.
  assert (T : (x <? y) = true) by (apply ltb_key; eauto 6). congruence.
Qed.

Lemma normal_key x M E : normal x M E -> SFkey (Prim2SF x) = Some (1, E, Zpos M)%Z.
Proof. intros [H _]. rewrite H. reflexivity. Qed.

Definition M15 : Z := 8444249301319680.

Lemma key_30 : SFkey (Prim2SF 30) = Some (1, -48, M15)%Z.
Proof. reflexivity. Qed.
Lemma key_60 : SFkey (Prim2SF 60) = Some (1, -47, M15)%Z.
Proof. reflexivity. Qed.
Lemma key_240 : SFkey (Prim2SF 240) = Some (1, -45, M15)%Z.
Proof. reflexivity. Qed.
Lemma key_480 : SFkey (Prim2SF 480) = Some (1, -44, M15)%Z.
Proof. reflexivity. Qed.

(** A number that exceeds a positive normal constant is +Infinity or a
    positive normal number. *)
Lemma above_normal c x Ec Mc :
  SFkey (Prim2SF c) = Some (1, Ec, Mc)%Z -> (-1074 < Ec)%Z ->
  (c <=? x) = true ->
  x = infinity
  \/ exists M E, normal x M E /\ (E <= 971)%Z
                 /\ lex3_le (1, Ec, Mc)%Z (1, E, Zpos M)%Z.
Proof.
  intros Hc HEc H. apply leb_key in H. destruct H as (a & b & Ha & Hb & Hab).
  rewrite Hc in Ha. inversion Ha; subst a.
  destruct (Prim2SF x) as [s|[]| |[] M E] eqn:Hx; cbn [SFkey] in Hb;
    inversion Hb; subst b;
    try (exfalso; unfold lex3_le, lex3_lt in Hab;
         destruct Hab as [Hab|Hab]; [lia|congruence]).
  - left. apply Prim2SF_inj. rewrite Hx. reflexivity.
  - right. exists M, E.
    assert (-1074 < E)%Z.
    { unfold lex3_le, lex3_lt in Hab. destruct Hab as [Hab|Hab]; [lia|].
      inversion Hab; lia. }
    destruct (finite_normal x M E Hx) as [HN HE]; trivial.
    repeat split; trivial; apply HN.
Qed.

(** After a halving no doubling follows. *)
Lemma adjust_bpm_above b :
  (240 <? b) = true -> adjust_bpm b = Math_round (b / 2).
Proof.
  intros H. unfold adjust_bpm. rewrite H.
  assert (F : (b / 2 <? 60) = false); [|rewrite F; reflexivity].
  destruct (above_normal 240 b _ _ key_240 ltac:(lia) (ltb_leb _ _ H))
    as [-> |(M & E & HN & HE & Hle)]; [reflexivity|].
  assert (HE' : (-45 <= E)%Z).
  { unfold lex3_le, lex3_lt in Hle. destruct Hle as [?|Hle]; [lia|].
    inversion Hle; lia. }
  pose proof (half_normal b M E HN ltac:(lia)) as HH.
  destruct (b / 2 <? 60) eqn:F; trivial.
  apply ltb_key in F. destruct F as (a & c & Ha & Hc & L).
  rewrite (normal_key _ _ _ HH) in Ha. rewrite key_60 in Hc.
  inversion Ha; inversion Hc; subst. unfold lex3_lt in L. lia.
Qed.

(** After no halving at most one doubling. *)
Lemma adjust_bpm_below b :
  (b <? 60) = true -> adjust_bpm b = Math_round (b * 2).
Proof.
  intros H. unfold adjust_bpm.
  assert (F : (240 <? b) = false).
  { apply ltb_asym. eapply ltb_trans; [exact H|reflexivity]. }
  rewrite F, H. reflexivity.
Qed.

Lemma adjust_bpm_within b :
  (240 <? b) = false -> (b <? 60) = false -> adjust_bpm b = Math_round b.
Proof. intros H1 H2. unfold adjust_bpm. rewrite H1, H2. reflexivity. Qed.

(** Rounding keeps a number of [60, 240] in that range. *)
Lemma round_60_240 c M E :
  normal c M E ->
  lex3_le (1, -47, M15)%Z (1, E, Zpos M)%Z ->
  lex3_le (1, E, Zpos M)%Z (1, -45, M15)%Z ->
  exists n, Math_round c = Z2F n /\ (60 <= n <= 240)%Z.
Proof.
  intros HN Hlo Hhi. pose proof HN as [_ HM].
  pose proof (digits_bounds M) as [Hl Hu]. rewrite HM in Hl, Hu.
  change (2 ^ (53 - 1))%Z with 4503599627370496%Z in Hl.
  change (2 ^ 53)%Z with 9007199254740992%Z in Hu.
  assert (HE : ((E = -47 /\ M15 <= Zpos M) \/ E = -46
                \/ (E = -45 /\ Zpos M <= M15))%Z).
  { unfold lex3_le, lex3_lt, M15 in *.
    destruct Hlo as [Hlo|Hlo], Hhi as [Hhi|Hhi];
      try (injection Hlo as Hlo1 Hlo2); try (injection Hhi as Hhi1 Hhi2);
      lia. }
  destruct (Math_round_normal c M E HN ltac:(lia)) as (n & Hn & _ & En).
  exists n. split; trivial. unfold M15 in *.
  destruct HE as [[-> HM0]|[-> |[-> HM0]]]; subst n; cbn [Z.opp Z.add Z.pow];
    [change (2 ^ 47)%Z with 140737488355328%Z;
     change (2 ^ (47 + 1))%Z with 281474976710656%Z
    |change (2 ^ 46)%Z with 70368744177664%Z;
     change (2 ^ (46 + 1))%Z with 140737488355328%Z
    |change (2 ^ 45)%Z with 35184372088832%Z;
     change (2 ^ (45 + 1))%Z with 70368744177664%Z];
    split;
    first [apply Z.div_le_lower_bound; lia
          |apply Z.lt_succ_r, Z.div_lt_upper_bound; lia].
Qed.

Lemma lex3_le_iff a1 a2 a3 b1 b2 b3 :
  lex3_le (a1, a2, a3) (b1, b2, b3) <->
  (a1 < b1 \/ (a1 = b1 /\ (a2 < b2 \/ (a2 = b2 /\ a3 <= b3))))%Z.
Proof.
  unfold lex3_le, lex3_lt. split.
  - intros [H|H]; [lia|]. injection H as -> -> ->. lia.
  - intros H.
    destruct (Z.eq_dec a1 b1) as [->|]; [|left; lia].
    destruct (Z.eq_dec a2 b2) as [->|]; [|left; lia].
    destruct (Z.eq_dec a3 b3) as [->|]; [right; reflexivity|left; lia].
Qed.

Lemma Z2F_60_240 n :
  (60 <= n <= 240)%Z -> (60 <=? Z2F n) = true /\ (Z2F n <=? 240) = true.
Proof.
  intros Hn.
  assert (H : forallb
                (fun k => (60 <=? Z2F (60 + Z.of_nat k))
                          && (Z2F (60 + Z.of_nat k) <=? 240))
                (seq 0 181) = true) by (vm_compute; reflexivity).
  rewrite forallb_forall in H.
  specialize (H (Z.to_nat (n - 60))). rewrite in_seq in H.
  specialize (H ltac:(lia)).
  replace (60 + Z.of_nat (Z.to_nat (n - 60)))%Z with n in H by lia.
  apply andb_true_iff in H. exact H.
Qed.

(** In [30, 480] one correction is enough. *)
Lemma adjust_bpm_range b :
  (30 <=? b) = true -> (b <=? 480) = true ->
  exists n, adjust_bpm b = Z2F n /\ (60 <= n <= 240)%Z.
Proof.
  intros Hlo Hhi.
  destruct (above_normal 30 b _ _ key_30 ltac:(lia) Hlo)
    as [-> |(M & E & HN & HE & Hle)]; [discriminate|].
  apply leb_key in Hhi. destruct Hhi as (a & c & Ha & Hc & Hac).
  rewrite (normal_key _ _ _ HN) in Ha. rewrite key_480 in Hc.
  inversion Ha; inversion Hc; subst a c. clear Ha Hc.
  unfold M15 in *. rewrite lex3_le_iff in Hle, Hac.
  destruct (240 <? b) eqn:H1.
  - rewrite adjust_bpm_above by trivial.
    apply ltb_key in H1. destruct H1 as (a & c & Ha & Hc & L).
    rewrite key_240 in Ha. rewrite (normal_key _ _ _ HN) in Hc.
    inversion Ha; inversion Hc; subst a c. unfold lex3_lt, M15 in L.
    apply (round_60_240 _ M (E - 1)).
    + apply half_normal; trivial. lia.
    + unfold M15. apply lex3_le_iff. lia.
    + unfold M15. apply lex3_le_iff. lia.
  - destruct (b <? 60) eqn:H2.
    + rewrite adjust_bpm_below by trivial.
      apply ltb_key in H2. destruct H2 as (a & c & Ha & Hc & L).
      rewrite key_60 in Hc. rewrite (normal_key _ _ _ HN) in Ha.
      inversion Ha; inversion Hc; subst a c. unfold lex3_lt, M15 in L.
      apply (round_60_240 _ M (E + 1)).
      * apply double_normal; trivial. lia.
      * unfold M15. apply lex3_le_iff. lia.
      * unfold M15. apply lex3_le_iff. lia.
    + rewrite adjust_bpm_within by trivial.
      pose proof (ltb_false_key _ _ _ _ key_240 (normal_key _ _ _ HN) H1) as N1.
      pose proof (ltb_false_key _ _ _ _ (normal_key _ _ _ HN) key_60 H2) as N2.
      unfold lex3_lt, M15 in N1, N2.
      apply (round_60_240 _ M E); trivial.
      * unfold M15. apply lex3_le_iff. lia.
      * unfold M15. apply lex3_le_iff. lia.
Qed.

(** ** The loop bounds as integers *)

Lemma sample_rate_normal sr :
  (1 <= sr < 2 ^ 31)%Z ->
  exists M E, normal (Z2F sr) M E /\ (-52 <= E <= -22)%Z
              /\ (2 ^ (E + 52) <= sr < 2 ^ (E + 53))%Z.
Proof.
  intros Hsr.
  destruct (Z2F_normal_range sr) as (M & E & HN & HE & HB).
  { split; [lia|]. apply (Z.lt_trans _ (2 ^ 31)); [lia|reflexivity]. }
  assert (E <= -22)%Z.
  { destruct (Z.le_gt_cases E (-22)) as [|Hgt]; trivial.
    assert (2 ^ 31 <= 2 ^ (E + 52))%Z by (apply Z.pow_le_mono_r; lia).
    destruct HB. change (2 ^ 31)%Z with 2147483648%Z in *. lia. }
  exists M, E. split; trivial. split; [lia|trivial].
Qed.

Lemma maxLag_eq b :
  (1 <= sampleRate b < 2 ^ 31)%Z ->
  maxLag b = Z.to_nat (sampleRate b / 60).
Proof.
  intros Hsr. unfold maxLag, count.
  destruct (sample_rate_normal _ Hsr) as (M & E & HN & HE & _).
  destruct (div_normal _ _ _ _ _ _ HN normal_60 ltac:(lia) ltac:(lia))
    as (Mq & Eq & n & HNq & _).
  rewrite (floorZ_Math_floor _ _ _ HNq), maxLag_value by trivial.
  reflexivity.
Qed.

Lemma fifty sr : (sr * 20 / 1000 = sr / 50)%Z.
Proof.
  replace (sr * 20)%Z with (sr * 20)%Z by trivial.
  change 1000%Z with (50 * 20)%Z. apply Z.div_mul_cancel_r; lia.
Qed.

Lemma window_step_eq sr :
  (1 <= sr < 2 ^ 31)%Z ->
  count (windowSize sr) = Z.to_nat (sr * 20 / 1000).
Proof.
  intros Hsr. unfold windowSize, count.
  destruct (sample_rate_normal _ Hsr) as (M & E & HN & HE & _).
  destruct (mul_normal _ _ _ _ _ _ HN normal_002 ltac:(lia) ltac:(lia))
    as (Mq & Eq & n & HNq & _).
  rewrite (floorZ_Math_floor _ _ _ HNq), windowSize_value, fifty by trivial.
  reflexivity.
Qed.

(** From 50 Hz on, [windowSize] is the positive integer [sampleRate / 50]. *)
Lemma windowSize_float sr :
  (50 <= sr < 2 ^ 31)%Z -> windowSize sr = Z2F (sr / 50).
Proof.
  intros Hsr. unfold windowSize.
  destruct (sample_rate_normal sr ltac:(lia)) as (M & E & HN & HE & _).
  destruct (mul_normal _ _ _ _ _ _ HN normal_002 ltac:(lia) ltac:(lia))
    as (Mq & Eq & n & HNq & Hn & HEq & _).
  pose proof (windowSize_value sr ltac:(lia)) as V.
  rewrite (floorZ_normal _ _ _ HNq) in V by lia.
  unfold Math_floor. destruct HNq as [HP _]. rewrite HP.
  destruct (Z.leb_spec 0 Eq) as [|_]; [lia|]. cbn [cond_Zopp].
  rewrite Z.shiftr_div_pow2, V by lia.
  assert (1 <= sr / 50)%Z by (apply Z.div_le_lower_bound; lia).
  destruct (Z.eqb_spec (sr / 50) 0); [lia|reflexivity].
Qed.

(** With no interval, [60 / secondsPerBeat] divides by [+0]. *)
Lemma raw_bpm_0 sr :
  (50 <= sr < 2 ^ 31)%Z -> adjust_bpm (raw_bpm sr 0) = infinity.
Proof.
  intros Hsr. unfold raw_bpm. rewrite windowSize_float by trivial.
  assert (Hw : (1 <= sr / 50 < 2 ^ 53)%Z).
  { split; [apply Z.div_le_lower_bound; lia|].
    apply Z.div_lt_upper_bound; [lia|].
    change (2 ^ 31)%Z with 2147483648%Z in Hsr.
    change (2 ^ 53)%Z with 9007199254740992%Z. lia. }
  destruct (Z2F_normal_range _ Hw) as (Mw & Ew & HNw & HEw & _).
  destruct (sample_rate_normal sr ltac:(lia)) as (M & E & HN & HE & _).
  destruct (div_normal _ _ _ _ _ _ HNw HN ltac:(lia) ltac:(lia))
    as (Ms & Es & n & [HNs _] & _).
  change (Z2F 0) with 0.
  assert (Z : 0 * (Z2F (sr / 50) / Z2F sr) = 0).
  { rewrite mul_SF, HNs. reflexivity. }
  rewrite Z. reflexivity.
Qed.

(** * The claims *)

(** ** Example buffers *)

(** One second of silence at 44.1 kHz. *)
Definition silent_second : AudioBuffer :=
  {| sampleRate := 44100; channelData := silence 44100 |}.

(** Two clicks 40 ms apart in 200 ms of silence, at 8 kHz: ten windows of
    160 samples, the second and the fourth at full scale. *)
Definition clicks : AudioBuffer :=
  {| sampleRate := 8000;
     channelData := steps 160 [0; 1; 0; 1; 0; 0; 0; 0; 0; 0] |}.

(** Two impulses 132 samples apart, at 8 kHz: 402 samples, all zero but
    the first (1) and the one at index 132 (0.5). *)
Definition two_impulses : AudioBuffer :=
  {| sampleRate := 8000;
     channelData := 1 :: repeat 0 131 ++ 0.5 :: repeat 0 269 |}.

Lemma silence_silent n : silent (silence n).
Proof.
  unfold silent, silence. induction n as [|n IH]; cbn [repeat]; constructor;
    trivial. left; reflexivity.
Qed.

(** ** C10, C1, C2: what the estimators return *)

(** The selected lag never exceeds the sample rate. *)
Lemma peakIndex_le_rate b :
  (1 <= sampleRate b < 2 ^ 31)%Z ->
  (1 <= Z.of_nat (peakIndex_of (correlations b)) <= sampleRate b)%Z.
Proof.
  intros Hsr. pose proof (peakIndex_bounds (correlations b)) as H.
  rewrite correlations_length, maxLag_eq in H by trivial.
  assert (sampleRate b / 60 <= sampleRate b)%Z.
  { apply Z.div_le_upper_bound; lia. }
  assert (0 <= sampleRate b / 60)%Z by (apply Z.div_pos; lia).
  lia.
Qed.

(** Whatever the samples are, the result is a positive normal number. *)
Lemma detectPitch_normal b :
  (1 <= sampleRate b < 2 ^ 31)%Z ->
  exists M E, normal (detectPitch b) M E.
Proof.
  intros Hsr. pose proof (peakIndex_le_rate b Hsr) as H.
  exact (frequency_of_normal (sampleRate b) _ H ltac:(lia)).
Qed.

(** C10. For every buffer whose sample rate is a positive integer (below
    [2^31]), [detectPitch] divides by a lag that is at least 1: the peak
    index starts at [firstDropIndex + 1], never moves below it and never
    exceeds the number of lags; the returned value is the rounded frequency
    of that lag, a finite and strictly positive number, whatever the
    samples are (silent, shorter than [maxLag], even NaN). *)
Theorem detectPitch_divides_by_positive_lag (b : AudioBuffer) :
  (1 <= sampleRate b < 2 ^ 31)%Z ->
  let corr := correlations b in
  let peakIndex := peakIndex_of corr in
  (firstDropIndex_of corr + 1 <= peakIndex)%nat
  /\ (1 <= peakIndex <= Nat.max 1 (maxLag b))%nat
  /\ detectPitch b
     = Math_round (Z2F (sampleRate b) / of_nat peakIndex * 10) / 10
  /\ is_finite (detectPitch b) = true
  /\ (0 <? detectPitch b) = true.
Proof.
  intros Hsr corr peakIndex. subst peakIndex corr.
  pose proof (peakIndex_spec (correlations b)) as (H1 & _).
  pose proof (peakIndex_bounds (correlations b)) as H2.
  rewrite correlations_length in H2.
  destruct (detectPitch_normal b Hsr) as (M & E & HN).
  repeat split; try exact H1; try apply H2.
  - exact (normal_finite _ _ _ HN).
  - exact (normal_pos _ _ _ HN).
Qed.

Lemma detectPitch_divides_by_positive_lag_witness :
  (1 <= sampleRate two_impulses < 2 ^ 31)%Z
  /\ is_finite (detectPitch two_impulses) = true
  /\ (0 <? detectPitch two_impulses) = true.
Proof.
  assert (H : (1 <= sampleRate two_impulses < 2 ^ 31)%Z)
    by (cbn; split; [lia|reflexivity]).
  split; [exact H|].
  apply (detectPitch_divides_by_positive_lag two_impulses H).
Defined.

(** C1. On every silent buffer (sample rate from 50 Hz, below [2^31])
    [detectPitch] returns the finite frequency of the largest lag it
    searched, and [estimateTempo] returns +Infinity: no onset is found,
    [mostCommonInterval] stays 0 and [60 / secondsPerBeat] divides by zero. *)
Theorem silent_buffer_estimates (b : AudioBuffer) :
  (50 <= sampleRate b < 2 ^ 31)%Z ->
  silent (channelData b) ->
  detectPitch b = frequency_of (sampleRate b) (Nat.max 1 (maxLag b))
  /\ is_finite (detectPitch b) = true
  /\ estimateTempo b = Some infinity.
Proof.
  intros Hsr Hs.
  split; [apply silent_detectPitch; trivial|].
  split.
  { destruct (detectPitch_normal b ltac:(lia)) as (M & E & HN).
    exact (normal_finite _ _ _ HN). }
  unfold estimateTempo.
  assert (Hstep : (1 <= count (windowSize (sampleRate b)))%nat).
  { rewrite window_step_eq, fifty by lia.
    assert (1 <= sampleRate b / 50)%Z by (apply Z.div_le_lower_bound; lia).
    lia. }
  rewrite (energyProfile_of_windows b Hstep).
  rewrite tempo_of_profile_short.
  - rewrite raw_bpm_0 by trivial. reflexivity.
  - erewrite silent_onsets; [cbn; lia|exact Hs|].
    apply energyProfile_of_windows. exact Hstep.
Qed.

Lemma silent_buffer_estimates_witness :
  (50 <= sampleRate silent_second < 2 ^ 31)%Z
  /\ silent (channelData silent_second)
  /\ estimateTempo silent_second = Some infinity.
Proof.
  assert (H : (50 <= sampleRate silent_second < 2 ^ 31)%Z)
    by (cbn; split; [lia|reflexivity]).
  split; [exact H|]. split; [apply silence_silent|].
  apply (silent_buffer_estimates silent_second H (silence_silent _)).
Defined.

(** C2. Whenever fewer than two onsets are detected (sample rate from
    50 Hz, below [2^31]) there is no interval, the histogram is empty, and
    [estimateTempo] returns +Infinity, not a fallback tempo. *)
Theorem few_onsets_tempo_is_infinite (b : AudioBuffer) (energyProfile : list float) :
  (50 <= sampleRate b < 2 ^ 31)%Z ->
  energyProfile_of b = Some energyProfile ->
  (length (onsets_of energyProfile) < 2)%nat ->
  histogramBins_of (intervals_of (onsets_of energyProfile)) = []
  /\ estimateTempo b = Some infinity.
Proof.
  intros Hsr Hp Ho. split.
  - rewrite intervals_of_short by trivial. reflexivity.
  - unfold estimateTempo. rewrite Hp, tempo_of_profile_short by trivial.
    rewrite raw_bpm_0 by trivial. reflexivity.
Qed.

(** A steady tone-less buffer: 100 ms at a constant level, at 8 kHz. *)
Definition flat_buffer : AudioBuffer :=
  {| sampleRate := 8000; channelData := steps 160 [0.5; 0.5; 0.5; 0.5; 0.5] |}.

Lemma few_onsets_tempo_is_infinite_witness :
  (50 <= sampleRate flat_buffer < 2 ^ 31)%Z
  /\ energyProfile_of flat_buffer = Some [0.5; 0.5; 0.5; 0.5; 0.5]
  /\ estimateTempo flat_buffer = Some infinity.
Proof.
  assert (H : (50 <= sampleRate flat_buffer < 2 ^ 31)%Z)
    by (cbn; split; [lia|reflexivity]).
  assert (P : energyProfile_of flat_buffer = Some [0.5; 0.5; 0.5; 0.5; 0.5])
    by (vm_compute; reflexivity).
  split; [exact H|]. split; [exact P|].
  apply (few_onsets_tempo_is_infinite flat_buffer _ H P).
  vm_compute. lia.
Defined.

(** ** C3: the range correction *)

Lemma adjust_bpm_cases b :
  adjust_bpm b
  = Math_round (if 240 <? b then b / 2 else if b <? 60 then b * 2 else b).
Proof.
  destruct (240 <? b) eqn:H1; [apply adjust_bpm_above; trivial|].
  destruct (b <? 60) eqn:H2; [apply adjust_bpm_below; trivial|].
  apply adjust_bpm_within; trivial.
Qed.

(** C3, as the code has it.  The correction is applied at most once and
    never in both directions: the result is [Math.round] of [b / 2] when
    [b > 240], of [b * 2] when [b < 60], of [b] otherwise.  For a raw value
    in [30, 480] that is an integer of [60, 240]. *)
Theorem adjust_bpm_single_correction (b : float) :
  adjust_bpm b
  = Math_round (if 240 <? b then b / 2 else if b <? 60 then b * 2 else b)
  /\ ((30 <=? b) = true -> (b <=? 480) = true ->
      (exists n, adjust_bpm b = Z2F n /\ (60 <= n <= 240)%Z)
      /\ (60 <=? adjust_bpm b) = true
      /\ (adjust_bpm b <=? 240) = true).
Proof.
  split.
  - destruct (240 <? b) eqn:H1; [apply adjust_bpm_above; trivial|].
    destruct (b <? 60) eqn:H2; [apply adjust_bpm_below; trivial|].
    apply adjust_bpm_within; trivial.
  - intros Hlo Hhi. destruct (adjust_bpm_range b Hlo Hhi) as (n & Hn & Hr).
    split; [eauto|]. rewrite Hn. apply Z2F_60_240. trivial.
Qed.

Lemma adjust_bpm_single_correction_witness :
  (30 <=? 375) = true /\ (375 <=? 480) = true
  /\ adjust_bpm 375 = 188
  /\ (60 <=? adjust_bpm 375) = true /\ (adjust_bpm 375 <=? 240) = true.
Proof.
  split; [reflexivity|]. split; [reflexivity|]. split; [reflexivity|].
  apply (proj2 (adjust_bpm_single_correction 375)); reflexivity.
Defined.

(** Two onsets 40 ms apart give the raw value 1500; it is halved once, and
    the result 750 is above 240. *)
Lemma tempo_out_of_range :
  option_map onsets_of (energyProfile_of clicks) = Some [1; 3]%nat
  /\ raw_bpm 8000 2 = 1500
  /\ estimateTempo clicks = Some 750
  /\ (750 <=? 240) = false.
Proof. vm_compute. repeat split. Qed.

(** ** C4: the peak lag *)

(** The walk as the claim words it: forward from lag 0 while the sequence
    is non-increasing, up to the lag before the first increase. *)
Fixpoint claimed_walk (fuel : nat) (corr : list float) (i : nat) : nat :=
  match fuel with
  | O => i
  | S fuel' =>
      if (i + 1 <? length corr)%nat && (get corr (i + 1) <=? get corr i)
      then claimed_walk fuel' corr (i + 1)
      else i
  end.

Definition claimed_first_drop (corr : list float) : nat :=
  claimed_walk (length corr) corr 0.

(** The lag with the largest correlation from [start] onward (the first of
    them). *)
Definition claimed_peak (corr : list float) (start : nat) : nat :=
  fold_left (peak_step corr) (seq start (length corr - start)) start.

(** On [two_impulses] the correlation falls from lag 0 to lag 1, stays at
    zero and rises at the last lag, 132.  The code stops its walk at lag 0
    and scans the lags 1 to 131: it keeps lag 1 and returns 8000 Hz.  The
    walk of the claim ends at lag 131, where the sequence first increases,
    and the largest correlation from there (or from 132) onward is at lag
    132, that is 60.6 Hz. *)
Lemma peak_lag_differs_from_claim :
  let corr := correlations two_impulses in
  firstDropIndex_of corr = 0%nat
  /\ peakIndex_of corr = 1%nat
  /\ detectPitch two_impulses = 8000
  /\ claimed_first_drop corr = 131%nat
  /\ claimed_peak corr 131 = 132%nat
  /\ claimed_peak corr 132 = 132%nat
  /\ frequency_of 8000 132 = 606 / 10
  /\ (detectPitch two_impulses =? frequency_of 8000 132) = false.
Proof. vm_compute. repeat split. Qed.

(** The selected lag is the lag one past the first drop, or a scanned lag
    with a strictly larger correlation. *)
Lemma peakIndex_start_or_better corr :
  let d := firstDropIndex_of corr in
  let p := peakIndex_of corr in
  p = (d + 1)%nat
  \/ ((d + 1 < p < length corr - 1)%nat
      /\ (get corr (d + 1) <? get corr p) = true).
Proof.
  cbv zeta. unfold peakIndex_of.
  set (d := firstDropIndex_of corr).
  pose proof (scan_spec corr (length corr - 1 - (d + 1)) (d + 1) (d + 1))
    as (H1 & H2 & _).
  unfold scan in *.
  set (p := fold_left _ _ _) in *.
  destruct (Nat.eq_dec p (d + 1)) as [E|NE]; [left; exact E|right].
  split; [lia|]. apply H2. exact NE.
Qed.

(** A triangle wave of period 20 samples, in eighths. *)
Definition triangle : list float :=
  [0; 0.125; 0.25; 0.375; 0.5; 0.625; 0.5; 0.375; 0.25; 0.125;
   0; -0.125; -0.25; -0.375; -0.5; -0.625; -0.5; -0.375; -0.25; -0.125].

(** [x] halved [k] times. *)
Fixpoint halved (k : nat) (x : float) : float :=
  match k with
  | O => x
  | S k' => halved k' (x / 2)
  end.

(** 50 ms of a 400 Hz tone at 8 kHz that dies away: the triangle wave,
    its amplitude halved with every period. *)
Definition decaying_tone : AudioBuffer :=
  {| sampleRate := 8000;
     channelData :=
       map (fun i => halved (i / 20) (nth (i mod 20) triangle 0))
         (seq 0 400) |}.

(** C4.  The code comments its walk as the search of "the first peak after
    the initial drop", but the walk goes forward from lag 0 while the next
    correlation is at least the current one ([>=]) and stops at the last
    lag or before the first strict drop.  The peak index starts one past
    that lag, whether or not it is a lag that is scanned; the lags from
    there to the last but one are scanned and a lag replaces the leader only
    when strictly larger: the selected lag is the start or a scanned lag
    strictly above it, no scanned lag is strictly larger than it and, among
    numbers, every scanned lag before it is strictly smaller.  The result is
    the sample rate divided by the peak lag, times 10, rounded, divided by
    10.  So when the correlation falls right after lag 0 the walk does not
    move: the first-drop index is 0, the search starts at lag 1, inside the
    initial drop, and when no scanned lag from 2 on is strictly above lag 1
    the peak lag is 1 and the result is the rounded sample rate. *)
Theorem detectPitch_walk_stops_before_the_drop (b : AudioBuffer) :
  let corr := correlations b in
  let d := firstDropIndex_of corr in
  let p := peakIndex_of corr in
  (d <= length corr - 1)%nat
  /\ (forall j, (j < d)%nat -> (get corr j <=? get corr (j + 1)) = true)
  /\ ((d + 1 < length corr)%nat -> (get corr d <=? get corr (d + 1)) = false)
  /\ (p = (d + 1)%nat
      \/ ((d + 1 < p < length corr - 1)%nat
          /\ (get corr (d + 1) <? get corr p) = true))
  /\ (forall i, (d + 1 <= i < length corr - 1)%nat ->
        (get corr p <? get corr i) = false)
  /\ (Forall not_nan corr ->
      forall i, (d + 1 <= i < p)%nat -> (get corr i <? get corr p) = true)
  /\ detectPitch b
     = Math_round (Z2F (sampleRate b) / of_nat p * 10) / 10
  /\ ((2 <= length corr)%nat -> (get corr 0 <=? get corr 1) = false ->
      d = 0%nat
      /\ ((forall i, (2 <= i < length corr - 1)%nat ->
             (get corr 1 <? get corr i) = false) ->
          p = 1%nat /\ detectPitch b = frequency_of (sampleRate b) 1)).
Proof.
  intros corr d p.
  pose proof (firstDropIndex_spec corr) as (H1 & H2 & H3).
  pose proof (peakIndex_spec corr) as (H4 & H5 & H6).
  pose proof (peakIndex_first corr) as H7.
  pose proof (peakIndex_start_or_better corr) as H8.
  cbv zeta in *. fold d in H1, H2, H3, H4, H5, H6, H7, H8.
  fold p in H4, H5, H6, H7, H8.
  split; [exact H1|]. split; [exact H2|]. split; [exact H3|].
  split; [exact H8|]. split; [exact H6|]. split; [exact H7|].
  split; [reflexivity|].
  intros Hlen Hdrop.
  assert (Hd : d = 0%nat).
  { destruct d as [|d']; trivial.
    specialize (H2 0%nat ltac:(lia)). cbn [Nat.add] in H2. congruence. }
  split; [exact Hd|]. intros Hflat.
  assert (Hp : p = 1%nat).
  { rewrite Hd in H8. cbn [Nat.add] in H8.
    destruct H8 as [E|[Hr Hb]]; [exact E|].
    rewrite (Hflat p ltac:(lia)) in Hb. discriminate. }
  split; [exact Hp|]. unfold detectPitch. fold corr. fold p. rewrite Hp.
  reflexivity.
Qed.

Lemma detectPitch_walk_stops_before_the_drop_witness :
  let corr := correlations decaying_tone in
  (2 <= length corr)%nat
  /\ (get corr 0 <=? get corr 1) = false
  /\ firstDropIndex_of corr = 0%nat
  /\ peakIndex_of corr = 1%nat
  /\ detectPitch decaying_tone = 8000
  /\ claimed_first_drop corr = 10%nat
  /\ claimed_peak corr 10 = 20%nat
  /\ frequency_of 8000 20 = 400.
Proof.
  cbv zeta.
  assert (E : exists l,
             correlations decaying_tone = l
             /\ length l = 133%nat
             /\ (get l 0 <=? get l 1) = false
             /\ forallb (fun i => negb (get l 1 <? get l i)) (seq 2 130) = true
             /\ claimed_first_drop l = 10%nat
             /\ claimed_peak l 10 = 20%nat).
  { eexists. split; [vm_compute; reflexivity|]. vm_compute. repeat split. }
  destruct E as (l & El & Hlen & Hdrop & F & Hw & Hp').
  pose proof (detectPitch_walk_stops_before_the_drop decaying_tone)
    as (_ & _ & _ & _ & _ & _ & _ & Hslip).
  cbv zeta in Hslip. rewrite El in *.
  destruct (Hslip ltac:(lia) Hdrop) as (Hd & Hrest).
  assert (Hflat : forall i, (2 <= i < length l - 1)%nat ->
                            (get l 1 <? get l i) = false).
  { rewrite forallb_forall in F. intros i Hi. rewrite Hlen in Hi.
    specialize (F i ltac:(apply in_seq; lia)).
    apply negb_true_iff in F. exact F. }
  destruct (Hrest Hflat) as (Hp & Hf).
  split; [lia|]. split; [exact Hdrop|]. split; [exact Hd|].
  split; [exact Hp|]. split; [rewrite Hf; vm_compute; reflexivity|].
  split; [exact Hw|]. split; [exact Hp'|]. vm_compute. reflexivity.
Defined.

(** ** C5: the interval histogram *)

Lemma normalizedInterval_even i :
  Z.even i = true -> normalizedInterval i = i.
Proof.
  intros H. apply Z.even_spec in H. destruct H as [k ->].
  unfold normalizedInterval.
  replace (2 * k + 1)%Z with (1 + k * 2)%Z by lia.
  rewrite Z.div_add by lia. change (1 / 2)%Z with 0%Z. lia.
Qed.

Lemma normalizedInterval_odd i :
  Z.odd i = true -> normalizedInterval i = (i + 1)%Z.
Proof.
  intros H. apply Z.odd_spec in H. destruct H as [k ->].
  unfold normalizedInterval.
  replace (2 * k + 1 + 1)%Z with ((k + 1) * 2)%Z by lia.
  rewrite Z.div_mul by lia. reflexivity.
Qed.

(** C5.  Every interval is counted in the bucket of the nearest multiple
    of 2 (odd intervals go up); the buckets are visited in the order of
    [Object.entries], ascending keys; the winner has the highest count, every
    bucket visited before it has a strictly smaller count and every bucket
    visited after it has at most the same count: a later bucket with an equal
    count does not replace the leader. *)
Theorem histogram_leader_first_seen (energyProfile : list float) :
  let intervals := intervals_of (onsets_of energyProfile) in
  let h := histogramBins_of intervals in
  (forall key,
      lookup key h
      = count_occ Z.eq_dec (map normalizedInterval intervals) key)
  /\ (forall i, normalizedInterval i = if Z.even i then i else (i + 1)%Z)
  /\ StronglySorted Z.lt (keys h)
  /\ ((h = [] /\ mostCommon h = (0%Z, O))
      \/ exists pre post,
           h = pre ++ mostCommon h :: post
           /\ Forall (fun e => snd e < snd (mostCommon h))%nat pre
           /\ Forall (fun e => snd e <= snd (mostCommon h))%nat post).
Proof.
  intros intervals h. unfold h. rewrite histogramBins_of_fill.
  destruct (fill_spec (map normalizedInterval intervals) []
              ltac:(constructor) ltac:(constructor))
    as (H1 & H2 & H3 & _).
  split; [intros key; rewrite H3; cbn [lookup]; apply Nat.add_0_r|].
  split.
  { intros i. destruct (Z.even i) eqn:E.
    - apply normalizedInterval_even; trivial.
    - apply normalizedInterval_odd. rewrite <- Z.negb_even, E. reflexivity. }
  split; [exact H1|]. apply mostCommon_spec. exact H2.
Qed.

(** Intervals met in the order 4, 2, 4, 2: both buckets count 2, and the
    winner is bucket 2, the first in the scan. *)
Lemma histogram_tie_example :
  histogramBins_of [4; 2; 4; 2]%Z = [(2, 2%nat); (4, 2%nat)]%Z
  /\ mostCommon (histogramBins_of [4; 2; 4; 2]%Z) = (2%Z, 2%nat).
Proof. split; reflexivity. Qed.

(** ** C7: onsets *)

Definition mean (p : list float) : float :=
  fold_left (fun acc val => acc + val) p 0 / of_nat (length p).

(** The population standard deviation. *)
Definition stddev (p : list float) : float :=
  PrimFloat.sqrt
    (fold_left (fun acc val => acc + val)
       (map (fun val => sq (val - mean p)) p) 0
     / of_nat (length p)).

(** C7.  An index is an onset exactly when it is between 1 and
    [length - 2], its energy exceeds the threshold [mean + 1.5 * stddev],
    is strictly above its left neighbour and at least its right neighbour;
    the onsets are strictly increasing, hence without duplicates. *)
Theorem onsets_characterised (energyProfile : list float) :
  let threshold := calculateDynamicThreshold energyProfile in
  threshold = mean energyProfile + 1.5 * stddev energyProfile
  /\ (forall i,
        In i (onsets_of energyProfile) <->
        (1 <= i /\ i + 2 <= length energyProfile)%nat
        /\ (threshold <? get energyProfile i) = true
        /\ (get energyProfile (i - 1) <? get energyProfile i) = true
        /\ (get energyProfile (i + 1) <=? get energyProfile i) = true)
  /\ StronglySorted lt (onsets_of energyProfile)
  /\ NoDup (onsets_of energyProfile).
Proof.
  intros threshold. split; [reflexivity|]. split.
  - intros i. unfold threshold. rewrite onsets_of_In.
    split; intros (H & H'); split; trivial; lia.
  - split; [apply onsets_of_sorted|apply onsets_of_NoDup].
Qed.

(** ** C8: the correlations *)

(** The sum as the claim words it: over the fixed window of
    [floor (length / 3)] samples. *)
Definition claimed_correlation (data : list float) (lag : nat) : float :=
  fold_left (fun correlation i => correlation + get data i * get data (i + lag))
    (seq 0 (length data / 3)) 0.

Lemma guarded_sum_inside (data : list float) (lag : nat) (l : list nat) :
  forall acc,
  (forall i, In i l -> (i + lag < length data)%nat) ->
  fold_left
    (fun correlation i =>
       if (i + lag <? length data)%nat
       then correlation + get data i * get data (i + lag)
       else correlation) l acc
  = fold_left
      (fun correlation i => correlation + get data i * get data (i + lag))
      l acc.
Proof.
  induction l as [|x l IH]; intros acc Hl; cbn [fold_left]; trivial.
  destruct (Nat.ltb_spec (x + lag) (length data)) as [_|Hge].
  - apply IH. intros i Hi. apply Hl. right; trivial.
  - specialize (Hl x (or_introl eq_refl)). lia.
Qed.

Lemma guarded_sum_outside (data : list float) (lag : nat) (l : list nat) :
  forall acc,
  (forall i, In i l -> (length data <= i + lag)%nat) ->
  fold_left
    (fun correlation i =>
       if (i + lag <? length data)%nat
       then correlation + get data i * get data (i + lag)
       else correlation) l acc
  = acc.
Proof.
  induction l as [|x l IH]; intros acc Hl; cbn [fold_left]; trivial.
  destruct (Nat.ltb_spec (x + lag) (length data)) as [Hlt|_].
  - specialize (Hl x (or_introl eq_refl)). lia.
  - apply IH. intros i Hi. apply Hl. right; trivial.
Qed.

(** The guard of the inner loop cuts the comparison window at the end of
    the buffer: the terms kept are those of the first
    [min (floor (length / 3)) (length - lag)] indices. *)
Lemma correlation_at_window data lag :
  correlation_at data lag
  = fold_left (fun correlation i => correlation + get data i * get data (i + lag))
      (seq 0 (Nat.min (length data / 3) (length data - lag))) 0.
Proof.
  unfold correlation_at.
  set (m := (length data / 3)%nat).
  set (k := Nat.min m (length data - lag)).
  replace m with (k + (m - k))%nat at 1 by lia.
  rewrite seq_app, fold_left_app.
  rewrite (guarded_sum_inside data lag (seq 0 k))
    by (intros i Hi; apply in_seq in Hi; lia).
  apply guarded_sum_outside. intros i Hi. apply in_seq in Hi. lia.
Qed.

(** Nine samples of 1 at 600 Hz: a window of 3 samples and 10 lags. *)
Definition nine_ones : AudioBuffer :=
  {| sampleRate := 600; channelData := repeat 1 9 |}.

(** On nine samples the window of 3 samples and the lag 7 do not fit: the
    code adds the two products that stay in the buffer, while the sum over
    the fixed window of 3 reads [sample[9]], which does not exist. *)
Lemma fixed_window_fails_near_the_end :
  maxLag nine_ones = 10%nat
  /\ (bufferLength nine_ones / 3)%nat = 3%nat
  /\ correlations nine_ones = [3; 3; 3; 3; 3; 3; 3; 2; 1; 0]
  /\ claimed_correlation (channelData nine_ones) 7 = nan
  /\ get (correlations nine_ones) 7 <> claimed_correlation (channelData nine_ones) 7.
Proof.
  split; [vm_compute; reflexivity|]. split; [reflexivity|].
  split; [vm_compute; reflexivity|]. split; [vm_compute; reflexivity|].
  intros E. apply (f_equal is_finite) in E. vm_compute in E. discriminate.
Qed.

(** C8, as the code has it.  For an integer sample rate (positive, below
    [2^31]) there is one correlation per lag below
    [maxLag = floor (sampleRate / 60)]; each is the sum, in index order
    from 0, of [sample[i] * sample[i + lag]] over the first
    [min (floor (length / 3)) (length - lag)] indices: the comparison
    window, cut where [i + lag] would pass the end of the buffer, so that
    every sample read is in the buffer.  When the window and the lag fit in
    the buffer the window is whole and the sum is the one over the fixed
    window. *)
Theorem correlations_window_cut_at_the_end (b : AudioBuffer) :
  (1 <= sampleRate b < 2 ^ 31)%Z ->
  let data := channelData b in
  maxLag b = Z.to_nat (sampleRate b / 60)
  /\ length (correlations b) = maxLag b
  /\ forall lag, (lag < maxLag b)%nat ->
       let window := Nat.min (length data / 3) (length data - lag) in
       get (correlations b) lag
       = fold_left
           (fun correlation i => correlation + get data i * get data (i + lag))
           (seq 0 window) 0
       /\ (forall i, (i < window)%nat -> (i + lag < length data)%nat)
       /\ ((length data / 3 + lag <= length data)%nat ->
           window = (length data / 3)%nat
           /\ get (correlations b) lag = claimed_correlation data lag).
Proof.
  intros Hsr data. split; [apply maxLag_eq; trivial|].
  split; [apply correlations_length|].
  intros lag Hlag window. subst data window.
  rewrite correlations_nth by trivial.
  split; [apply correlation_at_window|].
  split; [intros i Hi; lia|].
  intros Hfit. split; [lia|].
  rewrite correlation_at_window. unfold claimed_correlation.
  replace (Nat.min (length (channelData b) / 3) (length (channelData b) - lag))
    with (length (channelData b) / 3)%nat by lia.
  reflexivity.
Qed.

Lemma correlations_window_cut_at_the_end_witness :
  (1 <= sampleRate nine_ones < 2 ^ 31)%Z
  /\ maxLag nine_ones = Z.to_nat (600 / 60)
  /\ get (correlations nine_ones) 7
     = fold_left
         (fun correlation i =>
            correlation + get (channelData nine_ones) i
                          * get (channelData nine_ones) (i + 7))
         (seq 0 2) 0.
Proof.
  assert (H : (1 <= sampleRate nine_ones < 2 ^ 31)%Z)
    by (cbn; split; [lia|reflexivity]).
  destruct (correlations_window_cut_at_the_end nine_ones H) as (H1 & _ & H3).
  split; [exact H|]. split; [exact H1|].
  assert (L : (7 < maxLag nine_ones)%nat) by (rewrite H1; vm_compute; lia).
  exact (proj1 (H3 7%nat L)).
Defined.

(** ** C6: the energy profile *)

(** [ceil_div n w] is the least number of windows that cover [n] samples. *)
Lemma ceil_div_spec n w :
  (1 <= w)%nat -> (1 <= n)%nat ->
  ((ceil_div n w - 1) * w < n <= ceil_div n w * w)%nat.
Proof.
  intros Hw Hn. unfold ceil_div.
  pose proof (Nat.div_mod_eq (n + w - 1) w) as E.
  pose proof (Nat.mod_upper_bound (n + w - 1) w ltac:(lia)) as B.
  set (c := ((n + w - 1) / w)%nat) in *.
  set (r := ((n + w - 1) mod w)%nat) in *. clearbody c r.
  destruct c as [|c]; [lia|]. cbn [Nat.sub]. rewrite Nat.sub_0_r. nia.
Qed.

Lemma get_map_seq (f : nat -> float) n k :
  (k < n)%nat -> get (map f (seq 0 n)) k = f k.
Proof.
  intros H. unfold get.
  rewrite (nth_indep _ nan (f O)) by (rewrite length_map, length_seq; trivial).
  rewrite map_nth, seq_nth by trivial. reflexivity.
Qed.

(** C6.  For a non-empty buffer of numbers at an integer sample rate (from
    50 Hz, below [2^31]) the window has [floor (sampleRate * 20 / 1000)]
    samples and the profile has [ceil (sample_count / windowSize)] entries;
    entry [k] is the square root of the mean of the squares of its window,
    the divisor being the actual number of samples of the window (fewer than
    [windowSize] in a shorter last window); every entry is non-negative. *)
Theorem energy_profile_rms (b : AudioBuffer) :
  (50 <= sampleRate b < 2 ^ 31)%Z ->
  channelData b <> [] ->
  Forall not_nan (channelData b) ->
  let data := channelData b in
  let n := length data in
  let w := Z.to_nat (sampleRate b * 20 / 1000) in
  count (windowSize (sampleRate b)) = w
  /\ exists energyProfile,
       energyProfile_of b = Some energyProfile
       /\ length energyProfile = ((n + w - 1) / w)%nat
       /\ ((length energyProfile - 1) * w < n <= length energyProfile * w)%nat
       /\ (forall k, (k < length energyProfile)%nat ->
             let len := Nat.min w (n - k * w) in
             (1 <= len)%nat
             /\ get energyProfile k
                = PrimFloat.sqrt
                    (fold_left (fun sum j => sum + get data j * get data j)
                       (seq (k * w) len) 0
                     / of_nat len))
       /\ (forall k, (k < length energyProfile)%nat ->
             (0 <=? get energyProfile k) = true).
Proof.
  intros Hsr Hne Hnn data n w.
  assert (Hw : count (windowSize (sampleRate b)) = w)
    by (apply window_step_eq; lia).
  assert (Hw1 : (1 <= w)%nat).
  { unfold w. rewrite fifty.
    assert (1 <= sampleRate b / 50)%Z by (apply Z.div_le_lower_bound; lia).
    lia. }
  assert (Hw31 : (Z.of_nat w < 2 ^ 31)%Z).
  { unfold w. rewrite fifty.
    assert (sampleRate b / 50 <= sampleRate b)%Z
      by (apply Z.div_le_upper_bound; lia).
    assert (0 <= sampleRate b / 50)%Z by (apply Z.div_pos; lia). lia. }
  assert (Hn1 : (1 <= n)%nat).
  { unfold n, data. destruct (channelData b); [congruence|cbn; lia]. }
  split; [exact Hw|].
  pose proof (energyProfile_of_windows b) as HP. cbv zeta in HP.
  rewrite Hw in HP. specialize (HP Hw1).
  fold data in HP. unfold bufferLength in HP. fold data n in HP.
  pose proof (ceil_div_spec n w Hw1 Hn1) as HC.
  eexists. split; [exact HP|].
  rewrite length_map, length_seq.
  split; [reflexivity|]. split; [exact HC|].
  assert (Hk : forall k, (k < ceil_div n w)%nat -> (k * w < n)%nat).
  { intros k Hk. nia. }
  split.
  - intros k Hlt len. specialize (Hk k Hlt). split; [unfold len; lia|].
    rewrite get_map_seq by trivial. unfold window_at, window_rms.
    fold n. replace (Nat.min (k * w + w) n - k * w)%nat with len
      by (unfold len; lia).
    reflexivity.
  - intros k Hlt. specialize (Hk k Hlt).
    rewrite get_map_seq by trivial. unfold window_at. fold n.
    apply window_rms_nonneg; trivial.
    + fold n. lia.
    + apply (Z.lt_trans _ (2 ^ 31)); [lia|reflexivity].
Qed.

(** Three windows at 8 kHz, the last of 80 samples only. *)
Definition short_tail : AudioBuffer :=
  {| sampleRate := 8000; channelData := steps 160 [0.5; 1] ++ repeat 0.25 80 |}.

Lemma energy_profile_rms_witness :
  (50 <= sampleRate short_tail < 2 ^ 31)%Z
  /\ channelData short_tail <> []
  /\ Forall not_nan (channelData short_tail)
  /\ energyProfile_of short_tail = Some [0.5; 1; 0.25]
  /\ count (windowSize (sampleRate short_tail)) = 160%nat.
Proof.
  assert (H1 : (50 <= sampleRate short_tail < 2 ^ 31)%Z)
    by (cbn; split; [lia|reflexivity]).
  assert (H2 : channelData short_tail <> []) by discriminate.
  assert (H3 : Forall not_nan (channelData short_tail)).
  { apply Forall_forall. intros x Hx.
    assert (F : forallb (fun x => x =? x) (channelData short_tail) = true)
      by (vm_compute; reflexivity).
    rewrite forallb_forall in F. apply F. exact Hx. }
  split; [exact H1|]. split; [exact H2|]. split; [exact H3|].
  split; [vm_compute; reflexivity|].
  apply (energy_profile_rms short_tail H1 H2 H3).
Defined.

(** * Further properties of the estimators *)

(** ** Termination of the energy loop *)

(** Below 50 Hz the window [Math.floor(sampleRate * 0.02)] has no sample,
    [i += windowSize] never advances and [estimateTempo] does not return on
    a non-empty buffer; from 50 Hz on, and on an empty buffer, it returns. *)
Theorem estimateTempo_returns_iff (b : AudioBuffer) :
  (1 <= sampleRate b < 2 ^ 31)%Z ->
  (estimateTempo b = None <-> (sampleRate b < 50)%Z /\ channelData b <> []).
Proof.
  intros Hsr. unfold estimateTempo.
  destruct (Z.lt_ge_cases (sampleRate b) 50) as [Hlt|Hge].
  - assert (Hstep : count (windowSize (sampleRate b)) = 0%nat).
    { rewrite window_step_eq, fifty by trivial.
      rewrite Z.div_small by lia. reflexivity. }
    unfold energyProfile_of. rewrite Hstep.
    destruct (channelData b) as [|x data] eqn:Ed.
    + cbn. split; [discriminate|]. intros [_ H]. congruence.
    + rewrite energy_loop_stuck by (cbn; lia).
      split; [intros _; split; [trivial|discriminate]|reflexivity].
  - assert (Hstep : (1 <= count (windowSize (sampleRate b)))%nat).
    { rewrite window_step_eq, fifty by trivial.
      assert (1 <= sampleRate b / 50)%Z by (apply Z.div_le_lower_bound; lia).
      lia. }
    rewrite (energyProfile_of_windows b Hstep).
    split; [discriminate|]. intros [H _]. lia.
Qed.

(** A 40 Hz buffer of three samples. *)
Definition slow_buffer : AudioBuffer :=
  {| sampleRate := 40; channelData := [0.5; 1; 0.5] |}.

Lemma estimateTempo_returns_iff_witness :
  (1 <= sampleRate slow_buffer < 2 ^ 31)%Z /\ estimateTempo slow_buffer = None.
Proof.
  assert (H : (1 <= sampleRate slow_buffer < 2 ^ 31)%Z)
    by (cbn; split; [lia|reflexivity]).
  split; [exact H|].
  apply (proj2 (estimateTempo_returns_iff slow_buffer H)).
  split; [reflexivity|discriminate].
Defined.

(** ** Spacing of the onsets *)

(** Two neighbouring windows are never both onsets: the second would have
    to be strictly above the first, and the first at least the second. *)
Lemma onsets_not_adjacent p i :
  In i (onsets_of p) -> ~ In (i + 1)%nat (onsets_of p).
Proof.
  intros H1 H2. apply onsets_of_In in H1, H2.
  destruct H1 as (_ & _ & _ & Hr). destruct H2 as (_ & _ & Hl & _).
  replace (i + 1 - 1)%nat with i in Hl by lia.
  rewrite (ltb_not_leb _ _ Hl) in Hr. discriminate.
Qed.

Lemma nth_onset_In p j :
  (j < length (onsets_of p))%nat -> In (nth j (onsets_of p) O) (onsets_of p).
Proof. intros H. apply nth_In. exact H. Qed.

Lemma interval_distance (energyProfile : list float) (d : Z) :
  In d (intervals_of (onsets_of energyProfile)) ->
  (2 <= d <= Z.of_nat (length energyProfile) - 3)%Z.
Proof.
  intros Hd. apply intervals_of_In in Hd. destruct Hd as (j & Hj & ->).
  pose proof (sorted_nth_lt _ (onsets_of_sorted energyProfile) (j - 1) j
                ltac:(lia)) as Hlt.
  pose proof (nth_onset_In energyProfile j ltac:(lia)) as Hin.
  pose proof (nth_onset_In energyProfile (j - 1) ltac:(lia)) as Hin'.
  pose proof (onsets_not_adjacent energyProfile _ Hin') as Hadj.
  set (o := onsets_of energyProfile) in *.
  assert (Hne : nth j o O <> (nth (j - 1) o O + 1)%nat).
  { intros E. apply Hadj. rewrite <- E. exact Hin. }
  apply onsets_of_In in Hin, Hin'.
  destruct Hin as (Hb & _). destruct Hin' as (Hb' & _).
  lia.
Qed.

(** The bucket of an interval is the interval or its successor. *)
Lemma normalizedInterval_range (d : Z) :
  Z.even (normalizedInterval d) = true
  /\ (d <= normalizedInterval d <= d + 1)%Z.
Proof.
  destruct (Z.even d) eqn:E.
  - rewrite normalizedInterval_even by trivial. rewrite E. split; [trivial|lia].
  - assert (O : Z.odd d = true) by (rewrite <- Z.negb_even, E; reflexivity).
    rewrite normalizedInterval_odd by trivial.
    rewrite Z.even_add, E. split; [reflexivity|lia].
Qed.

(** Every interval between consecutive onsets is at least 2 windows and
    fits in the profile; its bucket is an even number of at least 2. *)
Theorem intervals_at_least_two (energyProfile : list float) (d : Z) :
  In d (intervals_of (onsets_of energyProfile)) ->
  (2 <= d <= Z.of_nat (length energyProfile) - 3)%Z
  /\ Z.even (normalizedInterval d) = true
  /\ (2 <= normalizedInterval d <= Z.of_nat (length energyProfile) - 2)%Z.
Proof.
  intros Hd.
  pose proof (interval_distance energyProfile d Hd) as Hdist.
  destruct (normalizedInterval_range d) as [He Hr].
  split; [exact Hdist|]. split; [exact He|].
  destruct Hdist as [Hlo Hhi]. destruct Hr as [Hl Hu].
  split.
  - apply Z.le_trans with d; trivial.
  - apply Z.le_trans with (d + 1)%Z; trivial. lia.
Qed.

Lemma intervals_at_least_two_witness :
  In 2%Z (intervals_of (onsets_of [0; 1; 0; 1; 0; 0; 0; 0; 0; 0]))
  /\ (2 <= 2 <= 10 - 3)%Z.
Proof.
  assert (H : In 2%Z (intervals_of (onsets_of [0; 1; 0; 1; 0; 0; 0; 0; 0; 0])))
    by (vm_compute; left; reflexivity).
  split; [exact H|].
  apply (intervals_at_least_two [0; 1; 0; 1; 0; 0; 0; 0; 0; 0] 2 H).
Defined.

(** A profile of fewer than five windows has fewer than two onsets. *)
Lemma short_profile_onsets p :
  (length p <= 4)%nat -> (length (onsets_of p) < 2)%nat.
Proof.
  intros Hp. destruct (onsets_of p) as [|a [|c l]] eqn:E; cbn [length]; try lia.
  exfalso.
  pose proof (onsets_of_sorted p) as Hs. rewrite E in Hs.
  assert (Ha : In a (onsets_of p)) by (rewrite E; left; reflexivity).
  assert (Hc : In c (onsets_of p)) by (rewrite E; right; left; reflexivity).
  pose proof (onsets_not_adjacent p a Ha) as Hadj.
  inversion Hs as [|? ? _ Hall]; subst. inversion Hall; subst.
  apply onsets_of_In in Ha, Hc.
  destruct Ha as (Ba & _). destruct Hc as (Bc & Hc).
  assert (c = (a + 1)%nat) by lia. subst c.
  apply Hadj. apply onsets_of_In. split; trivial.
Qed.

(** A recording of at most four windows (80 ms) has too few onsets:
    [estimateTempo] returns +Infinity whatever it contains. *)
Theorem short_recording_tempo (b : AudioBuffer) :
  (50 <= sampleRate b < 2 ^ 31)%Z ->
  (Z.of_nat (bufferLength b) <= 4 * (sampleRate b / 50))%Z ->
  estimateTempo b = Some infinity.
Proof.
  intros Hsr Hlen. unfold estimateTempo.
  assert (Hw : count (windowSize (sampleRate b))
               = Z.to_nat (sampleRate b / 50))
    by (rewrite window_step_eq, fifty by lia; reflexivity).
  assert (H1 : (1 <= sampleRate b / 50)%Z)
    by (apply Z.div_le_lower_bound; lia).
  pose proof (energyProfile_of_windows b) as HP. cbv zeta in HP.
  rewrite Hw in HP. specialize (HP ltac:(lia)). rewrite HP.
  rewrite tempo_of_profile_short.
  - rewrite raw_bpm_0 by trivial. reflexivity.
  - apply short_profile_onsets. rewrite length_map, length_seq.
    unfold ceil_div. set (w := Z.to_nat (sampleRate b / 50)) in *.
    assert (Hn : (bufferLength b <= 4 * w)%nat) by (unfold w; lia).
    assert (1 <= w)%nat by (unfold w; lia).
    apply Nat.lt_succ_r. apply Nat.Div0.div_lt_upper_bound. lia.
Qed.

(** Four windows of 20 ms at 8000 Hz, with a loud second window. *)
Definition four_windows : AudioBuffer :=
  {| sampleRate := 8000; channelData := steps 160 [0.25; 1; 0.5; 0.125] |}.

Lemma short_recording_tempo_witness :
  (50 <= sampleRate four_windows < 2 ^ 31)%Z
  /\ (Z.of_nat (bufferLength four_windows)
      <= 4 * (sampleRate four_windows / 50))%Z
  /\ estimateTempo four_windows = Some infinity.
Proof.
  assert (H1 : (50 <= sampleRate four_windows < 2 ^ 31)%Z)
    by (cbn; split; [lia|reflexivity]).
  assert (H2 : (Z.of_nat (bufferLength four_windows)
                <= 4 * (sampleRate four_windows / 50))%Z)
    by (vm_compute; discriminate).
  split; [exact H1|]. split; [exact H2|].
  exact (short_recording_tempo four_windows H1 H2).
Defined.

(** ** Buffers too short to correlate *)

(** With fewer than 3 samples the comparison window is empty and every
    correlation is 0: [detectPitch] returns the frequency of the largest lag
    without reading a sample. *)
Theorem tiny_buffer_pitch (b : AudioBuffer) :
  (bufferLength b < 3)%nat ->
  detectPitch b = frequency_of (sampleRate b) (Nat.max 1 (maxLag b)).
Proof.
  intros Hn. unfold detectPitch. rewrite flat_peakIndex.
  - rewrite correlations_length. reflexivity.
  - intros i Hi. rewrite correlations_length in Hi.
    rewrite correlations_nth by trivial. unfold correlation_at.
    unfold bufferLength in Hn. rewrite Nat.div_small by trivial. reflexivity.
Qed.

(** Two samples at 44100 Hz. *)
Definition two_samples : AudioBuffer :=
  {| sampleRate := 44100; channelData := [0.5; -1] |}.

Lemma tiny_buffer_pitch_witness :
  (bufferLength two_samples < 3)%nat
  /\ detectPitch two_samples
     = frequency_of (sampleRate two_samples)
         (Nat.max 1 (maxLag two_samples)).
Proof.
  assert (H : (bufferLength two_samples < 3)%nat) by (cbn; lia).
  split; [exact H|]. exact (tiny_buffer_pitch two_samples H).
Defined.

(** ** The winning bucket *)

Lemma histogram_keys intervals key :
  In key (keys (histogramBins_of intervals))
  <-> In key (map normalizedInterval intervals).
Proof.
  rewrite histogramBins_of_fill.
  destruct (fill_spec (map normalizedInterval intervals) []
              ltac:(constructor) ltac:(constructor)) as (_ & _ & _ & H).
  rewrite H. cbn. tauto.
Qed.

Lemma histogram_counts_pos intervals :
  Forall (fun e => 1 <= snd e)%nat (histogramBins_of intervals).
Proof.
  rewrite histogramBins_of_fill.
  apply (fill_spec (map normalizedInterval intervals) []
           ltac:(constructor) ltac:(constructor)).
Qed.

(** With an interval in the histogram the winner is one of its entries
    and no entry has a larger count. *)
Lemma winner_in_histogram (intervals : list Z) :
  intervals <> [] ->
  let h := histogramBins_of intervals in
  In (mostCommon h) h
  /\ forall e, In e h -> (snd e <= snd (mostCommon h))%nat.
Proof.
  intros Hne h.
  pose proof (histogram_counts_pos intervals) as Hpos. fold h in Hpos.
  destruct (mostCommon_spec h Hpos) as [[E _]|(pre & post & E & H1 & H2)].
  - exfalso. destruct intervals as [|d l] eqn:Ei; [congruence|].
    assert (In (normalizedInterval d) (keys h)).
    { unfold h. apply histogram_keys. left; reflexivity. }
    rewrite E in H. destruct H.
  - split.
    + rewrite E at 2. apply in_or_app. right; left; reflexivity.
    + intros e He. rewrite E in He. apply in_app_or in He.
      rewrite Forall_forall in H1, H2.
      destruct He as [He|[<-|He]]; [specialize (H1 e He); lia|lia|auto].
Qed.

(** The winning interval is the bucket of one of the intervals. *)
Lemma winner_interval (intervals : list Z) :
  intervals <> [] ->
  exists d, In d intervals
            /\ mostCommonInterval_of (histogramBins_of intervals)
               = normalizedInterval d.
Proof.
  intros Hne. destruct (winner_in_histogram intervals Hne) as [Hin _].
  assert (Hk : In (mostCommonInterval_of (histogramBins_of intervals))
                 (keys (histogramBins_of intervals))).
  { unfold mostCommonInterval_of, keys. apply in_map. exact Hin. }
  apply histogram_keys in Hk. apply in_map_iff in Hk.
  destruct Hk as (d & Hd & Hdin). exists d. auto.
Qed.

Lemma intervals_of_onsets_nonempty (energyProfile : list float) :
  (2 <= length (onsets_of energyProfile))%nat ->
  intervals_of (onsets_of energyProfile) <> [].
Proof.
  intros Ho E. apply (f_equal (@length Z)) in E.
  rewrite intervals_of_length in E. cbn in E. lia.
Qed.

(** With at least two onsets the winner is the bucket of an actual
    interval, with the largest count of all buckets: an even number of
    windows, at least 2, that fits in the profile. *)
Theorem winner_is_a_bucket (energyProfile : list float) :
  (2 <= length (onsets_of energyProfile))%nat ->
  let intervals := intervals_of (onsets_of energyProfile) in
  let h := histogramBins_of intervals in
  In (mostCommon h) h
  /\ (forall e, In e h -> (1 <= snd e <= snd (mostCommon h))%nat)
  /\ (exists d, In d intervals /\ mostCommonInterval_of h = normalizedInterval d)
  /\ Z.even (mostCommonInterval_of h) = true
  /\ (2 <= mostCommonInterval_of h <= Z.of_nat (length energyProfile) - 2)%Z.
Proof.
  intros Ho intervals h.
  pose proof (intervals_of_onsets_nonempty energyProfile Ho) as Hne.
  fold intervals in Hne.
  destruct (winner_in_histogram intervals Hne) as [Hin Hmax].
  destruct (winner_interval intervals Hne) as (d & Hdin & Hd).
  fold h in Hin, Hmax, Hd.
  pose proof (histogram_counts_pos intervals) as Hpos. fold h in Hpos.
  pose proof (interval_distance energyProfile d Hdin) as Hdist.
  destruct (normalizedInterval_range d) as [He Hr].
  split; [exact Hin|]. split.
  { intros e He'. split; [|auto]. rewrite Forall_forall in Hpos. auto. }
  split; [exists d; auto|]. rewrite Hd. split; [exact He|lia].
Qed.

(** The energy profile of [clicks]. *)
Definition click_profile : list float := [0; 1; 0; 1; 0; 0; 0; 0; 0; 0].

Lemma winner_is_a_bucket_witness :
  (2 <= length (onsets_of click_profile))%nat
  /\ Z.even (mostCommonInterval_of
               (histogramBins_of
                  (intervals_of (onsets_of click_profile))))
     = true.
Proof.
  assert (H : (2 <= length (onsets_of click_profile))%nat)
    by (vm_compute; lia).
  split; [exact H|].
  apply (winner_is_a_bucket click_profile H).
Defined.

(** ** [Math.round(interval / 2) * 2] in binary64 *)

Lemma Zdigits2_double z : (1 <= z)%Z -> Zdigits2 (2 * z) = (Zdigits2 z + 1)%Z.
Proof.
  intros H. destruct z as [|p|p]; try lia.
  change (2 * Zpos p)%Z with (Zpos p~0). cbn [Zdigits2 digits2_pos].
  rewrite Pos2Z.inj_succ. lia.
Qed.

(** The integer formula of [normalizedInterval] is what the floating-point
    expression of the source computes. *)
Theorem normalizedInterval_binary64 (interval : Z) :
  (1 <= interval < 2 ^ 31)%Z ->
  Math_round (Z2F interval / 2) * 2 = Z2F (normalizedInterval interval).
Proof.
  intros Hi.
  assert (Hi53 : (1 <= interval < 2 ^ 53)%Z).
  { split; [lia|]. apply (Z.lt_trans _ (2 ^ 31)); [lia|reflexivity]. }
  destruct (Z2F_normal interval Hi53) as (M & HN & HM). cbv zeta in *.
  destruct interval as [|p|p]; try lia. cbn [Zdigits2] in *.
  pose proof (digits_le_31 p ltac:(lia)) as Hd.
  set (d := Zpos (digits2_pos p)) in *.
  assert (Hd1 : (1 <= d)%Z) by (unfold d; lia). clearbody d.
  pose proof (half_normal _ _ _ HN ltac:(lia)) as HH.
  destruct (Math_round_normal _ _ _ HH ltac:(lia)) as (n & Hn & _ & En).
  assert (Em : n = ((Zpos p + 1) / 2)%Z).
  { rewrite En, HM.
    replace (- (d - 53 - 1))%Z with (54 - d)%Z by lia.
    replace (54 - d + 1)%Z with (1 + (54 - d))%Z by lia.
    rewrite (Z.pow_add_r 2 1) by lia. change (2 ^ 1)%Z with 2%Z.
    replace (2 * (Zpos p * 2 ^ (53 - d)) + 2 ^ (54 - d))%Z
      with ((Zpos p + 1) * 2 ^ (54 - d))%Z.
    - apply Z.div_mul_cancel_r; [lia|]. apply Z.pow_nonzero; lia.
    - replace (54 - d)%Z with (1 + (53 - d))%Z by lia.
      rewrite (Z.pow_add_r 2 1) by lia. change (2 ^ 1)%Z with 2%Z. ring. }
  rewrite Hn. unfold normalizedInterval. rewrite <- Em.
  clear En.
  assert (Hn1 : (1 <= n)%Z) by (rewrite Em; apply Z.div_le_lower_bound; lia).
  assert (Hn31 : (n < 2 ^ 31)%Z).
  { rewrite Em. apply Z.div_lt_upper_bound; [lia|].
    change (2 ^ 31)%Z with 2147483648%Z in *. lia. }
  assert (Hn53 : (1 <= n < 2 ^ 53)%Z).
  { split; [lia|]. apply (Z.lt_trans _ (2 ^ 31)); [lia|reflexivity]. }
  assert (H2n53 : (1 <= n * 2 < 2 ^ 53)%Z).
  { split; [lia|]. apply (Z.lt_trans _ (2 ^ 32)); [|reflexivity].
    change (2 ^ 31)%Z with 2147483648%Z in *.
    change (2 ^ 32)%Z with 4294967296%Z. lia. }
  destruct (Z2F_normal n Hn53) as (Mn & HNn & HMn).
  destruct (Z2F_normal (n * 2) H2n53) as (M2 & [HP2 _] & HM2).
  cbv zeta in *.
  replace (n * 2)%Z with (2 * n)%Z in HP2, HM2 by lia.
  rewrite Zdigits2_double in HP2, HM2 by lia.
  assert (Zdigits2 n <= 31)%Z.
  { destruct n as [|q|q]; try lia. cbn [Zdigits2]. apply digits_le_31. lia. }
  assert (1 <= Zdigits2 n)%Z by (destruct n; cbn; lia).
  pose proof (double_normal _ _ _ HNn ltac:(lia)) as [HD _].
  apply Prim2SF_inj. replace (n * 2)%Z with (2 * n)%Z by lia.
  rewrite HD, HP2. f_equal; [|lia].
  apply Pos2Z.inj. rewrite HMn, HM2.
  replace (53 - Zdigits2 n)%Z with (1 + (53 - (Zdigits2 n + 1)))%Z by lia.
  rewrite (Z.pow_add_r 2 1) by lia. change (2 ^ 1)%Z with 2%Z. ring.
Qed.

Lemma normalizedInterval_binary64_witness :
  (1 <= 7 < 2 ^ 31)%Z /\ Math_round (Z2F 7 / 2) * 2 = 8.
Proof.
  assert (H : (1 <= 7 < 2 ^ 31)%Z) by (split; [lia|reflexivity]).
  split; [exact H|]. exact (normalizedInterval_binary64 7 H).
Defined.

(** ** A finite tempo *)

Lemma Z2F_finite n : (0 <= n < 2 ^ 53)%Z -> is_finite (Z2F n) = true.
Proof.
  intros Hn. destruct (Z.eq_dec n 0) as [->|Hne]; [reflexivity|].
  destruct (Z2F_normal_range n ltac:(lia)) as (M & E & HN & _).
  exact (normal_finite _ _ _ HN).
Qed.

(** [Math.round] of a positive normal number is finite. *)
Lemma Math_round_finite x M E :
  normal x M E -> is_finite (Math_round x) = true.
Proof.
  intros HN. pose proof HN as [H HM]. unfold Math_round. rewrite H.
  destruct (Z.leb_spec 0 E) as [|Hneg]; [exact (normal_finite _ _ _ HN)|].
  cbn [cond_Zopp]. rewrite Z.shiftr_div_pow2 by lia.
  pose proof (digits_bounds M) as [_ Hu]. rewrite HM in Hu.
  set (k := (- E)%Z) in *.
  assert (Hk : (1 <= k)%Z) by (unfold k; lia). clearbody k.
  assert (P : (2 <= 2 ^ k)%Z) by (apply (Z.pow_le_mono_r 2 1); lia).
  assert (P' : (2 ^ (k + 1) = 2 * 2 ^ k)%Z)
    by (rewrite Z.pow_add_r by lia; change (2 ^ 1)%Z with 2%Z; lia).
  assert (B : (0 <= (2 * Zpos M + 2 ^ k) / 2 ^ (k + 1) < 2 ^ 53)%Z).
  { split; [apply Z.div_pos; lia|].
    apply Z.div_lt_upper_bound; [lia|].
    change (2 ^ 53)%Z with 9007199254740992%Z in *. nia. }
  destruct (Z.eqb_spec ((2 * Zpos M + 2 ^ k) / 2 ^ (k + 1)) 0);
    [reflexivity|].
  apply Z2F_finite. exact B.
Qed.

(** The raw tempo of an interval of [k] windows is a positive normal
    number. *)
Lemma raw_bpm_normal sr k :
  (50 <= sr < 2 ^ 31)%Z -> (1 <= k < 2 ^ 53)%Z ->
  exists M E, normal (raw_bpm sr k) M E /\ (-200 <= E <= 200)%Z.
Proof.
  intros Hsr Hk. unfold raw_bpm. rewrite windowSize_float by trivial.
  assert (Hw : (1 <= sr / 50 < 2 ^ 53)%Z).
  { split; [apply Z.div_le_lower_bound; lia|].
    apply Z.div_lt_upper_bound; [lia|].
    change (2 ^ 31)%Z with 2147483648%Z in Hsr.
    change (2 ^ 53)%Z with 9007199254740992%Z. lia. }
  destruct (Z2F_normal_range _ Hw) as (Mw & Ew & HNw & HEw & _).
  destruct (sample_rate_normal sr ltac:(lia)) as (Ms & Es & HNs & HEs & _).
  destruct (Z2F_normal_range _ Hk) as (Mk & Ek & HNk & HEk & _).
  destruct (div_normal _ _ _ _ _ _ HNw HNs ltac:(lia) ltac:(lia))
    as (Mq & Eq & n & HNq & Hn & HEq & _).
  destruct (mul_normal _ _ _ _ _ _ HNk HNq ltac:(lia) ltac:(lia))
    as (Mp & Ep & n' & HNp & Hn' & HEp & _).
  destruct (div_normal _ _ _ _ _ _ normal_60 HNp ltac:(lia) ltac:(lia))
    as (Mr & Er & n'' & HNr & Hn'' & HEr & _).
  exists Mr, Er. split; [exact HNr|lia].
Qed.

Lemma adjust_bpm_finite b M E :
  normal b M E -> (-200 <= E <= 200)%Z -> is_finite (adjust_bpm b) = true.
Proof.
  intros HN HE.
  rewrite adjust_bpm_cases.
  destruct (240 <? b).
  - eapply Math_round_finite. apply half_normal; [exact HN|lia].
  - destruct (b <? 60).
    + eapply Math_round_finite. apply double_normal; [exact HN|lia].
    + eapply Math_round_finite. exact HN.
Qed.

(** [estimateTempo] returns a finite number exactly when at least two onsets
    are detected (integer sample rate from 50 Hz, below [2^31]; fewer than
    [2^32] samples); otherwise it returns +Infinity. *)
Theorem tempo_finite_iff_two_onsets (b : AudioBuffer) (energyProfile : list float) :
  (50 <= sampleRate b < 2 ^ 31)%Z ->
  (Z.of_nat (bufferLength b) < 2 ^ 32)%Z ->
  energyProfile_of b = Some energyProfile ->
  exists tempo,
    estimateTempo b = Some tempo
    /\ (is_finite tempo = true <-> (2 <= length (onsets_of energyProfile))%nat)
    /\ ((length (onsets_of energyProfile) < 2)%nat -> tempo = infinity).
Proof.
  intros Hsr Hlen Hp. unfold estimateTempo. rewrite Hp.
  eexists. split; [reflexivity|].
  destruct (Nat.lt_ge_cases (length (onsets_of energyProfile)) 2) as [Hlt|Hge].
  - rewrite tempo_of_profile_short, raw_bpm_0 by trivial.
    split; [|reflexivity]. split; [discriminate|lia].
  - split; [|lia]. split; [intros _; exact Hge|intros _].
    destruct (winner_interval _ (intervals_of_onsets_nonempty _ Hge))
      as (d & Hdin & Hd).
    pose proof (interval_distance energyProfile d Hdin) as Hdist.
    destruct (normalizedInterval_range d) as [_ Hr].
    assert (Hk : (2 <= mostCommonInterval_of
                         (histogramBins_of
                            (intervals_of (onsets_of energyProfile)))
                  <= Z.of_nat (length energyProfile) - 2)%Z)
      by (rewrite Hd; lia).
    clear d Hdin Hd Hdist Hr. unfold tempo_of_profile.
    set (k := mostCommonInterval_of _) in *.
    assert (Hpl : (length energyProfile <= bufferLength b)%nat).
    { assert (Hstep : (1 <= count (windowSize (sampleRate b)))%nat).
      { rewrite window_step_eq, fifty by lia.
        assert (1 <= sampleRate b / 50)%Z
          by (apply Z.div_le_lower_bound; lia).
        lia. }
      pose proof (energyProfile_of_windows b Hstep) as HP.
      rewrite Hp in HP. injection HP as ->.
      rewrite length_map, length_seq. unfold ceil_div.
      set (w := count (windowSize (sampleRate b))) in *.
      destruct (Nat.eq_dec (bufferLength b) 0) as [E|NE].
      - rewrite E. rewrite Nat.div_small by lia. lia.
      - apply Nat.lt_succ_r. apply Nat.Div0.div_lt_upper_bound. nia. }
    assert (Hk53 : (1 <= k < 2 ^ 53)%Z).
    { split; [lia|]. apply (Z.lt_trans _ (2 ^ 32)); [lia|reflexivity]. }
    destruct (raw_bpm_normal (sampleRate b) k Hsr Hk53) as (M & E & HN & HE).
    exact (adjust_bpm_finite _ _ _ HN HE).
Qed.

Lemma tempo_finite_iff_two_onsets_witness :
  (50 <= sampleRate clicks < 2 ^ 31)%Z
  /\ (Z.of_nat (bufferLength clicks) < 2 ^ 32)%Z
  /\ energyProfile_of clicks = Some click_profile
  /\ exists tempo,
       estimateTempo clicks = Some tempo
       /\ (is_finite tempo = true <-> (2 <= length (onsets_of click_profile))%nat)
       /\ ((length (onsets_of click_profile) < 2)%nat -> tempo = infinity).
Proof.
  assert (H1 : (50 <= sampleRate clicks < 2 ^ 31)%Z)
    by (cbn; split; [lia|reflexivity]).
  assert (H2 : (Z.of_nat (bufferLength clicks) < 2 ^ 32)%Z)
    by (vm_compute; reflexivity).
  assert (H3 : energyProfile_of clicks = Some click_profile)
    by (vm_compute; reflexivity).
  split; [exact H1|]. split; [exact H2|]. split; [exact H3|].
  exact (tempo_finite_iff_two_onsets clicks click_profile H1 H2 H3).
Defined.

(** ** Constant buffers *)













(** ** Exact integer arithmetic *)

Section Exact.

Local Open Scope Z_scope.

(** The representation of a positive integer below [2^53]. *)
Lemma Z2F_repr z :
  1 <= z < 2 ^ 53 ->
  exists M d,
    1 <= d <= 53 /\ 2 ^ (d - 1) <= z < 2 ^ d
    /\ normal (Z2F z) M (d - 53) /\ Zpos M = z * 2 ^ (53 - d).
Proof.
  intros Hz. destruct (Z2F_normal z Hz) as (M & HN & HM). cbv zeta in *.
  destruct z as [|p|p]; try lia. cbn [Zdigits2] in *.
  pose proof (digits_le_53 p ltac:(lia)).
  pose proof (digits_bounds p).
  exists M, (Zpos (digits2_pos p)). repeat split; trivial; try lia; apply HN.
Qed.

Lemma digits_of_product a b da db dab :
  1 <= da -> 1 <= db -> 1 <= dab ->
  2 ^ (da - 1) <= a < 2 ^ da -> 2 ^ (db - 1) <= b < 2 ^ db ->
  2 ^ (dab - 1) <= a * b < 2 ^ dab ->
  da + db - 1 <= dab <= da + db.
Proof.
  intros Hda Hdb Hdab Ha Hb Hab.
  assert (L : 2 ^ (da + db - 2) <= a * b).
  { replace (da + db - 2) with ((da - 1) + (db - 1)) by lia.
    rewrite pow2_split by lia.
    assert (0 < 2 ^ (da - 1)) by (apply Z.pow_pos_nonneg; lia).
    assert (0 < 2 ^ (db - 1)) by (apply Z.pow_pos_nonneg; lia). nia. }
  assert (U : a * b < 2 ^ (da + db)).
  { rewrite pow2_split by lia.
    assert (0 < 2 ^ (da - 1)) by (apply Z.pow_pos_nonneg; lia).
    assert (0 < 2 ^ (db - 1)) by (apply Z.pow_pos_nonneg; lia). nia. }
  split.
  - assert (da + db - 2 < dab); [|lia].
    apply (Z.pow_lt_mono_r_iff 2); lia.
  - assert (dab - 1 < da + db); [|lia].
    apply (Z.pow_lt_mono_r_iff 2); lia.
Qed.

Lemma pow2_prod_eq x y u v :
  0 <= x -> 0 <= y -> 0 <= u -> 0 <= v -> x + y = u + v ->
  2 ^ x * 2 ^ y = 2 ^ u * 2 ^ v.
Proof. intros. rewrite <- !pow2_split by trivial. f_equal. trivial. Qed.

(** A product of integers that stays below [2^53] is exact. *)
Lemma Z2F_mul_exact a b :
  1 <= a -> 1 <= b -> a * b < 2 ^ 53 ->
  (Z2F a * Z2F b)%float = Z2F (a * b).
Proof.
  intros Ha Hb Hab.
  assert (Ha53 : a < 2 ^ 53) by nia. assert (Hb53 : b < 2 ^ 53) by nia.
  destruct (Z2F_repr a ltac:(lia)) as (Ma & da & Hda & Ba & [HPa HDa] & HMa).
  destruct (Z2F_repr b ltac:(lia)) as (Mb & db & Hdb & Bb & [HPb HDb] & HMb).
  destruct (Z2F_repr (a * b) ltac:(nia))
    as (Mc & dc & Hdc & Bc & [HPc HDc] & HMc).
  pose proof (digits_of_product a b da db dc ltac:(lia) ltac:(lia) ltac:(lia)
                Ba Bb Bc) as Hd.
  apply Prim2SF_inj. rewrite mul_spec, HPa, HPb, HPc.
  unfold SF64mul, SFmul. cbn [xorb].
  rewrite (binary_round_aux_exact false Mc (53 + dc - da - db)
             (da - 53 + (db - 53))); trivial; try lia.
  - f_equal. lia.
  - rewrite Pos2Z.inj_mul, HMa, HMb, HMc.
    transitivity (a * b * (2 ^ (53 - da) * 2 ^ (53 - db))); [ring|].
    transitivity (a * b * (2 ^ (53 - dc) * 2 ^ (53 + dc - da - db)));
      [|ring].
    f_equal. apply pow2_prod_eq; lia.
Qed.

Lemma new_location_0 nb : new_location nb 0 = loc_Exact.
Proof.
  unfold new_location, new_location_even, new_location_odd.
  destruct (Z.even nb); reflexivity.
Qed.

(** An integer quotient without remainder is exact. *)
Lemma Z2F_div_exact a b :
  1 <= a -> 1 <= b -> a * b < 2 ^ 53 ->
  (Z2F (a * b) / Z2F b)%float = Z2F a.
Proof.
  intros Ha Hb Hab.
  assert (Ha53 : a < 2 ^ 53) by nia. assert (Hb53 : b < 2 ^ 53) by nia.
  destruct (Z2F_repr a ltac:(lia)) as (Ma & da & Hda & Ba & [HPa HDa] & HMa).
  destruct (Z2F_repr b ltac:(lia)) as (Mb & db & Hdb & Bb & [HPb HDb] & HMb).
  destruct (Z2F_repr (a * b) ltac:(nia))
    as (Mc & dc & Hdc & Bc & [HPc HDc] & HMc).
  pose proof (digits_of_product a b da db dc ltac:(lia) ltac:(lia) ltac:(lia)
                Ba Bb Bc) as Hd.
  apply Prim2SF_inj. rewrite div_spec, HPa, HPb, HPc.
  unfold SF64div, SFdiv. rewrite div_core_normal by (trivial; lia).
  cbn [xorb].
  assert (Eq : Zpos Mc * 2 ^ 53 = Zpos Ma * 2 ^ (da + db - dc) * Zpos Mb).
  { rewrite HMa, HMb, HMc.
    transitivity (a * b * (2 ^ (53 - dc) * 2 ^ 53)); [ring|].
    transitivity
      (a * b * (2 ^ (53 - da) * 2 ^ (da + db - dc) * 2 ^ (53 - db)));
      [|ring].
    f_equal. rewrite <- (pow2_split (53 - da) (da + db - dc)) by lia.
    apply pow2_prod_eq; lia. }
  rewrite Eq, Z.div_mul, Z.mod_mul by lia. rewrite new_location_0.
  assert (P : 0 < 2 ^ (da + db - dc)) by (apply Z.pow_pos_nonneg; lia).
  destruct (Zpos Ma * 2 ^ (da + db - dc)) as [|q|q] eqn:Eqq; try lia.
  rewrite (binary_round_aux_exact false Ma (da + db - dc)
             (dc - 53 - (db - 53) - 53)); trivial; try lia.
  f_equal. lia.
Qed.

(** [Math.round] leaves an integer unchanged. *)
Lemma Math_round_Z2F n :
  1 <= n < 2 ^ 53 -> Math_round (Z2F n) = Z2F n.
Proof.
  intros Hn.
  destruct (Z2F_repr n Hn) as (M & d & Hd & B & HN & HM).
  destruct (Z.eq_dec d 53) as [->|Hne].
  - destruct HN as [HP _]. unfold Math_round. rewrite HP. reflexivity.
  - destruct (Math_round_normal _ _ _ HN ltac:(lia)) as (r & Hr & _ & Er).
    rewrite Hr. f_equal. rewrite Er, HM.
    replace (- (d - 53)) with (53 - d) by lia.
    rewrite (Z.pow_add_r 2 (53 - d) 1) by lia. change (2 ^ 1) with 2.
    replace (2 * (n * 2 ^ (53 - d)) + 2 ^ (53 - d))
      with (2 ^ (53 - d) * (2 * n + 1)) by ring.
    rewrite Z.div_mul_cancel_l; [|lia|apply Z.pow_nonzero; lia].
    replace (2 * n + 1) with (1 + n * 2) by lia.
    rewrite Z.div_add by lia. reflexivity.
Qed.

(** When the lag divides the sample rate the frequency is the exact
    quotient. *)
Lemma frequency_of_exact f k :
  1 <= f -> (1 <= k)%nat -> f * Z.of_nat k < 2 ^ 31 ->
  frequency_of (f * Z.of_nat k) k = Z2F f.
Proof.
  intros Hf Hk Hfk. unfold frequency_of, of_nat.
  assert (B31 : 2 ^ 31 = 2147483648) by reflexivity.
  assert (B53 : 2 ^ 53 = 9007199254740992) by reflexivity.
  assert (Hf31 : f < 2 ^ 31) by nia.
  rewrite Z2F_div_exact by first [lia | rewrite B53; lia].
  change 10%float with (Z2F 10).
  rewrite Z2F_mul_exact by first [lia | rewrite B53; lia].
  rewrite Math_round_Z2F by (rewrite B53; lia).
  apply Z2F_div_exact; first [lia | rewrite B53; lia].
Qed.

End Exact.

(** When the selected lag divides the sample rate, the pitch returned is
    their exact quotient: the rounding to 0.1 Hz changes nothing. *)
Theorem detectPitch_exact_quotient (b : AudioBuffer) (f : Z) :
  (1 <= sampleRate b < 2 ^ 31)%Z ->
  sampleRate b = (f * Z.of_nat (peakIndex_of (correlations b)))%Z ->
  detectPitch b = Z2F f.
Proof.
  intros Hsr Hf. unfold detectPitch.
  pose proof (peakIndex_bounds (correlations b)) as Hp.
  set (k := peakIndex_of (correlations b)) in *.
  rewrite Hf. apply frequency_of_exact; nia.
Qed.

(** At a sample rate that is a multiple of 60 (44100, 48000, 96000) a
    silent buffer is reported as exactly 60 Hz. *)
Theorem silence_is_60_Hz (b : AudioBuffer) (m : Z) :
  (1 <= m)%Z -> sampleRate b = (60 * m)%Z -> (sampleRate b < 2 ^ 31)%Z ->
  silent (channelData b) ->
  detectPitch b = 60.
Proof.
  intros Hm Hsr H31 Hs. rewrite silent_detectPitch by trivial.
  rewrite maxLag_eq by lia. rewrite Hsr.
  replace (60 * m)%Z with (m * 60)%Z by lia. rewrite Z.div_mul by lia.
  replace (m * 60)%Z with (60 * Z.of_nat (Nat.max 1 (Z.to_nat m)))%Z by lia.
  change 60 with (Z2F 60). apply frequency_of_exact; lia.
Qed.

Lemma silence_is_60_Hz_witness :
  (1 <= 735)%Z /\ sampleRate silent_second = (60 * 735)%Z
  /\ detectPitch silent_second = 60.
Proof.
  split; [lia|]. split; [reflexivity|].
  apply (silence_is_60_Hz silent_second 735); try reflexivity; try lia.
  apply silence_silent.
Defined.

Lemma detectPitch_exact_quotient_witness :
  (1 <= sampleRate two_impulses < 2 ^ 31)%Z
  /\ peakIndex_of (correlations two_impulses) = 1%nat
  /\ detectPitch two_impulses = 8000.
Proof.
  assert (H : (1 <= sampleRate two_impulses < 2 ^ 31)%Z)
    by (cbn; split; [lia|reflexivity]).
  assert (P : peakIndex_of (correlations two_impulses) = 1%nat)
    by (vm_compute; reflexivity).
  split; [exact H|]. split; [exact P|].
  apply (detectPitch_exact_quotient two_impulses 8000 H).
  rewrite P. reflexivity.
Defined.

(** ** Samples that are not finite *)

(** +Infinity or NaN: what a sum of squares becomes once a term is not
    finite. *)
Definition inf_or_nan (x : float) : Prop := x = infinity \/ x = nan.

Lemma inf_or_nan_SF x :
  inf_or_nan x <->
  Prim2SF x = S754_infinity false \/ Prim2SF x = S754_nan.
Proof.
  unfold inf_or_nan. split.
  - intros [->| ->]; [left|right]; reflexivity.
  - intros [H|H]; [left|right]; apply Prim2SF_inj; rewrite H; reflexivity.
Qed.

Lemma sq_not_finite x : is_finite x = false -> inf_or_nan (x * x).
Proof.
  unfold is_finite. rewrite inf_or_nan_SF, mul_spec.
  destruct (Prim2SF x) as [s|[]| |s m e]; try discriminate; cbn; auto.
Qed.

Lemma add_inf_or_nan_l x y : inf_or_nan x -> inf_or_nan (x + y).
Proof.
  rewrite !inf_or_nan_SF, add_spec.
  intros [-> | ->]; destruct (Prim2SF y) as [[]|[]| |[] m e]; cbn; auto.
Qed.

Lemma add_inf_or_nan_r x y : inf_or_nan y -> inf_or_nan (x + y).
Proof.
  rewrite !inf_or_nan_SF, add_spec.
  intros [-> | ->]; destruct (Prim2SF x) as [[]|[]| |[] m e]; cbn; auto.
Qed.

Lemma div_inf_or_nan x y M E :
  inf_or_nan x -> Prim2SF y = S754_finite false M E -> inf_or_nan (x / y).
Proof.
  rewrite !inf_or_nan_SF, div_spec. intros [-> | ->] ->; cbn; auto.
Qed.

Lemma sqrt_inf_or_nan x : inf_or_nan x -> inf_or_nan (PrimFloat.sqrt x).
Proof.
  rewrite !inf_or_nan_SF, sqrt_spec. intros [-> | ->]; cbn; auto.
Qed.

Lemma sub_inf_or_nan x : inf_or_nan x -> x - infinity = nan.
Proof. intros [-> | ->]; reflexivity. Qed.

Lemma add_nan_r x : x + nan = nan.
Proof.
  apply Prim2SF_inj. rewrite add_spec. change (Prim2SF nan) with S754_nan.
  destruct (Prim2SF x) as [[]|[]| |[] m e]; reflexivity.
Qed.

Lemma add_nan_l x : nan + x = nan.
Proof.
  apply Prim2SF_inj. rewrite add_spec. change (Prim2SF nan) with S754_nan.
  reflexivity.
Qed.

Lemma div_nan_l x : nan / x = nan.
Proof.
  apply Prim2SF_inj. rewrite div_spec. change (Prim2SF nan) with S754_nan.
  reflexivity.
Qed.

(** A sum in which some term is +Infinity or NaN. *)
Lemma sum_inf_or_nan (l : list float) : forall acc,
  inf_or_nan acc \/ Exists inf_or_nan l ->
  inf_or_nan (fold_left (fun acc val => acc + val) l acc).
Proof.
  induction l as [|y l IH]; intros acc [H|H]; cbn [fold_left]; trivial.
  - inversion H.
  - apply IH. left. apply add_inf_or_nan_l. exact H.
  - apply IH. inversion H; subst.
    + left. apply add_inf_or_nan_r. trivial.
    + right. trivial.
Qed.

Lemma sum_nan (l : list float) : forall acc,
  acc = nan \/ In nan l ->
  fold_left (fun acc val => acc + val) l acc = nan.
Proof.
  induction l as [|y l IH]; intros acc [H|H]; cbn [fold_left]; trivial.
  - destruct H.
  - apply IH. left. subst acc. apply add_nan_l.
  - apply IH. destruct H as [->|H].
    + left. apply add_nan_r.
    + right. exact H.
Qed.

(** The threshold of a profile with an entry that is +Infinity or NaN is
    NaN: the mean is infinite, and the deviation of that entry from it is
    [Infinity - Infinity]. *)
Lemma calculateDynamicThreshold_nan p x :
  (Z.of_nat (length p) < 2 ^ 53)%Z ->
  In x p -> inf_or_nan x -> calculateDynamicThreshold p = nan.
Proof.
  intros Hlen Hin Hx. unfold calculateDynamicThreshold.
  assert (Hp : (1 <= length p)%nat) by (destruct p; [destruct Hin|cbn; lia]).
  destruct (Z2F_normal (Z.of_nat (length p)) ltac:(lia)) as (M & [HM _] & _).
  fold (of_nat (length p)) in HM.
  set (sum := fold_left _ p 0).
  assert (Hsum : inf_or_nan sum).
  { apply sum_inf_or_nan. right. apply Exists_exists. eauto. }
  pose proof (div_inf_or_nan _ _ _ _ Hsum HM) as Hmean.
  set (mean := sum / of_nat (length p)) in *.
  destruct Hmean as [Hm|Hm].
  - rewrite sum_nan.
    + rewrite div_nan_l, Hm. reflexivity.
    + right. apply in_map_iff. exists x. split; trivial.
      rewrite Hm, sub_inf_or_nan by trivial. reflexivity.
  - rewrite Hm. apply add_nan_l.
Qed.

Lemma onsets_of_nan_threshold p :
  calculateDynamicThreshold p = nan -> onsets_of p = [].
Proof.
  intros H. unfold onsets_of. rewrite H.
  induction (seq 1 (length p - 2)) as [|i l IH]; cbn [filter]; trivial.
  unfold is_onset at 1. rewrite nan_ltb_l. cbn [andb]. exact IH.
Qed.

Lemma fold_left_terms (g : nat -> float) (l : list nat) : forall acc,
  fold_left (fun sum j => sum + g j) l acc
  = fold_left (fun acc val => acc + val) (map g l) acc.
Proof. induction l as [|j l IH]; intros acc; cbn; trivial. Qed.

(** The energy of a window that holds a sample which is not finite. *)
Lemma window_rms_not_finite data i limit j :
  (i <= j < limit)%nat -> (Z.of_nat (limit - i) < 2 ^ 53)%Z ->
  is_finite (get data j) = false ->
  inf_or_nan (window_rms data i limit).
Proof.
  intros Hj Hlen Hx. unfold window_rms.
  destruct (Z2F_normal (Z.of_nat (limit - i)) ltac:(lia)) as (M & [HM _] & _).
  apply sqrt_inf_or_nan. eapply div_inf_or_nan; [|exact HM].
  rewrite (fold_left_terms (fun j => get data j * get data j)).
  apply sum_inf_or_nan. right. apply Exists_exists.
  exists (get data j * get data j). split.
  - apply (in_map (fun j => get data j * get data j)). apply in_seq. lia.
  - apply sq_not_finite. exact Hx.
Qed.

(** One sample that is NaN or infinite makes the threshold NaN: no window
    is an onset and [estimateTempo] returns +Infinity, whatever the other
    samples are. *)
Theorem non_finite_sample_tempo (b : AudioBuffer) (x : float) :
  (50 <= sampleRate b < 2 ^ 31)%Z ->
  (Z.of_nat (bufferLength b) < 2 ^ 53)%Z ->
  In x (channelData b) -> is_finite x = false ->
  exists energyProfile,
    energyProfile_of b = Some energyProfile
    /\ calculateDynamicThreshold energyProfile = nan
    /\ onsets_of energyProfile = []
    /\ estimateTempo b = Some infinity.
Proof.
  intros Hsr Hlen Hin Hx.
  assert (Hw : count (windowSize (sampleRate b))
               = Z.to_nat (sampleRate b / 50))
    by (rewrite window_step_eq, fifty by lia; reflexivity).
  assert (H1 : (1 <= sampleRate b / 50)%Z)
    by (apply Z.div_le_lower_bound; lia).
  pose proof (energyProfile_of_windows b) as HP. cbv zeta in HP.
  rewrite Hw in HP. specialize (HP ltac:(lia)).
  set (w := Z.to_nat (sampleRate b / 50)) in *.
  assert (Hw1 : (1 <= w)%nat) by (unfold w; lia).
  set (data := channelData b) in *. unfold bufferLength in *. fold data in Hlen, HP.
  set (p := map (window_at data w) (seq 0 (ceil_div (length data) w))) in *.
  destruct (In_nth _ _ nan Hin) as (j & Hj & Ej).
  assert (Hk : (j / w < ceil_div (length data) w)%nat).
  { unfold ceil_div.
    assert (j / w + 1 <= (length data + w - 1) / w)%nat; [|lia].
    apply Nat.div_le_lower_bound; [lia|].
    pose proof (Nat.div_mod_eq j w) as D. nia. }
  assert (Hwin : inf_or_nan (window_at data w (j / w))).
  { unfold window_at. apply (window_rms_not_finite _ _ _ j).
    - pose proof (Nat.div_mod_eq j w) as D'.
      pose proof (Nat.mod_upper_bound j w ltac:(lia)). lia.
    - lia.
    - unfold get. rewrite Ej. exact Hx. }
  assert (Hinp : In (window_at data w (j / w)) p).
  { unfold p. apply in_map. apply in_seq. lia. }
  assert (Hlp : (Z.of_nat (length p) < 2 ^ 53)%Z).
  { unfold p. rewrite length_map, length_seq.
    assert (ceil_div (length data) w <= length data)%nat; [|lia].
    unfold ceil_div. apply Nat.Div0.div_le_upper_bound. nia. }
  pose proof (calculateDynamicThreshold_nan p _ Hlp Hinp Hwin) as Ht.
  pose proof (onsets_of_nan_threshold p Ht) as Ho.
  exists p. split; [exact HP|]. split; [exact Ht|]. split; [exact Ho|].
  unfold estimateTempo. rewrite HP.
  rewrite tempo_of_profile_short by (rewrite Ho; cbn; lia).
  rewrite raw_bpm_0 by trivial. reflexivity.
Qed.

(** Two beats, with one NaN sample in the first window. *)
Definition glitch : AudioBuffer :=
  {| sampleRate := 8000;
     channelData := nan :: repeat 0 159 ++ channelData clicks |}.

Lemma non_finite_sample_tempo_witness :
  (50 <= sampleRate glitch < 2 ^ 31)%Z
  /\ (Z.of_nat (bufferLength glitch) < 2 ^ 53)%Z
  /\ In nan (channelData glitch) /\ is_finite nan = false
  /\ exists energyProfile,
       energyProfile_of glitch = Some energyProfile
       /\ calculateDynamicThreshold energyProfile = nan
       /\ onsets_of energyProfile = []
       /\ estimateTempo glitch = Some infinity.
Proof.
  assert (H1 : (50 <= sampleRate glitch < 2 ^ 31)%Z)
    by (cbn; split; [lia|reflexivity]).
  assert (H2 : (Z.of_nat (bufferLength glitch) < 2 ^ 53)%Z)
    by (vm_compute; reflexivity).
  assert (H3 : In nan (channelData glitch)) by (left; reflexivity).
  assert (H4 : is_finite nan = false) by reflexivity.
  split; [exact H1|]. split; [exact H2|]. split; [exact H3|].
  split; [exact H4|].
  exact (non_finite_sample_tempo glitch nan H1 H2 H3 H4).
Defined.

(** ** The range of the pitch *)

Section Range.

Local Open Scope Z_scope.

(** A positive normal number with a non-positive exponent whose value
    [M * 2^E] lies between the integers [lo] and [hi]. *)
Definition between (x : float) (lo hi : Z) : Prop :=
  exists M E, normal x M E /\ E <= 0
              /\ lo * 2 ^ (- E) <= Zpos M <= hi * 2 ^ (- E).

Lemma pow2_pos k : 0 <= k -> 0 < 2 ^ k.
Proof. intros. apply Z.pow_pos_nonneg; lia. Qed.

Lemma pow2_succ k : 0 <= k -> 2 ^ (k + 1) = 2 * 2 ^ k.
Proof. intros. rewrite Z.pow_add_r by lia. change (2 ^ 1) with 2. lia. Qed.

Lemma pow2_lt_inv j k : 0 <= k -> 2 ^ j < 2 ^ k -> j < k.
Proof. intros Hk H. apply (Z.pow_lt_mono_r_iff 2); trivial; lia. Qed.

(** An integer is between its bounds. *)
Lemma between_Z2F c lo hi :
  lo <= c <= hi -> 1 <= c < 2 ^ 53 -> between (Z2F c) lo hi.
Proof.
  intros Hc Hc53.
  destruct (Z2F_repr c Hc53) as (M & d & Hd & B & HN & HM).
  exists M, (d - 53). split; [exact HN|]. split; [lia|].
  replace (- (d - 53)) with (53 - d) by lia. rewrite HM.
  pose proof (pow2_pos (53 - d) ltac:(lia)). nia.
Qed.

(** The mantissa of a normal number determines its exponent. *)
Lemma between_exponent M E lo hi :
  Zpos (digits2_pos M) = 53 -> E <= 0 -> 1 <= lo ->
  lo * 2 ^ (- E) <= Zpos M <= hi * 2 ^ (- E) ->
  forall k, 0 <= k -> hi < 2 ^ k -> - 53 < E <= k - 53.
Proof.
  intros HM HE Hlo [Hl Hu] k Hk Hhi.
  pose proof (digits_bounds M) as [L U]. rewrite HM in L, U.
  change (53 - 1) with 52 in L.
  pose proof (pow2_pos (- E) ltac:(lia)) as P.
  split.
  - assert (2 ^ (- E) < 2 ^ 53) by nia.
    apply pow2_lt_inv in H; lia.
  - assert (H : 2 ^ 52 < 2 ^ (k + - E)).
    { rewrite pow2_split by lia. nia. }
    apply pow2_lt_inv in H; lia.
Qed.

(** A value that is exactly an integer is that integer. *)
Lemma normal_integer x M E c :
  normal x M E -> E <= 0 -> 1 <= c -> Zpos M = c * 2 ^ (- E) -> x = Z2F c.
Proof.
  intros [HP HM] HE Hc Heq.
  pose proof (digits_bounds M) as [L U]. rewrite HM in L, U.
  change (53 - 1) with 52 in L.
  pose proof (pow2_pos (- E) ltac:(lia)) as P.
  assert (Hc53 : c < 2 ^ 53) by nia.
  destruct (Z2F_repr c ltac:(lia)) as (M' & d & Hd & B & [HP' HM'] & HM2).
  assert (Ed : d - 53 = E).
  { rewrite Heq in L, U.
    destruct (Z.lt_trichotomy (53 - d) (- E)) as [Hlt|[Heq'|Hgt]]; [|lia|].
    - exfalso.
      assert (2 ^ (53 - d + 1) <= 2 ^ (- E)) by (apply Z.pow_le_mono_r; lia).
      rewrite pow2_succ in H by lia.
      pose proof (digits_bounds M') as [L' U']. rewrite HM' in L', U'.
      rewrite HM2 in U'. nia.
    - exfalso.
      assert (2 ^ (- E + 1) <= 2 ^ (53 - d)) by (apply Z.pow_le_mono_r; lia).
      rewrite pow2_succ in H by lia.
      pose proof (digits_bounds M') as [L' U']. rewrite HM' in L', U'.
      rewrite HM2 in U'. nia. }
  apply Prim2SF_inj. rewrite HP, HP'. rewrite Ed. f_equal.
  apply Pos2Z.inj. rewrite Heq, HM2. f_equal. f_equal. lia.
Qed.

(** From a faithful rounding to bounds on the rounded value. *)
Lemma faithful_between t v e0 E lo hi :
  e0 <= E <= e0 + 1 -> E <= 0 ->
  t <= v * 2 ^ (E - e0) <= t + 1 ->
  lo * 2 ^ (- e0) <= t -> t + 1 <= hi * 2 ^ (- e0) ->
  lo * 2 ^ (- E) <= v <= hi * 2 ^ (- E).
Proof.
  intros HE HE0 Hv Hl Hu.
  destruct (Z.eq_dec E e0) as [->|Hne].
  - rewrite Z.sub_diag in Hv. change (2 ^ 0) with 1 in Hv. lia.
  - assert (E = e0 + 1) by lia. subst E.
    replace (e0 + 1 - e0) with 1 in Hv by lia. change (2 ^ 1) with 2 in Hv.
    replace (- e0) with (- (e0 + 1) + 1) in Hl, Hu by lia.
    rewrite pow2_succ in Hl, Hu by lia.
    pose proof (pow2_pos (- (e0 + 1)) ltac:(lia)). nia.
Qed.

(** The quotient of two integers lies between the integer bounds of the
    exact quotient. *)
Lemma div_between a b lo hi :
  1 <= b -> 1 <= lo -> lo * b <= a <= hi * b -> a < 2 ^ 52 ->
  between (Z2F a / Z2F b) lo hi.
Proof.
  intros Hb Hlo [Hl Hu] Ha.
  assert (B52 : 2 ^ 52 = 4503599627370496) by reflexivity.
  assert (B53 : 2 ^ 53 = 9007199254740992) by reflexivity.
  assert (Ha1 : 1 <= a) by nia.
  assert (Hb53 : b < 2 ^ 53) by nia.
  destruct (Z.eq_dec a (hi * b)) as [Heq|Hne].
  { subst a. rewrite Z2F_div_exact by (try lia; nia).
    apply between_Z2F; [nia|]. nia. }
  assert (Hlt : a < hi * b) by lia. clear Hu Hne.
  destruct (Z2F_repr a ltac:(lia)) as (Ma & da & Hda & Ba & HNa & HMa).
  destruct (Z2F_repr b ltac:(lia)) as (Mb & db & Hdb & Bb & HNb & HMb).
  assert (Hda52 : da <= 52).
  { assert (2 ^ (da - 1) < 2 ^ 52) by lia.
    apply pow2_lt_inv in H; lia. }
  destruct (div_normal _ _ _ _ _ _ HNa HNb ltac:(lia) ltac:(lia))
    as (M & E & n & HN & Hn & HE & Ht).
  cbv zeta in Ht.
  set (e0 := da - 53 - (db - 53) - 53 + n) in *.
  exists M, E. split; [exact HN|]. split; [lia|].
  pose proof (pow2_pos (53 - da) ltac:(lia)) as Pa.
  pose proof (pow2_pos (53 - db) ltac:(lia)) as Pb.
  pose proof (pow2_pos n ltac:(lia)) as Pn.
  pose proof (pow2_pos (- e0) ltac:(unfold e0; lia)) as Pe.
  assert (EQ : 2 ^ (53 - db) * 2 ^ n * 2 ^ (- e0) = 2 ^ (53 - da) * 2 ^ 53).
  { rewrite <- (pow2_split (53 - db) n) by lia.
    apply pow2_prod_eq; unfold e0; lia. }
  rewrite Z.div_div in Ht by lia.
  apply (faithful_between _ _ e0 E lo hi) in Ht; trivial; try lia.
  - apply Z.div_le_lower_bound; [lia|].
    rewrite HMa, HMb.
    replace (b * 2 ^ (53 - db) * 2 ^ n * (lo * 2 ^ (- e0)))
      with (lo * b * (2 ^ (53 - db) * 2 ^ n * 2 ^ (- e0))) by ring.
    rewrite EQ.
    replace (a * 2 ^ (53 - da) * 2 ^ 53) with (a * (2 ^ (53 - da) * 2 ^ 53))
      by ring.
    apply Z.mul_le_mono_nonneg_r; [lia|exact Hl].
  - assert (Zpos Ma * 2 ^ 53 / (Zpos Mb * 2 ^ n) < hi * 2 ^ (- e0)); [|lia].
    apply Z.div_lt_upper_bound; [lia|].
    rewrite HMa, HMb.
    replace (b * 2 ^ (53 - db) * 2 ^ n * (hi * 2 ^ (- e0)))
      with (hi * b * (2 ^ (53 - db) * 2 ^ n * 2 ^ (- e0))) by ring.
    rewrite EQ.
    replace (a * 2 ^ (53 - da) * 2 ^ 53) with (a * (2 ^ (53 - da) * 2 ^ 53))
      by ring.
    apply Z.mul_lt_mono_pos_r; [lia|exact Hlt].
Qed.

(** Scaling by 10 scales the bounds. *)
Lemma mul10_between x lo hi :
  between x lo hi -> 1 <= lo -> hi < 2 ^ 48 ->
  between (x * 10)%float (10 * lo) (10 * hi).
Proof.
  intros (M & E & HN & HE & Hl & Hu) Hlo Hhi.
  assert (B48 : 2 ^ 48 = 281474976710656) by reflexivity.
  assert (B53 : 2 ^ 53 = 9007199254740992) by reflexivity.
  pose proof (pow2_pos (- E) ltac:(lia)) as P.
  assert (Hlh : lo <= hi) by nia.
  destruct (Z.eq_dec (Zpos M) (hi * 2 ^ (- E))) as [Heq|Hne].
  { rewrite (normal_integer x M E hi HN HE ltac:(lia) Heq).
    change 10%float with (Z2F 10).
    rewrite Z2F_mul_exact by lia.
    apply between_Z2F; lia. }
  assert (Hlt : Zpos M < hi * 2 ^ (- E)) by lia. clear Hu Hne.
  pose proof HN as [_ HM].
  pose proof (between_exponent M E lo hi HM HE Hlo
                (conj Hl (Z.lt_le_incl _ _ Hlt)) 48 ltac:(lia) Hhi) as HE'.
  destruct (mul_normal _ _ _ _ _ _ HN normal_10 ltac:(lia) ltac:(lia))
    as (M' & E' & n & HN' & Hn & HEn & Ht).
  cbv zeta in Ht.
  set (e0 := E + -49 + n) in *.
  exists M', E'. split; [exact HN'|]. split; [unfold e0 in HEn; lia|].
  pose proof (pow2_pos n ltac:(lia)) as Pn.
  pose proof (pow2_pos (- e0) ltac:(unfold e0; lia)) as Pe.
  assert (EQ : 2 ^ n * 2 ^ (- e0) = 2 ^ (- E) * 2 ^ 49).
  { apply pow2_prod_eq; unfold e0; lia. }
  assert (E10 : 5629499534213120 = 10 * 2 ^ 49) by reflexivity.
  apply (faithful_between _ _ e0 E' (10 * lo) (10 * hi)) in Ht; trivial;
    try (unfold e0 in *; lia).
  - apply Z.div_le_lower_bound; [lia|].
    replace (2 ^ n * (10 * lo * 2 ^ (- e0)))
      with (10 * lo * (2 ^ n * 2 ^ (- e0))) by ring.
    rewrite EQ, E10.
    replace (10 * lo * (2 ^ (- E) * 2 ^ 49))
      with (lo * 2 ^ (- E) * (10 * 2 ^ 49)) by ring.
    apply Z.mul_le_mono_nonneg_r; [lia|exact Hl].
  - assert (Zpos M * 5629499534213120 / 2 ^ n < 10 * hi * 2 ^ (- e0)); [|lia].
    apply Z.div_lt_upper_bound; [lia|].
    replace (2 ^ n * (10 * hi * 2 ^ (- e0)))
      with (10 * hi * (2 ^ n * 2 ^ (- e0))) by ring.
    rewrite EQ, E10.
    replace (10 * hi * (2 ^ (- E) * 2 ^ 49))
      with (hi * 2 ^ (- E) * (10 * 2 ^ 49)) by ring.
    apply Z.mul_lt_mono_pos_r; [lia|exact Hlt].
Qed.

(** [Math.round] keeps integer bounds. *)
Lemma round_between y lo hi :
  between y lo hi -> 1 <= lo -> hi < 2 ^ 52 ->
  exists n, Math_round y = Z2F n /\ lo <= n <= hi.
Proof.
  intros (M & E & HN & HE & Hl & Hu) Hlo Hhi.
  pose proof HN as [_ HM].
  pose proof (between_exponent M E lo hi HM HE Hlo (conj Hl Hu) 52
                ltac:(lia) Hhi) as HE'.
  destruct (Math_round_normal _ _ _ HN ltac:(lia)) as (n & Hn & _ & En).
  exists n. split; [exact Hn|].
  pose proof (pow2_pos (- E) ltac:(lia)) as P.
  rewrite pow2_succ in En by lia. subst n. split.
  - apply Z.div_le_lower_bound; [lia|]. nia.
  - assert ((2 * Zpos M + 2 ^ (- E)) / (2 * 2 ^ (- E)) < hi + 1); [|lia].
    apply Z.div_lt_upper_bound; [lia|]. nia.
Qed.

(** Bounds on the value are bounds in the order of the numbers. *)
Lemma between_leb x lo hi :
  between x lo hi -> 1 <= lo -> hi < 2 ^ 53 ->
  (Z2F lo <=? x)%float = true /\ (x <=? Z2F hi)%float = true.
Proof.
  intros (M & E & HN & HE & Hl & Hu) Hlo Hhi.
  pose proof (pow2_pos (- E) ltac:(lia)) as P.
  assert (Hlh : lo <= hi) by nia.
  pose proof HN as [_ HM].
  pose proof (digits_bounds M) as [L U]. rewrite HM in L, U.
  change (53 - 1) with 52 in L.
  destruct (Z2F_repr lo ltac:(lia)) as (Ml & dl & Hdl & Bl & HNl & HMl).
  destruct (Z2F_repr hi ltac:(lia)) as (Mh & dh & Hdh & Bh & HNh & HMh).
  pose proof HNl as [_ HDl]. pose proof HNh as [_ HDh].
  pose proof (digits_bounds Ml) as [Ll Ul]. rewrite HDl in Ll, Ul.
  pose proof (digits_bounds Mh) as [Lh Uh]. rewrite HDh in Lh, Uh.
  change (53 - 1) with 52 in Ll, Lh.
  split; apply leb_key.
  - exists (1, dl - 53, Zpos Ml), (1, E, Zpos M).
    rewrite (normal_key _ _ _ HNl), (normal_key _ _ _ HN).
    split; [reflexivity|]. split; [reflexivity|].
    apply lex3_le_iff. right. split; [reflexivity|].
    destruct (Z.lt_trichotomy (dl - 53) E) as [Hlt|[Heq|Hgt]]; [left; trivial| |].
    + right. split; [trivial|]. rewrite HMl.
      replace (53 - dl) with (- E) by lia. exact Hl.
    + exfalso.
      assert (2 ^ (53 - dl + 1) <= 2 ^ (- E)) by (apply Z.pow_le_mono_r; lia).
      rewrite pow2_succ in H by lia.
      assert (lo * (2 * 2 ^ (53 - dl)) <= lo * 2 ^ (- E))
        by (apply Z.mul_le_mono_nonneg_l; lia).
      lia.
  - exists (1, E, Zpos M), (1, dh - 53, Zpos Mh).
    rewrite (normal_key _ _ _ HNh), (normal_key _ _ _ HN).
    split; [reflexivity|]. split; [reflexivity|].
    apply lex3_le_iff. right. split; [reflexivity|].
    destruct (Z.lt_trichotomy E (dh - 53)) as [Hlt|[Heq|Hgt]]; [left; trivial| |].
    + right. split; [trivial|]. rewrite HMh.
      replace (53 - dh) with (- E) by lia. exact Hu.
    + exfalso.
      assert (2 ^ (- E + 1) <= 2 ^ (53 - dh)) by (apply Z.pow_le_mono_r; lia).
      rewrite pow2_succ in H by lia.
      assert (hi * (2 * 2 ^ (- E)) <= hi * 2 ^ (53 - dh))
        by (apply Z.mul_le_mono_nonneg_l; lia).
      lia.
Qed.

(** The frequency of a lag lies between integer bounds of the exact
    quotient. *)
Lemma frequency_of_between sr k lo hi :
  (1 <= k)%nat -> 1 <= lo -> lo * Z.of_nat k <= sr <= hi * Z.of_nat k ->
  sr < 2 ^ 31 -> hi < 2 ^ 31 ->
  between (frequency_of sr k) lo hi.
Proof.
  intros Hk Hlo Hb Hsr Hhi. unfold frequency_of, of_nat.
  assert (B31 : 2 ^ 31 = 2147483648) by reflexivity.
  assert (B48 : 2 ^ 48 = 281474976710656) by reflexivity.
  assert (B52 : 2 ^ 52 = 4503599627370496) by reflexivity.
  pose proof (div_between sr (Z.of_nat k) lo hi ltac:(lia) Hlo Hb ltac:(lia))
    as H1.
  apply mul10_between in H1; [|lia|lia].
  apply round_between in H1; [|lia|lia].
  destruct H1 as (n & -> & Hn).
  change 10%float with (Z2F 10).
  apply div_between; lia.
Qed.

End Range.

(** At an integer sample rate from 60 Hz (below [2^31]) the pitch returned
    is never below 60 Hz and never above the sample rate, whatever the
    samples are; below 120 Hz it is the sample rate itself. *)
Theorem detectPitch_range (b : AudioBuffer) :
  (60 <= sampleRate b < 2 ^ 31)%Z ->
  (60 <=? detectPitch b) = true
  /\ (detectPitch b <=? Z2F (sampleRate b)) = true
  /\ ((sampleRate b < 120)%Z -> detectPitch b = Z2F (sampleRate b)).
Proof.
  intros Hsr.
  pose proof (peakIndex_bounds (correlations b)) as Hp.
  rewrite correlations_length, maxLag_eq in Hp by lia.
  assert (H60 : (60 * (sampleRate b / 60) <= sampleRate b)%Z)
    by (apply Z.mul_div_le; lia).
  assert (H1 : (1 <= sampleRate b / 60)%Z)
    by (apply Z.div_le_lower_bound; lia).
  unfold detectPitch. set (k := peakIndex_of (correlations b)) in *.
  assert (Hb : between (frequency_of (sampleRate b) k) 60 (sampleRate b)).
  { apply frequency_of_between; try lia. nia. }
  apply between_leb in Hb; [|lia|].
  - destruct Hb as [Hlo Hhi]. split; [exact Hlo|]. split; [exact Hhi|].
    intros H120.
    assert (sampleRate b / 60 < 2)%Z by (apply Z.div_lt_upper_bound; lia).
    assert (Hk : k = 1%nat) by lia. rewrite Hk.
    replace (sampleRate b) with (sampleRate b * Z.of_nat 1)%Z at 1 by lia.
    apply frequency_of_exact; lia.
  - apply (Z.lt_trans _ (2 ^ 31)); [lia|reflexivity].
Qed.

Lemma detectPitch_range_witness :
  (60 <= sampleRate clicks < 2 ^ 31)%Z
  /\ (60 <=? detectPitch clicks) = true
  /\ (detectPitch clicks <=? Z2F (sampleRate clicks)) = true.
Proof.
  assert (H : (60 <= sampleRate clicks < 2 ^ 31)%Z)
    by (cbn; split; [lia|reflexivity]).
  split; [exact H|].
  destruct (detectPitch_range clicks H) as (H1 & H2 & _).
  split; [exact H1|exact H2].
Defined.

(** ** An impulse train *)

Section ExactSum.

Local Open Scope Z_scope.

Lemma shl_align_spec m e e' :
  e' <= e -> Zpos (fst (shl_align m e e')) = Zpos m * 2 ^ (e - e').
Proof.
  intros H. unfold shl_align.
  destruct (e' - e) as [|q|q] eqn:Eq; try lia; cbn [fst].
  - replace (e - e') with 0 by lia. cbn. lia.
  - rewrite iter_xO. f_equal. f_equal. lia.
Qed.

(** A sum of positive integers that stays below [2^53] is exact. *)
Lemma Z2F_add_exact_pos a b :
  1 <= a -> 1 <= b -> a + b < 2 ^ 53 ->
  (Z2F a + Z2F b)%float = Z2F (a + b).
Proof.
  intros Ha Hb Hab.
  destruct (Z2F_repr a ltac:(lia)) as (Ma & da & Hda & Ba & [HPa HDa] & HMa).
  destruct (Z2F_repr b ltac:(lia)) as (Mb & db & Hdb & Bb & [HPb HDb] & HMb).
  destruct (Z2F_repr (a + b) ltac:(lia))
    as (Mc & dc & Hdc & Bc & [HPc HDc] & HMc).
  assert (Hac : da <= dc).
  { assert (2 ^ (da - 1) < 2 ^ dc) by lia.
    apply (Z.pow_lt_mono_r_iff 2) in H; lia. }
  assert (Hbc : db <= dc).
  { assert (2 ^ (db - 1) < 2 ^ dc) by lia.
    apply (Z.pow_lt_mono_r_iff 2) in H; lia. }
  apply Prim2SF_inj. rewrite add_spec, HPa, HPb, HPc.
  unfold SF64add, SFadd. cbn [cond_Zopp].
  set (ez := Z.min (da - 53) (db - 53)).
  assert (Hez : ez <= da - 53 /\ ez <= db - 53 /\ - 52 <= ez <= 0
                /\ ez <= dc - 53) by (unfold ez; lia).
  rewrite !shl_align_spec by lia.
  rewrite HMa, HMb.
  assert (Ea : a * 2 ^ (53 - da) * 2 ^ (da - 53 - ez) = a * 2 ^ (- ez)).
  { rewrite <- Z.mul_assoc, <- pow2_split by lia. f_equal. f_equal. lia. }
  assert (Eb : b * 2 ^ (53 - db) * 2 ^ (db - 53 - ez) = b * 2 ^ (- ez)).
  { rewrite <- Z.mul_assoc, <- pow2_split by lia. f_equal. f_equal. lia. }
  rewrite Ea, Eb, <- Z.mul_add_distr_r.
  assert (P : 0 < 2 ^ (- ez)) by (apply Z.pow_pos_nonneg; lia).
  assert (Hpos : 0 < (a + b) * 2 ^ (- ez)) by (apply Z.mul_pos_pos; lia).
  destruct ((a + b) * 2 ^ (- ez)) as [|m|m] eqn:Em; try lia.
  cbn [binary_normalize]. unfold binary_round.
  assert (Hd : Zpos (digits2_pos m) = dc - ez).
  { apply digits_unique. rewrite <- Em.
    replace (dc - ez - 1) with (dc - 1 + - ez) by lia.
    replace (dc - ez) with (dc + - ez) by lia.
    rewrite !pow2_split by lia.
    split; [apply Z.mul_le_mono_nonneg_r; lia|apply Z.mul_lt_mono_pos_r; lia]. }
  replace (fexp prec emax (Zpos (digits2_pos m) + ez)) with (dc - 53)
    by (rewrite Hd; unfold fexp, SpecFloat.emin, prec, emax; lia).
  assert (Hal : shl_align m ez (dc - 53) = (m, ez)).
  { unfold shl_align. destruct (dc - 53 - ez) as [|q|q] eqn:Eq; trivial. lia. }
  rewrite Hal.
  rewrite (binary_round_aux_exact false Mc (dc - 53 - ez) ez); trivial;
    try lia.
  - f_equal. lia.
  - rewrite <- Em, HMc, <- Z.mul_assoc, <- pow2_split by lia.
    f_equal. f_equal. lia.
Qed.

Lemma Z2F_add_0_r a : 0 <= a < 2 ^ 53 -> (Z2F a + 0)%float = Z2F a.
Proof.
  intros Ha. destruct (Z.eq_dec a 0) as [->|Hne]; [reflexivity|].
  destruct (Z2F_repr a ltac:(lia)) as (M & d & _ & _ & [HP _] & _).
  apply Prim2SF_inj. rewrite add_spec, HP. reflexivity.
Qed.

Lemma Z2F_add_1 a : 0 <= a -> a + 1 < 2 ^ 53 -> (Z2F a + 1)%float = Z2F (a + 1).
Proof.
  intros Ha H. destruct (Z.eq_dec a 0) as [->|Hne]; [reflexivity|].
  change 1%float with (Z2F 1). apply Z2F_add_exact_pos; lia.
Qed.

End ExactSum.

(** One sample of 1 every [P] samples, starting with the first. *)
Definition impulse (P i : nat) : float :=
  if (i mod P =? 0)%nat then 1 else 0.

Definition impulse_train (P n : nat) : list float := map (impulse P) (seq 0 n).

Lemma impulse_train_get P n i :
  (i < n)%nat -> get (impulse_train P n) i = impulse P i.
Proof.
  intros H. unfold get, impulse_train.
  rewrite (nth_indep _ nan (impulse P 0))
    by (rewrite length_map, length_seq; trivial).
  rewrite map_nth, seq_nth by trivial. reflexivity.
Qed.

(** The product of two samples [lag] apart. *)
Lemma impulse_product P i lag :
  (1 <= P)%nat ->
  impulse P i * impulse P (i + lag)
  = if (lag mod P =? 0)%nat then impulse P i else 0.
Proof.
  intros HP. unfold impulse.
  destruct (Nat.eqb_spec (i mod P) 0) as [Hi|Hi].
  - assert (E : ((i + lag) mod P = lag mod P)%nat).
    { rewrite Nat.Div0.add_mod, Hi, Nat.add_0_l, Nat.Div0.mod_mod by lia.
      reflexivity. }
    rewrite E. destruct (lag mod P =? 0)%nat; reflexivity.
  - destruct ((i + lag) mod P =? 0)%nat, (lag mod P =? 0)%nat; reflexivity.
Qed.

(** The number of impulses among the samples [l]. *)
Definition impulses (P : nat) (l : list nat) : nat :=
  length (filter (fun i => (i mod P =? 0)%nat) l).

Lemma sum_impulses P (l : list nat) : forall k,
  (0 <= k)%Z -> (k + Z.of_nat (length l) < 2 ^ 53)%Z ->
  fold_left (fun correlation i => correlation + impulse P i) l (Z2F k)
  = Z2F (k + Z.of_nat (impulses P l)).
Proof.
  induction l as [|i l IH]; intros k Hk Hlen; cbn [fold_left].
  - unfold impulses. cbn. rewrite Z.add_0_r. reflexivity.
  - cbn [length] in Hlen. unfold impulses. cbn [filter]. unfold impulse at 2.
    destruct (i mod P =? 0)%nat; cbn [length].
    + rewrite Z2F_add_1 by lia. rewrite IH by lia.
      unfold impulses. f_equal. lia.
    + rewrite Z2F_add_0_r by lia. apply IH; lia.
Qed.

Lemma sum_zeros (l : list nat) :
  fold_left (fun correlation (i : nat) => correlation + 0) l 0 = 0.
Proof. induction l as [|i l IH]; cbn [fold_left]; trivial. Qed.

Lemma fold_left_terms_ext (f g : nat -> float) (l : list nat) : forall acc,
  (forall i, In i l -> f i = g i) ->
  fold_left (fun correlation i => correlation + f i) l acc
  = fold_left (fun correlation i => correlation + g i) l acc.
Proof.
  induction l as [|i l IH]; intros acc H; cbn [fold_left]; trivial.
  rewrite (H i (or_introl eq_refl)). apply IH.
  intros j Hj. apply H. right; trivial.
Qed.

(** The correlation of an impulse train: the number of impulses in the
    comparison window at the multiples of the period, zero elsewhere. *)
Lemma impulse_train_correlation P n lag :
  (1 <= P)%nat -> (n / 3 + lag <= n)%nat -> (Z.of_nat n < 2 ^ 53)%Z ->
  correlation_at (impulse_train P n) lag
  = if (lag mod P =? 0)%nat
    then Z2F (Z.of_nat (impulses P (seq 0 (n / 3))))
    else 0.
Proof.
  intros HP Hfit Hn.
  assert (Hlen : length (impulse_train P n) = n)
    by (unfold impulse_train; rewrite length_map, length_seq; trivial).
  rewrite correlation_at_unguarded by (rewrite Hlen; trivial).
  rewrite Hlen.
  assert (Hdiv : (n / 3 <= n)%nat) by (apply Nat.Div0.div_le_upper_bound; lia).
  rewrite (fold_left_terms_ext _
             (fun i => if (lag mod P =? 0)%nat then impulse P i else 0)).
  - destruct (lag mod P =? 0)%nat.
    + change 0 with (Z2F 0) at 1. rewrite sum_impulses; try lia.
      * reflexivity.
      * rewrite length_seq. lia.
    + apply sum_zeros.
  - intros i Hi. apply in_seq in Hi.
    rewrite !impulse_train_get by lia. apply impulse_product. trivial.
Qed.

(** A correlation sequence with one value at the multiples of [P] and a
    smaller one elsewhere: the walk stops at lag 0 and the scan selects
    lag [P]. *)
Lemma periodic_peak corr (P : nat) (hi lo : float) :
  (lo <? hi) = true -> (2 <= P)%nat -> (P + 2 <= length corr)%nat ->
  (forall i, (i < length corr)%nat ->
     get corr i = if (i mod P =? 0)%nat then hi else lo) ->
  firstDropIndex_of corr = 0%nat /\ peakIndex_of corr = P.
Proof.
  intros Hlt HP Hlen Hc.
  assert (H0 : get corr 0 = hi).
  { rewrite Hc by lia. rewrite Nat.Div0.mod_0_l. reflexivity. }
  assert (H1 : get corr 1 = lo).
  { rewrite Hc by lia. rewrite Nat.mod_small by lia. reflexivity. }
  assert (HPP : get corr P = hi).
  { rewrite Hc by lia. rewrite Nat.Div0.mod_same. reflexivity. }
  assert (Hd : firstDropIndex_of corr = 0%nat).
  { pose proof (firstDropIndex_spec corr) as (_ & H & _). cbv zeta in H.
    destruct (firstDropIndex_of corr) as [|d]; trivial.
    specialize (H 0%nat ltac:(lia)). cbn [Nat.add] in H.
    rewrite H0, H1, (ltb_not_leb _ _ Hlt) in H. discriminate. }
  split; [exact Hd|].
  pose proof (peakIndex_spec corr) as (Hp1 & Hp2 & Hp3).
  assert (Hnn : Forall not_nan corr).
  { apply Forall_forall. intros x Hx.
    destruct (In_nth _ _ nan Hx) as (i & Hi & <-).
    fold (get corr i). rewrite Hc by trivial.
    destruct (i mod P =? 0)%nat;
      [exact (ltb_not_nan_r _ _ Hlt)|exact (ltb_not_nan_l _ _ Hlt)]. }
  pose proof (peakIndex_first corr Hnn) as Hp4.
  cbv zeta in *. rewrite Hd in *. cbn [Nat.add] in *.
  set (p := peakIndex_of corr) in *.
  assert (Hpl : (p < length corr)%nat) by lia.
  assert (Hmod : (p mod P = 0)%nat).
  { specialize (Hp3 P ltac:(lia)). rewrite HPP, Hc in Hp3 by trivial.
    destruct (Nat.eqb_spec (p mod P) 0) as [E|_]; trivial.
    rewrite Hlt in Hp3. discriminate. }
  assert (Hge : (P <= p)%nat).
  { destruct (Nat.lt_ge_cases p P) as [Hlt'|]; trivial.
    rewrite Nat.mod_small in Hmod by trivial. lia. }
  destruct (Nat.eq_dec p P) as [|Hne]; trivial.
  specialize (Hp4 P ltac:(lia)).
  rewrite HPP, Hc in Hp4 by trivial. rewrite Hmod in Hp4. cbn in Hp4.
  rewrite ltb_irrefl in Hp4. discriminate.
Qed.

(** An impulse train of period [P] is detected at the lag [P]: when the
    period is at least 2 samples and at most [maxLag - 2], and the buffer
    is long enough for the comparison window and the largest lag, the
    walk stops at lag 0, the peak is the lag [P] and [detectPitch] returns
    the rounded [sampleRate / P], which is exact when [P] divides the
    sample rate. *)
Theorem impulse_train_pitch (b : AudioBuffer) (P n : nat) :
  channelData b = impulse_train P n ->
  (2 <= P)%nat -> (P + 2 <= maxLag b)%nat ->
  (3 <= n)%nat -> (n / 3 + maxLag b <= n + 1)%nat ->
  (Z.of_nat n < 2 ^ 53)%Z ->
  firstDropIndex_of (correlations b) = 0%nat
  /\ peakIndex_of (correlations b) = P
  /\ detectPitch b = frequency_of (sampleRate b) P
  /\ (forall f, (1 <= f)%Z -> (sampleRate b < 2 ^ 31)%Z ->
        sampleRate b = (f * Z.of_nat P)%Z -> detectPitch b = Z2F f).
Proof.
  intros Hdata HP Hlag Hn Hfit Hn53.
  set (c := impulses P (seq 0 (n / 3))).
  assert (Hc : (1 <= c)%nat).
  { unfold c, impulses.
    destruct (n / 3)%nat as [|m] eqn:Em.
    - assert (n < 3)%nat; [|lia].
      apply Nat.div_small_iff; [lia|exact Em].
    - cbn [seq filter]. rewrite Nat.Div0.mod_0_l. cbn. lia. }
  assert (Hc53 : (Z.of_nat c < 2 ^ 53)%Z).
  { unfold c, impulses.
    pose proof (filter_length_le (fun i => (i mod P =? 0)%nat) (seq 0 (n / 3)))
      as Hle.
    rewrite length_seq in Hle.
    assert (n / 3 <= n)%nat by (apply Nat.Div0.div_le_upper_bound; lia).
    lia. }
  destruct (Z2F_repr (Z.of_nat c) ltac:(lia)) as (M & d & _ & _ & HN & _).
  destruct (periodic_peak (correlations b) P (Z2F (Z.of_nat c)) 0) as [Hd Hp].
  - exact (normal_pos _ _ _ HN).
  - exact HP.
  - rewrite correlations_length. exact Hlag.
  - intros i Hi. rewrite correlations_length in Hi.
    rewrite correlations_nth, Hdata by trivial.
    apply impulse_train_correlation; lia.
  - split; [exact Hd|]. split; [exact Hp|].
    unfold detectPitch. rewrite Hp. split; [reflexivity|].
    intros f Hf H31 Hsr. rewrite Hsr. apply frequency_of_exact; lia.
Qed.

(** 400 Hz at 8000 samples per second: one impulse every 20 samples. *)
Definition pulse_400 : AudioBuffer :=
  {| sampleRate := 8000; channelData := impulse_train 20 240 |}.

Lemma impulse_train_pitch_witness :
  (20 + 2 <= maxLag pulse_400)%nat
  /\ (240 / 3 + maxLag pulse_400 <= 240 + 1)%nat
  /\ detectPitch pulse_400 = 400.
Proof.
  assert (H1 : (20 + 2 <= maxLag pulse_400)%nat) by (vm_compute; lia).
  assert (H2 : (240 / 3 + maxLag pulse_400 <= 240 + 1)%nat)
    by (vm_compute; lia).
  split; [exact H1|]. split; [exact H2|].
  refine (proj2 (proj2 (proj2
            (impulse_train_pitch pulse_400 20 240 eq_refl _ H1 _ H2 _)))
            400%Z _ _ _).
  - lia.
  - lia.
  - reflexivity.
  - lia.
  - reflexivity.
  - reflexivity.
Defined.

(** ** Evenly spaced onsets *)

Lemma bump_same key c : bump key [(key, c)] = [(key, S c)].
Proof. cbn [bump]. rewrite Z.ltb_irrefl, Z.eqb_refl. reflexivity. Qed.

Lemma histogram_one_bucket K m : forall c,
  fold_left (fun h interval => bump (normalizedInterval interval) h)
    (repeat K m) [(normalizedInterval K, c)]
  = [(normalizedInterval K, (c + m)%nat)].
Proof.
  induction m as [|m IH]; intros c; cbn [repeat fold_left].
  - rewrite Nat.add_0_r. reflexivity.
  - rewrite bump_same, IH. f_equal. f_equal. lia.
Qed.

(** When all onsets are the same number [K] of windows apart the histogram
    has one bucket and the tempo is computed from [K] when it is even and
    from [K + 1] when it is odd: an odd spacing is taken for the next even
    one. *)
Theorem evenly_spaced_onsets_tempo (b : AudioBuffer)
  (energyProfile : list float) (K : Z) :
  energyProfile_of b = Some energyProfile ->
  (2 <= length (onsets_of energyProfile))%nat ->
  (forall d, In d (intervals_of (onsets_of energyProfile)) -> d = K) ->
  let intervals := intervals_of (onsets_of energyProfile) in
  let used := if Z.even K then K else (K + 1)%Z in
  histogramBins_of intervals = [(used, length intervals)]
  /\ estimateTempo b = Some (adjust_bpm (raw_bpm (sampleRate b) used)).
Proof.
  intros Hp Ho Hall intervals used.
  assert (Hused : normalizedInterval K = used).
  { unfold used. destruct (Z.even K) eqn:E.
    - apply normalizedInterval_even. exact E.
    - apply normalizedInterval_odd. rewrite <- Z.negb_even, E. reflexivity. }
  assert (Hrep : intervals = repeat K (length intervals)).
  { apply Forall_eq_repeat. apply Forall_forall. intros d Hd.
    symmetry. apply Hall. exact Hd. }
  assert (Hlen : (1 <= length intervals)%nat).
  { unfold intervals. rewrite intervals_of_length. lia. }
  assert (Hh : histogramBins_of intervals = [(used, length intervals)]).
  { rewrite Hrep at 1. unfold histogramBins_of.
    destruct (length intervals) as [|m]; [lia|].
    cbn [repeat fold_left bump].
    rewrite histogram_one_bucket, Hused. reflexivity. }
  split; [exact Hh|].
  unfold estimateTempo, tempo_of_profile. rewrite Hp.
  fold intervals. rewrite Hh.
  destruct (length intervals) as [|m]; [lia|]. reflexivity.
Qed.

(** Three beats 5 windows apart, at 50 samples per second (one sample per
    window). *)
Definition five_apart : AudioBuffer :=
  {| sampleRate := 50;
     channelData := [0; 1; 0; 0; 0; 0; 1; 0; 0; 0; 0; 1; 0; 0; 0; 0] |}.

Lemma evenly_spaced_onsets_tempo_witness :
  energyProfile_of five_apart = Some (channelData five_apart)
  /\ onsets_of (channelData five_apart) = [1; 6; 11]%nat
  /\ estimateTempo five_apart
     = Some (adjust_bpm (raw_bpm (sampleRate five_apart) 6)).
Proof.
  assert (H1 : energyProfile_of five_apart = Some (channelData five_apart))
    by (vm_compute; reflexivity).
  assert (H2 : onsets_of (channelData five_apart) = [1; 6; 11]%nat)
    by (vm_compute; reflexivity).
  split; [exact H1|]. split; [exact H2|].
  refine (proj2 (evenly_spaced_onsets_tempo five_apart
                   (channelData five_apart) 5 H1 _ _)).
  - rewrite H2. cbn. lia.
  - rewrite H2. cbn. intros d [<-|[<-|[]]]; reflexivity.
Defined.

(** ** What the estimators do not see *)

Lemma fold_left_ext_in (A : Type) (f g : float -> A -> float) (l : list A) :
  forall acc,
  (forall a x, In x l -> f a x = g a x) ->
  fold_left f l acc = fold_left g l acc.
Proof.
  induction l as [|x l IH]; intros acc H; cbn [fold_left]; trivial.
  rewrite (H acc x (or_introl eq_refl)). apply IH.
  intros a y Hy. apply H. right; trivial.
Qed.

(** The product of two numbers is the product of their opposites. *)
Lemma mul_opp_opp x y : (- x) * (- y) = x * y.
Proof.
  apply Prim2SF_inj. rewrite !mul_spec, !opp_spec.
  unfold SF64mul, SFmul, SFopp.
  destruct (Prim2SF x) as [[]|[]| |[] mx ex];
    destruct (Prim2SF y) as [[]|[]| |[] my ey]; reflexivity.
Qed.

(** The buffer with every sample negated (the same signal with inverted
    polarity). *)
Definition inverted (b : AudioBuffer) : AudioBuffer :=
  {| sampleRate := sampleRate b; channelData := map opp (channelData b) |}.

Lemma get_map_opp data i : get (map opp data) i = - get data i.
Proof. unfold get. change nan with (- nan) at 1. apply map_nth. Qed.

Lemma correlation_at_opp data lag :
  correlation_at (map opp data) lag = correlation_at data lag.
Proof.
  unfold correlation_at. rewrite length_map.
  apply fold_left_ext_in. intros a i _.
  rewrite !get_map_opp, mul_opp_opp. reflexivity.
Qed.

Lemma window_rms_opp data i limit :
  window_rms (map opp data) i limit = window_rms data i limit.
Proof.
  unfold window_rms. f_equal. f_equal.
  apply fold_left_ext_in. intros a j _.
  rewrite !get_map_opp, mul_opp_opp. reflexivity.
Qed.

Lemma energy_loop_opp fuel data step : forall i acc,
  energy_loop fuel (map opp data) step i acc = energy_loop fuel data step i acc.
Proof.
  induction fuel as [|fuel IH]; intros i acc; cbn [energy_loop];
    rewrite length_map; trivial.
  destruct (i <? length data)%nat; trivial.
  rewrite window_rms_opp. apply IH.
Qed.

(** Inverting the polarity of the signal changes neither estimate: both
    read the samples only through products of two of them. *)
Theorem polarity_invariance (b : AudioBuffer) :
  correlations (inverted b) = correlations b
  /\ detectPitch (inverted b) = detectPitch b
  /\ energyProfile_of (inverted b) = energyProfile_of b
  /\ estimateTempo (inverted b) = estimateTempo b.
Proof.
  assert (Hc : correlations (inverted b) = correlations b).
  { unfold correlations, maxLag. cbn [inverted sampleRate channelData].
    apply map_ext. intros lag. apply correlation_at_opp. }
  assert (Hp : energyProfile_of (inverted b) = energyProfile_of b).
  { unfold energyProfile_of. cbn [inverted sampleRate channelData].
    rewrite length_map. apply energy_loop_opp. }
  split; [exact Hc|]. split.
  - unfold detectPitch. rewrite Hc. reflexivity.
  - split; [exact Hp|]. unfold estimateTempo. rewrite Hp. reflexivity.
Qed.

(** [detectPitch] reads only the first [floor(n / 3) + maxLag - 1] samples
    of the [n] in the buffer: two buffers of the same length and sample
    rate that agree on them have the same correlations and the same
    pitch. *)
Theorem detectPitch_reads_a_prefix (b1 b2 : AudioBuffer) :
  sampleRate b1 = sampleRate b2 ->
  bufferLength b1 = bufferLength b2 ->
  (forall i, (i < bufferLength b1 / 3 + maxLag b1 - 1)%nat ->
     get (channelData b1) i = get (channelData b2) i) ->
  correlations b1 = correlations b2 /\ detectPitch b1 = detectPitch b2.
Proof.
  intros Hsr Hlen Hpre.
  assert (Hm : maxLag b1 = maxLag b2) by (unfold maxLag; rewrite Hsr; trivial).
  assert (Hc : correlations b1 = correlations b2).
  { unfold correlations. rewrite <- Hm. apply map_ext_in.
    intros lag Hlag. apply in_seq in Hlag.
    unfold correlation_at. unfold bufferLength in *. rewrite <- Hlen.
    apply fold_left_ext_in. intros a i Hi. apply in_seq in Hi.
    rewrite !Hpre by lia. reflexivity. }
  split; [exact Hc|]. unfold detectPitch. rewrite Hc, Hsr. reflexivity.
Qed.

(** Two buffers of 1000 samples at 8000 Hz that differ from sample 465
    on. *)
Definition quiet_tail : AudioBuffer :=
  {| sampleRate := 8000;
     channelData := channelData pulse_400 ++ repeat 0 760 |}.

Definition loud_tail : AudioBuffer :=
  {| sampleRate := 8000;
     channelData := channelData pulse_400 ++ repeat 0 225 ++ repeat 1 535 |}.

Lemma detectPitch_reads_a_prefix_witness :
  (bufferLength quiet_tail / 3 + maxLag quiet_tail - 1 = 465)%nat
  /\ channelData quiet_tail <> channelData loud_tail
  /\ detectPitch quiet_tail = detectPitch loud_tail.
Proof.
  assert (H : (bufferLength quiet_tail / 3 + maxLag quiet_tail - 1 = 465)%nat)
    by (vm_compute; reflexivity).
  split; [exact H|]. split.
  - intros E. apply (f_equal (fun l => nth 999 l nan)) in E.
    vm_compute in E. discriminate.
  - refine (proj2 (detectPitch_reads_a_prefix quiet_tail loud_tail
                     eq_refl eq_refl _)).
    rewrite H. intros i Hi. unfold get. cbn [channelData quiet_tail loud_tail].
    assert (L : length (channelData pulse_400) = 240%nat) by reflexivity.
    destruct (Nat.lt_ge_cases i 240) as [Hlt|Hge].
    + rewrite !app_nth1 by (rewrite L; trivial). reflexivity.
    + rewrite !app_nth2 by (rewrite L; trivial). rewrite L.
      rewrite app_nth1 by (rewrite repeat_length; lia).
      rewrite !nth_repeat_lt by lia. reflexivity.
Defined.

(** ** Onsets carry energy *)

(** A square root is never negative: it is NaN or at least zero. *)
Lemma sqrt_nonneg_or_nan x :
  nonneg (PrimFloat.sqrt x) \/ PrimFloat.sqrt x = nan.
Proof.
  destruct (Prim2SF x) as [s|[]| |[] m e] eqn:Hx.
  - left. apply nonneg_SF. rewrite sqrt_spec, Hx. exact I.
  - right. apply Prim2SF_inj. rewrite sqrt_spec, Hx. reflexivity.
  - left. apply nonneg_SF. rewrite sqrt_spec, Hx. exact I.
  - right. apply Prim2SF_inj. rewrite sqrt_spec, Hx. reflexivity.
  - right. apply Prim2SF_inj. rewrite sqrt_spec, Hx. reflexivity.
  - left. apply sqrt_nonneg. apply nonneg_SF. rewrite Hx. exact I.
Qed.

Lemma energy_loop_entries fuel data step : forall i acc p,
  Forall (fun v => nonneg v \/ v = nan) acc ->
  energy_loop fuel data step i acc = Some p ->
  Forall (fun v => nonneg v \/ v = nan) p.
Proof.
  induction fuel as [|fuel IH]; intros i acc p Hacc; cbn [energy_loop].
  - destruct (i <? length data)%nat; [discriminate|].
    intros E. injection E as <-. exact Hacc.
  - destruct (i <? length data)%nat.
    + apply IH. apply Forall_app. split; [exact Hacc|].
      constructor; [|constructor]. apply sqrt_nonneg_or_nan.
    + intros E. injection E as <-. exact Hacc.
Qed.

(** Every onset is a window with strictly positive energy: a silent window
    is never an onset. *)
Theorem onsets_have_energy (b : AudioBuffer) (energyProfile : list float)
  (i : nat) :
  energyProfile_of b = Some energyProfile ->
  In i (onsets_of energyProfile) ->
  (0 <? get energyProfile i) = true.
Proof.
  intros Hp Hi.
  pose proof (energy_loop_entries _ _ _ _ _ _ (Forall_nil _) Hp) as Hall.
  apply onsets_of_In in Hi. destruct Hi as (Hb & _ & Hrise & _).
  assert (Hprev : nonneg (get energyProfile (i - 1))).
  { rewrite Forall_forall in Hall.
    destruct (Hall (get energyProfile (i - 1))) as [H|H]; trivial.
    - unfold get. apply nth_In. lia.
    - rewrite H, nan_ltb_l in Hrise. discriminate. }
  exact (leb_ltb_trans _ _ _ Hprev Hrise).
Qed.

Lemma onsets_have_energy_witness :
  energyProfile_of five_apart = Some (channelData five_apart)
  /\ In 6%nat (onsets_of (channelData five_apart))
  /\ (0 <? get (channelData five_apart) 6) = true.
Proof.
  assert (H1 : energyProfile_of five_apart = Some (channelData five_apart))
    by (vm_compute; reflexivity).
  assert (H2 : In 6%nat (onsets_of (channelData five_apart)))
    by (vm_compute; right; left; reflexivity).
  split; [exact H1|]. split; [exact H2|].
  exact (onsets_have_energy five_apart _ 6 H1 H2).
Defined.

(** ** The range of the tempo *)

Section TempoRange.

Local Open Scope Z_scope.

Lemma normal_exponent x M E : normal x M E -> -1074 <= E <= 971.
Proof.
  intros [H HM]. pose proof (Prim2SF_valid x) as V. rewrite H in V.
  cbn [SpecFloat.valid_binary] in V. unfold bounded, canonical_mantissa in V.
  apply andb_true_iff in V. destruct V as [V1 V2].
  apply Z.eqb_eq in V1. apply Z.leb_le in V2.
  unfold fexp, SpecFloat.emin, prec, emax in *. lia.
Qed.

Lemma pow2_prod3 x y z :
  0 <= x -> 0 <= y -> 0 <= z -> 2 ^ x * 2 ^ y * 2 ^ z = 2 ^ (x + y + z).
Proof. intros. rewrite <- !pow2_split by lia. reflexivity. Qed.

(** A positive normal number of value at least [c / 2^s], with an exponent
    of at most [eb]. *)
Definition above (x : float) (c s eb : Z) : Prop :=
  exists M E, normal x M E /\ E <= eb /\ c * 2 ^ (- E - s) <= Zpos M.

Lemma above_exponent M E c s :
  Zpos (digits2_pos M) = 53 -> 1 <= c -> c * 2 ^ (- E - s) <= Zpos M ->
  - 53 - s < E.
Proof.
  intros HM Hc H.
  pose proof (digits_bounds M) as [_ U]. rewrite HM in U.
  destruct (Z.lt_ge_cases (- 53 - s) E) as [|Hge]; trivial. exfalso.
  assert (2 ^ 53 <= 2 ^ (- E - s)) by (apply Z.pow_le_mono_r; lia).
  assert (2 ^ (- E - s) <= c * 2 ^ (- E - s)).
  { rewrite <- (Z.mul_1_l (2 ^ (- E - s))) at 1.
    apply Z.mul_le_mono_nonneg_r; lia. }
  lia.
Qed.

Lemma faithful_above t v e0 E c s :
  e0 <= E <= e0 + 1 -> E <= - s ->
  t <= v * 2 ^ (E - e0) -> c * 2 ^ (- e0 - s) <= t ->
  c * 2 ^ (- E - s) <= v.
Proof.
  intros HE Hs Hv Hl.
  destruct (Z.eq_dec E e0) as [->|Hne].
  - rewrite Z.sub_diag in Hv. change (2 ^ 0) with 1 in Hv. lia.
  - assert (E = e0 + 1) by lia. subst E.
    replace (e0 + 1 - e0) with 1 in Hv by lia. change (2 ^ 1) with 2 in Hv.
    replace (- e0 - s) with (- (e0 + 1) - s + 1) in Hl by lia.
    rewrite pow2_succ in Hl by lia. lia.
Qed.

(** The quotient of two integers is at least a dyadic lower bound of the
    exact quotient. *)
Lemma div_above a b c s r :
  1 <= a -> 1 <= b < 2 ^ 53 -> 0 <= r -> a * 2 ^ r <= b ->
  1 <= c -> 0 <= s <= 51 -> c * b <= a * 2 ^ s ->
  above (Z2F a / Z2F b) c s (- 51 - r).
Proof.
  intros Ha Hb Hr Hab Hc Hs Hcb.
  pose proof (pow2_pos r Hr) as Pr.
  assert (Ha53 : a < 2 ^ 53).
  { assert (a * 1 <= a * 2 ^ r) by (apply Z.mul_le_mono_nonneg_l; lia). lia. }
  destruct (Z2F_repr a ltac:(lia)) as (Ma & da & Hda & Ba & HNa & HMa).
  destruct (Z2F_repr b ltac:(lia)) as (Mb & db & Hdb & Bb & HNb & HMb).
  assert (Hd : da + r <= db).
  { assert (H : 2 ^ (da - 1 + r) < 2 ^ db).
    { rewrite pow2_split by lia.
      assert (2 ^ (da - 1) * 2 ^ r <= a * 2 ^ r)
        by (apply Z.mul_le_mono_nonneg_r; lia).
      lia. }
    apply pow2_lt_inv in H; lia. }
  destruct (div_normal _ _ _ _ _ _ HNa HNb ltac:(lia) ltac:(lia))
    as (M & E & n & HN & Hn & HE & Ht).
  cbv zeta in Ht. destruct Ht as [Ht _].
  set (e0 := da - 53 - (db - 53) - 53 + n) in *.
  exists M, E. split; [exact HN|]. split; [unfold e0 in HE; lia|].
  apply (faithful_above _ _ e0 E c s) in Ht; trivial;
    try (unfold e0 in *; lia).
  rewrite Z.div_div by lia.
  pose proof (pow2_pos (53 - db) ltac:(lia)) as Pb.
  pose proof (pow2_pos n ltac:(lia)) as Pn.
  apply Z.div_le_lower_bound; [lia|].
  rewrite HMa, HMb.
  set (X := 2 ^ (106 - da - s)).
  assert (PX : 0 < X) by (apply pow2_pos; lia).
  assert (E1 : 2 ^ (53 - db) * 2 ^ n * 2 ^ (- e0 - s) = X).
  { rewrite pow2_prod3 by (unfold e0; lia). unfold X, e0. f_equal. lia. }
  assert (E2 : 2 ^ (53 - da) * 2 ^ 53 = 2 ^ s * X).
  { unfold X. rewrite <- !pow2_split by lia. f_equal. lia. }
  replace (b * 2 ^ (53 - db) * 2 ^ n * (c * 2 ^ (- e0 - s)))
    with (c * b * (2 ^ (53 - db) * 2 ^ n * 2 ^ (- e0 - s))) by ring.
  replace (a * 2 ^ (53 - da) * 2 ^ 53)
    with (a * (2 ^ (53 - da) * 2 ^ 53)) by ring.
  rewrite E1, E2.
  replace (a * (2 ^ s * X)) with (a * 2 ^ s * X) by ring.
  apply Z.mul_le_mono_nonneg_r; lia.
Qed.

(** The product with an integer keeps a dyadic lower bound. *)
Lemma mul_above k x c s eb :
  1 <= k < 2 ^ 32 -> above x c s eb -> 1 <= c -> 0 <= s ->
  eb + 33 <= - s ->
  above (Z2F k * x)%float (k * c) s (eb + 33).
Proof.
  intros Hk (Mx & Ex & HNx & HEx & Hx) Hc Hs Heb.
  pose proof HNx as [_ HMx].
  pose proof (above_exponent Mx Ex c s HMx Hc Hx) as HEx'.
  pose proof (normal_exponent _ _ _ HNx) as HEx''.
  assert (B32 : 2 ^ 32 = 4294967296) by reflexivity.
  assert (B53 : 2 ^ 53 = 9007199254740992) by reflexivity.
  destruct (Z2F_repr k ltac:(lia)) as (Mk & dk & Hdk & Bk & HNk & HMk).
  assert (Hdk32 : dk <= 32).
  { assert (H : 2 ^ (dk - 1) < 2 ^ 32) by lia.
    apply pow2_lt_inv in H; lia. }
  destruct (mul_normal _ _ _ _ _ _ HNk HNx ltac:(lia) ltac:(lia))
    as (M & E & n & HN & Hn & HE & Ht).
  cbv zeta in Ht. destruct Ht as [Ht _].
  set (e0 := dk - 53 + Ex + n) in *.
  exists M, E. split; [exact HN|]. split; [unfold e0 in HE; lia|].
  apply (faithful_above _ _ e0 E (k * c) s) in Ht; trivial;
    try (unfold e0 in *; lia).
  pose proof (pow2_pos n ltac:(lia)) as Pn.
  pose proof (pow2_pos (53 - dk) ltac:(lia)) as Pk.
  apply Z.div_le_lower_bound; [lia|].
  rewrite HMk.
  assert (E1 : 2 ^ n * 2 ^ (- e0 - s) = 2 ^ (53 - dk) * 2 ^ (- Ex - s)).
  { apply pow2_prod_eq; unfold e0; lia. }
  replace (2 ^ n * (k * c * 2 ^ (- e0 - s)))
    with (k * c * (2 ^ n * 2 ^ (- e0 - s))) by ring.
  rewrite E1.
  replace (k * c * (2 ^ (53 - dk) * 2 ^ (- Ex - s)))
    with (k * 2 ^ (53 - dk) * (c * 2 ^ (- Ex - s))) by ring.
  apply Z.mul_le_mono_nonneg_l; [lia|exact Hx].
Qed.

Lemma scale_upper m hi e u :
  0 <= u -> 0 <= e - u -> m <= hi * 2 ^ (e - u) -> m * 2 ^ u <= hi * 2 ^ e.
Proof.
  intros Hu He H.
  assert (E : 2 ^ e = 2 ^ (e - u) * 2 ^ u).
  { rewrite <- pow2_split by lia. f_equal. lia. }
  rewrite E. pose proof (pow2_pos u Hu).
  replace (hi * (2 ^ (e - u) * 2 ^ u)) with (hi * 2 ^ (e - u) * 2 ^ u) by ring.
  apply Z.mul_le_mono_nonneg_r; lia.
Qed.

(** Dividing 60 by a number of at least [c / 2^s] gives at most
    [hi / 2^u] when [60 < (hi / 2^u) * (c / 2^s)]. *)
Lemma div_60_below p c s eb hi u :
  above p c s eb -> 1 <= c -> 0 <= s -> 0 <= u -> s + u <= 46 -> eb <= - s ->
  60 * 2 ^ (s + u) < hi * c ->
  exists M E, normal (60 / p) M E /\ - 100 - eb <= E <= 0
              /\ Zpos M * 2 ^ u <= hi * 2 ^ (- E).
Proof.
  intros (Mp & Ep & HNp & HEp & Hp) Hc Hs Hu Hsu Heb Hlt.
  pose proof HNp as [_ HMp].
  pose proof (above_exponent Mp Ep c s HMp Hc Hp) as HEp'.
  destruct (div_normal _ _ _ _ _ _ normal_60 HNp ltac:(lia) ltac:(lia))
    as (M & E & n & HN & Hn & HE & Ht).
  cbv zeta in Ht. destruct Ht as [_ Ht].
  set (e0 := - 47 - Ep - 53 + n) in *.
  exists M, E. split; [exact HN|]. split; [unfold e0 in HE; lia|].
  rewrite Z.div_div in Ht by lia.
  pose proof (pow2_pos n ltac:(lia)) as Pn.
  pose proof (pow2_pos u Hu) as Pu.
  pose proof (pow2_pos (- E) ltac:(unfold e0 in HE; lia)) as PE.
  assert (Hq : 8444249301319680 * 2 ^ 53 / (Zpos Mp * 2 ^ n)
               < hi * 2 ^ (- e0 - u)).
  { apply Z.div_lt_upper_bound; [lia|].
    set (X := 2 ^ (100 - s - u)).
    assert (PX : 0 < X) by (apply pow2_pos; lia).
    assert (E1 : 8444249301319680 * 2 ^ 53 = 60 * 2 ^ (s + u) * X).
    { unfold X. rewrite <- Z.mul_assoc, <- pow2_split by lia.
      replace (s + u + (100 - s - u)) with 100 by lia. reflexivity. }
    assert (E2 : 2 ^ (- Ep - s) * 2 ^ n * 2 ^ (- e0 - u) = X).
    { rewrite pow2_prod3 by (unfold e0; lia). unfold X, e0. f_equal. lia. }
    rewrite E1.
    apply Z.lt_le_trans with (hi * c * X).
    - apply Z.mul_lt_mono_pos_r; trivial.
    - rewrite <- E2.
      replace (hi * c * (2 ^ (- Ep - s) * 2 ^ n * 2 ^ (- e0 - u)))
        with (c * 2 ^ (- Ep - s) * (2 ^ n * (hi * 2 ^ (- e0 - u)))) by ring.
      replace (Zpos Mp * 2 ^ n * (hi * 2 ^ (- e0 - u)))
        with (Zpos Mp * (2 ^ n * (hi * 2 ^ (- e0 - u)))) by ring.
      apply Z.mul_le_mono_nonneg_r; [|exact Hp].
      assert (0 < hi).
      { destruct (Z.lt_ge_cases 0 hi) as [|Hle]; trivial. exfalso.
        assert (hi * c <= 0) by (apply Z.mul_nonpos_nonneg; lia).
        pose proof (pow2_pos (s + u) ltac:(lia)). lia. }
      pose proof (pow2_pos (- e0 - u) ltac:(unfold e0; lia)).
      apply Z.mul_nonneg_nonneg; [lia|].
      apply Z.mul_nonneg_nonneg; lia. }
  destruct (Z.eq_dec E e0) as [->|Hne].
  - rewrite Z.sub_diag in Ht. change (2 ^ 0) with 1 in Ht.
    apply scale_upper; [lia|unfold e0; lia|lia].
  - assert (E = e0 + 1) by lia. subst E.
    replace (e0 + 1 - e0) with 1 in Ht by lia. change (2 ^ 1) with 2 in Ht.
    assert (E3 : 2 ^ (- e0 - u) = 2 * 2 ^ (- (e0 + 1) - u)).
    { rewrite <- pow2_succ by (unfold e0; lia). f_equal. lia. }
    apply scale_upper; [lia|unfold e0; lia|lia].
Qed.

(** The corrected and rounded tempo of a raw value of at most [hi / 2]. *)
Lemma adjust_bpm_upper raw M E hi h :
  normal raw M E -> E <= 0 -> Zpos M * 2 ^ 1 <= hi * 2 ^ (- E) ->
  hi <= 4 * h + 1 -> 240 <= h ->
  exists n, adjust_bpm raw = Z2F n /\ 0 <= n <= h.
Proof.
  intros HN HE Hup Hhi Hh. change (2 ^ 1) with 2 in Hup.
  pose proof HN as [HP HM].
  pose proof (normal_exponent _ _ _ HN) as HEx.
  pose proof (digits_bounds M) as [L U]. rewrite HM in L, U.
  change (53 - 1) with 52 in L.
  assert (B53 : 2 ^ 53 = 9007199254740992) by reflexivity.
  destruct (240 <? raw)%float eqn:H1.
  - (* halved *)
    rewrite adjust_bpm_above by trivial.
    apply ltb_key in H1. destruct H1 as (a & c & Ha & Hc & Lt).
    rewrite key_240 in Ha. rewrite (normal_key _ _ _ HN) in Hc.
    inversion Ha; inversion Hc; subst a c. unfold lex3_lt, M15 in Lt.
    pose proof (half_normal raw M E HN ltac:(lia)) as HH.
    destruct (Math_round_normal _ _ _ HH ltac:(lia)) as (n & Hn & Hn1 & En).
    exists n. split; [exact Hn|]. split; [lia|].
    replace (- (E - 1)) with (- E + 1) in En by lia.
    pose proof (pow2_pos (- E) ltac:(lia)) as PE.
    rewrite !pow2_succ in En by lia. subst n.
    apply Z.lt_succ_r. apply Z.div_lt_upper_bound; [lia|].
    assert (hi * 2 ^ (- E) <= (4 * h + 1) * 2 ^ (- E))
      by (apply Z.mul_le_mono_nonneg_r; lia).
    lia.
  - destruct (raw <? 60)%float eqn:H2.
    + (* doubled *)
      rewrite adjust_bpm_below by trivial.
      apply ltb_key in H2. destruct H2 as (a & c & Ha & Hc & Lt).
      rewrite key_60 in Hc. rewrite (normal_key _ _ _ HN) in Ha.
      inversion Ha; inversion Hc; subst a c. unfold lex3_lt, M15 in Lt.
      pose proof (double_normal raw M E HN ltac:(lia)) as HD.
      destruct (Z.lt_ge_cases (E + 1) (- 53)) as [Hsmall|Hbig].
      * exists 0. split; [|lia].
        destruct HD as [HPD _]. unfold Math_round. rewrite HPD.
        destruct (Z.leb_spec 0 (E + 1)) as [|_]; [lia|]. cbn [cond_Zopp].
        rewrite Z.shiftr_div_pow2 by lia.
        assert (P54 : 2 ^ 54 <= 2 ^ (- (E + 1)))
          by (apply Z.pow_le_mono_r; lia).
        change (2 ^ 54) with 18014398509481984 in P54.
        rewrite pow2_succ by lia.
        rewrite Z.div_small by lia. reflexivity.
      * destruct (Math_round_normal _ _ _ HD ltac:(lia))
          as (n & Hn & Hn1 & En).
        exists n. split; [exact Hn|]. split; [lia|].
        assert (P46 : 2 ^ 46 <= 2 ^ (- (E + 1)))
          by (apply Z.pow_le_mono_r; lia).
        change (2 ^ 46) with 70368744177664 in P46.
        rewrite pow2_succ in En by lia. subst n.
        apply Z.le_trans with 240; [|exact Hh].
        apply Z.lt_succ_r. apply Z.div_lt_upper_bound; lia.
    + (* unchanged *)
      rewrite adjust_bpm_within by trivial.
      pose proof (ltb_false_key _ _ _ _ key_240 (normal_key _ _ _ HN) H1) as N1.
      pose proof (ltb_false_key _ _ _ _ (normal_key _ _ _ HN) key_60 H2) as N2.
      unfold lex3_lt, M15 in N1, N2.
      destruct (round_60_240 raw M E HN) as (n & Hn & Hn1).
      * unfold M15. apply lex3_le_iff. lia.
      * unfold M15. apply lex3_le_iff. lia.
      * exists n. split; [exact Hn|]. lia.
Qed.

(** The raw tempo of an interval of at least 2 windows. *)
Lemma raw_bpm_upper sr k c hi :
  50 <= sr < 2 ^ 31 -> 2 <= k < 2 ^ 32 ->
  1 <= c -> c * sr <= sr / 50 * 2 ^ 20 -> 60 * 2 ^ 21 < hi * (2 * c) ->
  exists M E, normal (raw_bpm sr k) M E /\ E <= 0
              /\ Zpos M * 2 ^ 1 <= hi * 2 ^ (- E).
Proof.
  intros Hsr Hk Hc Hcs Hhi.
  assert (B31 : 2 ^ 31 = 2147483648) by reflexivity.
  assert (B53 : 2 ^ 53 = 9007199254740992) by reflexivity.
  assert (Hw : 1 <= sr / 50) by (apply Z.div_le_lower_bound; lia).
  assert (Hw' : 50 * (sr / 50) <= sr) by (apply Z.mul_div_le; lia).
  unfold raw_bpm. rewrite windowSize_float by trivial.
  pose proof (div_above (sr / 50) sr c 20 5 Hw ltac:(lia) ltac:(lia)) as H1.
  change (2 ^ 5) with 32 in H1.
  specialize (H1 ltac:(lia) Hc ltac:(lia) Hcs).
  pose proof (mul_above k _ c 20 _ ltac:(lia) H1 Hc ltac:(lia) ltac:(lia))
    as H2.
  assert (Hpos : 0 < hi).
  { destruct (Z.lt_ge_cases 0 hi) as [|Hle]; trivial. exfalso.
    assert (hi * (2 * c) <= 0) by (apply Z.mul_nonpos_nonneg; lia).
    change (2 ^ 21) with 2097152 in Hhi. lia. }
  assert (Hkc : 60 * 2 ^ (20 + 1) < hi * (k * c)).
  { change (20 + 1) with 21.
    apply Z.lt_le_trans with (hi * (2 * c)); [exact Hhi|].
    apply Z.mul_le_mono_nonneg_l; [lia|].
    apply Z.mul_le_mono_nonneg_r; lia. }
  destruct (div_60_below _ (k * c) 20 _ hi 1 H2 ltac:(lia) ltac:(lia)
              ltac:(lia) ltac:(lia) ltac:(lia) Hkc)
    as (M & E & HN & HE & Hup).
  exists M, E. split; [exact HN|]. split; [lia|exact Hup].
Qed.

End TempoRange.

Lemma ceil_div_le n step : (1 <= step)%nat -> (ceil_div n step <= n)%nat.
Proof.
  intros Hs. unfold ceil_div.
  destruct (Nat.eq_dec n 0) as [->|NE].
  - rewrite Nat.div_small by lia. lia.
  - apply Nat.lt_succ_r. apply Nat.Div0.div_lt_upper_bound. nia.
Qed.

(** Whatever the samples are, the tempo returned is +Infinity (fewer than
    two onsets) or an integer between 0 and 1485; at a sample rate that is
    a multiple of 50 it is at most 750 (integer sample rate in
    [50, 2^31), fewer than [2^32] samples). *)
Theorem estimateTempo_range (b : AudioBuffer) :
  (50 <= sampleRate b < 2 ^ 31)%Z ->
  (Z.of_nat (bufferLength b) < 2 ^ 32)%Z ->
  exists tempo,
    estimateTempo b = Some tempo
    /\ (tempo = infinity
        \/ exists n, tempo = Z2F n /\ (0 <= n <= 1485)%Z
                     /\ ((sampleRate b mod 50 = 0)%Z -> (n <= 750)%Z)).
Proof.
  intros Hsr Hlen. unfold estimateTempo.
  assert (Hstep : (1 <= count (windowSize (sampleRate b)))%nat).
  { rewrite window_step_eq, fifty by lia.
    assert (1 <= sampleRate b / 50)%Z by (apply Z.div_le_lower_bound; lia).
    lia. }
  pose proof (energyProfile_of_windows b Hstep) as HP. rewrite HP.
  set (p := map _ _) in *.
  assert (Hpl : (length p <= bufferLength b)%nat).
  { unfold p. rewrite length_map, length_seq. apply ceil_div_le. exact Hstep. }
  eexists. split; [reflexivity|].
  destruct (Nat.lt_ge_cases (length (onsets_of p)) 2) as [Hlt|Hge].
  - left. rewrite tempo_of_profile_short, raw_bpm_0 by trivial. reflexivity.
  - right.
    destruct (winner_interval _ (intervals_of_onsets_nonempty _ Hge))
      as (d & Hdin & Hd).
    pose proof (interval_distance p d Hdin) as Hdist.
    destruct (normalizedInterval_range d) as [_ Hr].
    unfold tempo_of_profile. rewrite Hd.
    set (k := normalizedInterval d) in *.
    assert (Hk : (2 <= k < 2 ^ 32)%Z) by lia.
    assert (Hw : (50 * (sampleRate b / 50) <= sampleRate b
                  < 50 * (sampleRate b / 50) + 50)%Z).
    { pose proof (Z.div_mod (sampleRate b) 50 ltac:(lia)) as D.
      pose proof (Z.mod_pos_bound (sampleRate b) 50 ltac:(lia)). lia. }
    assert (Hw1 : (1 <= sampleRate b / 50)%Z)
      by (apply Z.div_le_lower_bound; lia).
    destruct (Z.eq_dec (sampleRate b mod 50) 0) as [Hmod|Hmod].
    + assert (C1 : (20971 * sampleRate b <= sampleRate b / 50 * 2 ^ 20)%Z).
      { pose proof (Z.div_mod (sampleRate b) 50 ltac:(lia)) as D.
        change (2 ^ 20)%Z with 1048576%Z. lia. }
      assert (C2 : (60 * 2 ^ 21 < 3001 * (2 * 20971))%Z) by reflexivity.
      destruct (raw_bpm_upper (sampleRate b) k 20971 3001 Hsr Hk
                  ltac:(lia) C1 C2) as (M & E & HN & HE & Hup).
      destruct (adjust_bpm_upper _ M E 3001 750 HN HE Hup
                  ltac:(lia) ltac:(lia)) as (n & Hn & Hn1).
      exists n. split; [exact Hn|]. split; [lia|]. intros _. lia.
    + assert (C1 : (10591 * sampleRate b <= sampleRate b / 50 * 2 ^ 20)%Z).
      { change (2 ^ 20)%Z with 1048576%Z. lia. }
      assert (C2 : (60 * 2 ^ 21 < 5941 * (2 * 10591))%Z) by reflexivity.
      destruct (raw_bpm_upper (sampleRate b) k 10591 5941 Hsr Hk
                  ltac:(lia) C1 C2) as (M & E & HN & HE & Hup).
      destruct (adjust_bpm_upper _ M E 5941 1485 HN HE Hup
                  ltac:(lia) ltac:(lia)) as (n & Hn & Hn1).
      exists n. split; [exact Hn|]. split; [lia|]. intros H. contradiction.
Qed.

(** Two beats 2 windows apart at 99 samples per second (one sample per
    window): the largest tempo. *)
Definition fastest : AudioBuffer :=
  {| sampleRate := 99; channelData := [0; 1; 0; 1; 0; 0; 0; 0; 0; 0] |}.

Lemma estimateTempo_range_witness :
  (50 <= sampleRate fastest < 2 ^ 31)%Z
  /\ (Z.of_nat (bufferLength fastest) < 2 ^ 32)%Z
  /\ estimateTempo fastest = Some 1485
  /\ estimateTempo clicks = Some 750
  /\ exists tempo,
       estimateTempo fastest = Some tempo
       /\ (tempo = infinity
           \/ exists n, tempo = Z2F n /\ (0 <= n <= 1485)%Z
                        /\ ((sampleRate fastest mod 50 = 0)%Z -> (n <= 750)%Z)).
Proof.
  assert (H1 : (50 <= sampleRate fastest < 2 ^ 31)%Z)
    by (cbn; split; [lia|reflexivity]).
  assert (H2 : (Z.of_nat (bufferLength fastest) < 2 ^ 32)%Z)
    by (vm_compute; reflexivity).
  split; [exact H1|]. split; [exact H2|].
  split; [vm_compute; reflexivity|].
  split; [vm_compute; reflexivity|].
  exact (estimateTempo_range fastest H1 H2).
Defined.
